(** * Block application and chain mutation core

    A shallow embedding of the chain submodule of the blocks module
    (class [Chain]: saveGenesisBlock, saveBlock, applyGenesisBlock,
    applyBlock, deleteLastBlock and their private steps).

    The JavaScript code is written with callbacks and promises that run one
    after the other. It is embedded here as a state-passing computation
    that ends in one of three ways: the callback is called without an error,
    the callback is called with an error, or the process is terminated by
    [process.exit]. Everything the code does to the outside (the bus, the
    logger, the persistence layer, the collaborating modules, the process) is
    also recorded, in order, in a trace. *)

From Stdlib Require Import String ZArith List Bool Lia.
Import ListNotations.

Local Open Scope string_scope.
Local Open Scope list_scope.
Local Open Scope Z_scope.

Infix "^^" := String.append (at level 60, right associativity).

(** ** Data model *)

Definition BlockId := string.
Definition TransactionId := string.
Definition PublicKey := string.

(** Modelled from the spec: helpers/transaction_types.js is not among the
    sources. The spec describes the type of a transaction as an enumeration
    that has at least TRANSFER and VOTE and further application types; the
    code only ever compares a type with [transactionTypes.VOTE]. *)
Inductive TransactionType : Type :=
| TRANSFER
| VOTE
| OTHER (n : nat).

Definition isVOTE (ty : TransactionType) : bool :=
  match ty with VOTE => true | _ => false end.

Record Transaction : Type := mkTransaction {
  t_id : TransactionId;
  t_type : TransactionType;
  t_senderPublicKey : PublicKey;
  t_blockId : option BlockId;
  t_recipientId : PublicKey;
  t_amount : Z
}.

Record Block : Type := mkBlock {
  b_id : BlockId;
  b_height : Z;
  b_previousBlock : option BlockId;
  b_transactions : list Transaction
}.

(** Values that travel on the error channel: plain strings, [Error] objects
    (which have a [name]) and the object literals
    [{ message, transaction, block }] built by the genesis path. *)
Inductive Err : Type :=
| ErrString (s : string)
| ErrObject (name message : string)
| ErrApply (message : Err) (transaction : Transaction) (block : Block).

(** [reason.name] *)
Definition err_name (e : Err) : option string :=
  match e with
  | ErrObject n _ => Some n
  | _ => None
  end.

(** What a template literal makes of an error value: a string as it is,
    an [Error] object by [Error.prototype.toString] (the name, the message,
    or both with a colon between them), an object literal by
    [Object.prototype.toString]. *)
Definition err_toString (e : Err) : string :=
  match e with
  | ErrString s => s
  | ErrObject n m =>
      if String.eqb n "" then m
      else if String.eqb m "" then n
      else n ^^ ": " ^^ m
  | ErrApply _ _ _ => "[object Object]"
  end.

(** The answer of a collaborator: [cb(null, a)] or [cb(err)] with a truthy
    [err]; a resolved or a rejected promise. *)
Inductive result (A : Type) : Type :=
| Ok (a : A)
| Fail (e : Err).
Arguments Ok {A} a.
Arguments Fail {A} e.

(** How an operation of the chain module ends. *)
Inductive outcome (A : Type) : Type :=
| Done (a : A)          (* cb(null, a) *)
| Failed (e : Err)      (* cb(e) *)
| Exited (code : Z).    (* process.exit(code): the callback never runs *)
Arguments Done {A} a.
Arguments Failed {A} e.
Arguments Exited {A} code.

(** ** Observable effects *)

Inductive LogLevel : Type := trace_ | debug | info | warn | error.

Inductive Payload : Type :=
| PBlock (b : Block)
| PTransactions (ts : list Transaction)
| PBroadcast (b : Block) (broadcast : bool).

(** A call to a collaborator, with the arguments the claims look at. *)
Inductive Invocation : Type :=
| getGenesisBlockId_ (id : BlockId)
| blocks_save_ (b : Block)
| transactions_save_ (ts : list Transaction)
| deleteBlock_ (id : BlockId)
| deleteAfterBlock_ (id : BlockId)
| afterSave_ (t : Transaction)
| setAccountAndGet_ (pk : PublicKey)
| getAccount_ (pk : PublicKey)
| applyUnconfirmed_ (t : Transaction)
| apply_ (t : Transaction)
| undo_ (t : Transaction)
| undoUnconfirmed_ (t : Transaction)
| undoUnconfirmedList_
| removeUnconfirmedTransaction_ (id : TransactionId)
| receiveTransactions_ (ts : list Transaction) (broadcast : bool)
| tick_ (b : Block)
| backwardTick_ (oldLastBlock previousBlock : Block)
| loadBlocksPart_ (id : option BlockId).

(** Of a log line, the level and the first argument are kept. Where the
    source logs an error value or its [stack], the text stands for it: it
    is what a template literal makes of the error. *)
Inductive Event : Type :=
| Log (lvl : LogLevel) (msg : string)
| BusMessage (topic : string) (p : Payload)
| DbTx (name : string)          (* library.db.tx(name, ...) opens *)
| DbCommit (name : string)
| DbRollback (name : string)
| ProcessEmit (signal : string)
| ProcessExit (code : Z)
| LastBlockSet (b : Block)      (* modules.blocks.lastBlock.set(b) *)
| IsActiveSet (v : bool)        (* modules.blocks.isActive.set(v) *)
| Call (c : Invocation).

Section Chain.

(** The collaborators own three kinds of state the chain module never looks
    into: the persisted storage (blocks, transactions, accounts and rounds
    tables), the transaction pool, and account values. *)
Context {DB Pool Account : Type}.

(** What [library], [modules] and the JavaScript runtime provide. None of it
    is under the sources of the chain module, so all of it is a parameter.
    A call that writes returns the storage it leaves behind, also when it
    fails. A collaborator works on the blocks and transactions it is handed
    as arguments: it is given the storage or the pool, and neither the
    Last-Block Register nor the [isActive] flag. *)
Record Env : Type := mkEnv {
  (* library.genesisblock.block *)
  genesisblock : Block;
  (* library.db.blocks / library.db.transactions; a row of
     getGenesisBlockId is represented by its id column *)
  db_getGenesisBlockId : BlockId -> DB -> result (list BlockId);
  db_blocks_save : Block -> DB -> result unit * DB;
  db_transactions_save : list Transaction -> DB -> result unit * DB;
  db_deleteBlock : BlockId -> DB -> result unit * DB;
  db_deleteAfterBlock : BlockId -> DB -> result (list BlockId) * DB;
  (* library.logic.transaction *)
  logic_afterSave : Transaction -> result unit;
  (* modules.accounts *)
  accounts_setAccountAndGet : PublicKey -> DB -> result Account * DB;
  accounts_getAccount : PublicKey -> DB -> result Account;
  (* modules.transactions *)
  transactions_applyUnconfirmed : Transaction -> Account -> DB -> result unit * DB;
  transactions_apply : Transaction -> Block -> Account -> DB -> result unit * DB;
  transactions_undo : Transaction -> Block -> Account -> DB -> result unit * DB;
  transactions_undoUnconfirmed : Transaction -> DB -> result unit * DB;
  transactions_undoUnconfirmedList : Pool -> DB -> result unit * (Pool * DB);
  transactions_removeUnconfirmedTransaction : TransactionId -> Pool -> Pool;
  transactions_receiveTransactions :
    list Transaction -> bool -> Pool -> result unit * Pool;
  (* modules.rounds *)
  rounds_tick : Block -> DB -> result unit * DB;
  rounds_backwardTick : Block -> Block -> DB -> result unit * DB;
  (* modules.blocks.utils *)
  utils_loadBlocksPart : option BlockId -> DB -> result (list Block);
  (* Array.prototype.sort of the engine, on an array of transactions *)
  Array_sort :
    (Transaction -> Transaction -> Z) -> list Transaction -> list Transaction
}.

(** The state the operations run on. [lastBlock] is the Last-Block Register
    and [isActive] the Is-Active flag of modules.blocks. *)
Record State : Type := mkState {
  lastBlock : Block;
  isActive : bool;
  db : DB;
  pool : Pool;
  trace : list Event
}.

Definition with_lastBlock (b : Block) (s : State) : State :=
  mkState b (isActive s) (db s) (pool s) (trace s).
Definition with_isActive (v : bool) (s : State) : State :=
  mkState (lastBlock s) v (db s) (pool s) (trace s).
Definition with_db (d : DB) (s : State) : State :=
  mkState (lastBlock s) (isActive s) d (pool s) (trace s).
Definition with_pool (p : Pool) (s : State) : State :=
  mkState (lastBlock s) (isActive s) (db s) p (trace s).
Definition record (e : Event) (s : State) : State :=
  mkState (lastBlock s) (isActive s) (db s) (pool s) (trace s ++ [e]).

(** ** The computation monad *)

Definition M (A : Type) : Type := State -> outcome A * State.

Definition ret {A} (a : A) : M A := fun s => (Done a, s).

Definition bind {A B} (m : M A) (k : A -> M B) : M B := fun s =>
  match m s with
  | (Done a, s') => k a s'
  | (Failed e, s') => (Failed e, s')
  | (Exited c, s') => (Exited c, s')
  end.

Notation "x <- m ;; k" := (bind m (fun x => k))
  (at level 61, m at next level, right associativity).
Notation "m ;; k" := (bind m (fun _ => k))
  (at level 61, right associativity).

Definition reject {A} (e : Err) : M A := fun s => (Failed e, s).

(** [.catch(h)], or the error branch of a callback. *)
Definition catch {A} (m : M A) (h : Err -> M A) : M A := fun s =>
  match m s with
  | (Failed e, s') => h e s'
  | r => r
  end.

Definition emit (e : Event) : M unit := fun s => (Done tt, record e s).
Definition logger (lvl : LogLevel) (msg : string) : M unit := emit (Log lvl msg).
Definition bus_message (topic : string) (p : Payload) : M unit :=
  emit (BusMessage topic p).
Definition process_emit (signal : string) : M unit := emit (ProcessEmit signal).
Definition process_exit {A} (code : Z) : M A := fun s =>
  (Exited code, record (ProcessExit code) s).

Definition lastBlock_get : M Block := fun s => (Done (lastBlock s), s).
Definition lastBlock_set (b : Block) : M unit := fun s =>
  (Done tt, record (LastBlockSet b) (with_lastBlock b s)).
Definition isActive_set (v : bool) : M unit := fun s =>
  (Done tt, record (IsActiveSet v) (with_isActive v s)).

Definition of_result {A} (r : result A) : outcome A :=
  match r with Ok a => Done a | Fail e => Failed e end.

(** A call that may write to storage. *)
Definition db_call {A} (c : Invocation) (f : DB -> result A * DB) : M A := fun s =>
  let (r, d) := f (db s) in (of_result r, record (Call c) (with_db d s)).

(** A call that only reads storage. *)
Definition db_read {A} (c : Invocation) (f : DB -> result A) : M A := fun s =>
  (of_result (f (db s)), record (Call c) s).

(** A call on the transaction pool. *)
Definition pool_call {A} (c : Invocation) (f : Pool -> result A * Pool) : M A := fun s =>
  let (r, p) := f (pool s) in (of_result r, record (Call c) (with_pool p s)).

(** [library.db.tx(name, body)]: what [body] wrote to storage is kept when it
    resolves and undone when it rejects; nothing else is undone. The
    transaction is taken to fail only when [body] does: a BEGIN or a COMMIT
    that fails is not modelled. *)
Definition db_tx {A} (name : string) (body : M A) : M A := fun s =>
  let s0 := record (DbTx name) s in
  match body s0 with
  | (Done a, s1) => (Done a, record (DbCommit name) s1)
  | (Failed e, s1) => (Failed e, record (DbRollback name) (with_db (db s0) s1))
  | (Exited c, s1) => (Exited c, s1)
  end.

(** [async.eachSeries] and [Promise.mapSeries] (the mapped values are not
    used): one element after the other, stopping at the first error. *)
Fixpoint eachSeries {A} (f : A -> M unit) (l : list A) : M unit :=
  match l with
  | [] => ret tt
  | x :: r => f x ;; eachSeries f r
  end.

(** [tx.batch(promises)]: every query of the batch has been issued when the
    array is built, so all of them run; the batch rejects when one did. *)
Fixpoint batch (ms : list (M unit)) : M unit :=
  match ms with
  | [] => ret tt
  | m :: r => fun s =>
      match m s with
      | (Done _, s') => batch r s'
      | (Failed e, s') =>
          match batch r s' with
          | (Exited c, s'') => (Exited c, s'')
          | (_, s'') => (Failed e, s'')
          end
      | (Exited c, s') => (Exited c, s')
      end
  end.

Variable E : Env.

(** ** saveBlock, afterSave, saveGenesisBlock *)

(** Lines 138-142 of saveBlock: every transaction object of the block gets
    the block's id, in place. *)
Definition assignBlockId (block : Block) : Block :=
  mkBlock (b_id block) (b_height block) (b_previousBlock block)
    (map (fun t => mkTransaction (t_id t) (t_type t) (t_senderPublicKey t)
                     (Some (b_id block)) (t_recipientId t) (t_amount t))
         (b_transactions block)).

(** [logic.transaction.afterSave] is given no access to storage; its call
    is recorded like a read. *)
Definition afterSave (block : Block) : M unit :=
  bus_message "transactionsSaved" (PTransactions (b_transactions block)) ;;
  eachSeries
    (fun t => db_read (afterSave_ t) (fun _ => logic_afterSave E t))
    (b_transactions block).

(** The array [promises] of saveBlockBatch. *)
Definition saveBlockPromises (block : Block) : list (M unit) :=
  db_call (blocks_save_ block) (db_blocks_save E block) ::
  (if (0 <? Z.of_nat (length (b_transactions block)))
   then [db_call (transactions_save_ (b_transactions block))
           (db_transactions_save E (b_transactions block))]
   else []).

(** [tx] says whether a running persistence transaction was passed. Without
    one, saveBlock opens its own around the batch: the queries of the batch
    are issued on the connection of that transaction before its callback
    returns, so they commit together, and a failing one aborts it. The
    callbacks of afterSave run once the batch has resolved. *)
Definition saveBlock (block : Block) (tx : bool) : M unit :=
  let block := assignBlockId block in
  let handler := fun err =>
    logger error (err_toString err) ;;
    reject (ErrString "Blocks#saveBlock error") in
  (if tx
   then catch (batch (saveBlockPromises block)) handler
   else catch (db_tx "Chain:saveBlock" (batch (saveBlockPromises block))) handler) ;;
  afterSave block.

(** Truthiness of [rows.length && rows[0].id]. *)
Definition genesisRowFound (rows : list BlockId) : bool :=
  match rows with
  | [] => false
  | id :: _ => negb (String.eqb id "")
  end.

Definition saveGenesisBlock : M unit :=
  let block := genesisblock E in
  rows <- catch
            (db_read (getGenesisBlockId_ (b_id block))
               (db_getGenesisBlockId E (b_id block)))
            (fun err =>
               logger error (err_toString err) ;;
               reject (ErrString "Blocks#saveGenesisBlock error")) ;;
  if negb (genesisRowFound rows)
  then saveBlock block false
  else ret tt.

(** ** deleteBlock, deleteAfterBlock, broadcastReducedBlock *)

(** [Chain.prototype.deleteBlock] takes [(blockId, cb)]: a third argument
    is ignored, and the row is deleted through [library.db]. *)
Definition deleteBlock (blockId : BlockId) : M unit :=
  catch (db_call (deleteBlock_ blockId) (db_deleteBlock E blockId))
    (fun err =>
       logger error (err_toString err) ;;
       reject (ErrString "Blocks#deleteBlock error")).

Definition deleteAfterBlock (blockId : BlockId) : M (list BlockId) :=
  catch (db_call (deleteAfterBlock_ blockId) (db_deleteAfterBlock E blockId))
    (fun err =>
       logger error (err_toString err) ;;
       reject (ErrString "Blocks#deleteAfterBlock error")).

Definition broadcastReducedBlock (reducedBlock : Block) (broadcast : bool) : M unit :=
  bus_message "broadcastBlock" (PBroadcast reducedBlock broadcast).

(** ** applyGenesisBlock *)

(** The comparator handed to [sort]: [a => a.type === VOTE ? 1 : 0]. It
    never looks at its second argument. *)
Definition genesisComparator (a _b : Transaction) : Z :=
  if isVOTE (t_type a) then 1 else 0.

Definition applyTransaction (block : Block) (transaction : Transaction)
    (sender : Account) : M unit :=
  catch
    (db_call (applyUnconfirmed_ transaction)
       (transactions_applyUnconfirmed E transaction sender))
    (fun err => reject (ErrApply err transaction block)) ;;
  catch
    (db_call (apply_ transaction)
       (transactions_apply E transaction block sender))
    (fun _ =>
       reject (ErrApply
                 (ErrString ("Failed to apply transaction: " ^^ t_id transaction))
                 transaction block)).

(** The progress tracker only logs and is left out. No persistence
    transaction is opened on this path. *)
Definition applyGenesisBlock (block : Block) : M unit :=
  let block :=
    mkBlock (b_id block) (b_height block) (b_previousBlock block)
      (Array_sort E genesisComparator (b_transactions block)) in
  catch
    (eachSeries
       (fun transaction =>
          sender <- catch
                      (db_call (setAccountAndGet_ (t_senderPublicKey transaction))
                         (accounts_setAccountAndGet E (t_senderPublicKey transaction)))
                      (fun err => reject (ErrApply err transaction block)) ;;
          applyTransaction block transaction sender)
       (b_transactions block))
    (fun _ => process_exit 0) ;;
  lastBlock_set block ;;
  db_call (tick_ block) (rounds_tick E block).

(** ** The steps of applyBlock *)

Definition undoUnconfirmedListStep : M unit :=
  catch
    (fun s =>
       let '(r, (p, d)) := transactions_undoUnconfirmedList E (pool s) (db s) in
       (of_result r, record (Call undoUnconfirmedList_) (with_db d (with_pool p s))))
    (fun _ =>
       logger error "Failed to undo unconfirmed list" ;;
       reject (ErrString "Failed to undo unconfirmed list")).

Definition applyUnconfirmedStep (block : Block) : M unit :=
  eachSeries
    (fun transaction =>
       sender <- catch
                   (db_call (setAccountAndGet_ (t_senderPublicKey transaction))
                      (accounts_setAccountAndGet E (t_senderPublicKey transaction)))
                   (fun accountErr =>
                      let err :=
                        "Failed to get account to apply unconfirmed transaction: "
                        ^^ t_id transaction ^^ " - " ^^ err_toString accountErr in
                      logger error err ;;
                      logger error "Transaction" ;;
                      reject (ErrString err)) ;;
       catch
         (db_call (applyUnconfirmed_ transaction)
            (transactions_applyUnconfirmed E transaction sender))
         (fun err =>
            let err :=
              "Failed to apply unconfirmed transaction: "
              ^^ t_id transaction ^^ " - " ^^ err_toString err in
            logger error err ;;
            logger error "Transaction" ;;
            reject (ErrString err)))
    (b_transactions block).

Definition applyConfirmedStep (block : Block) : M unit :=
  eachSeries
    (fun transaction =>
       sender <- catch
                   (db_read (getAccount_ (t_senderPublicKey transaction))
                      (accounts_getAccount E (t_senderPublicKey transaction)))
                   (fun accountErr =>
                      let err :=
                        "Failed to get account to apply transaction: "
                        ^^ t_id transaction ^^ " - " ^^ err_toString accountErr in
                      logger error err ;;
                      logger error "Transaction" ;;
                      reject (ErrString err)) ;;
       catch
         (db_call (apply_ transaction)
            (transactions_apply E transaction block sender))
         (fun err =>
            let err :=
              "Failed to apply transaction: "
              ^^ t_id transaction ^^ " - " ^^ err_toString err in
            logger error err ;;
            logger error "Transaction" ;;
            reject (ErrString err)))
    (b_transactions block).

(** The register is set first. When the block is also saved, saveBlock
    assigns the block id to the transactions of that same object, so the
    register, which now refers to it, sees them too: [alias] is that write
    seen through the register (it is no call of [lastBlock.set]). *)
Definition saveBlockStep (block : Block) (saveBlockFlag : bool) : M unit :=
  lastBlock_set block ;;
  if saveBlockFlag then
    let alias : M unit := fun s => (Done tt, with_lastBlock (assignBlockId block) s) in
    let block := assignBlockId block in
    alias ;;
    catch (saveBlock block true)
      (fun _ =>
         logger error "Failed to save block..." ;;
         logger error "Block" ;;
         reject (ErrString "Failed to save block")) ;;
    logger debug "Block applied correctly" ;;
    bus_message "newBlock" (PBlock block) ;;
    db_call (tick_ block) (rounds_tick E block)
  else
    bus_message "newBlock" (PBlock block) ;;
    db_call (tick_ block) (rounds_tick E block).

(** ** applyBlock *)

Definition removeUnconfirmedTransaction (id : TransactionId) : M unit := fun s =>
  (Done tt,
   record (Call (removeUnconfirmedTransaction_ id))
     (with_pool (transactions_removeUnconfirmedTransaction E id (pool s)) s)).

(** [reason.name === 'Snapshot finished'] *)
Definition isSnapshotFinished (reason : Err) : bool :=
  match err_name reason with
  | Some n => String.eqb n "Snapshot finished"
  | None => false
  end.

(** The callback of [library.db.tx]: what runs inside the persistence
    transaction. *)
Definition applyBlockTx (block : Block) (saveBlockFlag : bool) : M unit :=
  isActive_set true ;;
  applyUnconfirmedStep block ;;
  applyConfirmedStep block ;;
  saveBlockStep block saveBlockFlag.

(** The callback of [.then]: the persistence transaction has committed. *)
Definition applyBlockCommitted (block : Block) : M unit :=
  eachSeries
    (fun transaction => removeUnconfirmedTransaction (t_id transaction))
    (b_transactions block) ;;
  isActive_set false.

(** The callback of [.catch]. *)
Definition applyBlockRejected (reason : Err) : M unit :=
  isActive_set false ;;
  (if isSnapshotFinished reason
   then logger info (err_toString reason) ;; process_emit "SIGTERM"
   else ret tt) ;;
  reject reason.

Definition applyBlock (block : Block) (saveBlockFlag : bool) : M unit :=
  undoUnconfirmedListStep ;;
  catch
    (db_tx "Chain:applyBlock" (applyBlockTx block saveBlockFlag) ;;
     applyBlockCommitted block)
    applyBlockRejected.

(** ** popLastBlock, deleteLastBlock, recoverChain *)

(** [lastBlock] of deleteLastBlock and [oldLastBlock] of popLastBlock are one
    object, the one the register holds until [lastBlock.set] replaces it at
    the very end. The model therefore reads that object from the register
    and writes to it there. [Array.prototype.reverse] reverses the array in
    place and returns it. *)
Definition reverseTransactions : M (list Transaction) := fun s =>
  let b := lastBlock s in
  let ts := rev (b_transactions b) in
  (Done ts, with_lastBlock (mkBlock (b_id b) (b_height b) (b_previousBlock b) ts) s).

Definition loadSecondLastBlockStep (secondLastBlockId : option BlockId) : M Block :=
  blocks <- catch
              (db_read (loadBlocksPart_ secondLastBlockId)
                 (utils_loadBlocksPart E secondLastBlockId))
              (fun err =>
                 logger error "Failed to get loadBlocksPart" ;;
                 reject err) ;;
  match blocks with
  | [] =>
      logger error "Failed to get loadBlocksPart" ;;
      reject (ErrString "previousBlock is null")
  | previousBlock :: _ => ret previousBlock
  end.

Definition undoStep (transaction : Transaction) : M unit :=
  sender <- catch
              (db_read (getAccount_ (t_senderPublicKey transaction))
                 (accounts_getAccount E (t_senderPublicKey transaction)))
              (fun accountErr =>
                 logger error "Failed to get account to undo transactions" ;;
                 reject accountErr) ;;
  oldLastBlock <- lastBlock_get ;;
  catch
    (db_call (undo_ transaction)
       (transactions_undo E transaction oldLastBlock sender))
    (fun undoErr =>
       logger error "Failed to undo transactions" ;;
       reject undoErr).

Definition undoUnconfirmStep (transaction : Transaction) : M unit :=
  catch
    (db_call (undoUnconfirmed_ transaction)
       (transactions_undoUnconfirmed E transaction))
    (fun undoUnconfirmErr =>
       logger error "Failed to undo transactions" ;;
       reject undoUnconfirmErr).

Definition backwardTickStep (previousBlock : Block) : M unit :=
  oldLastBlock <- lastBlock_get ;;
  catch
    (db_call (backwardTick_ oldLastBlock previousBlock)
       (rounds_backwardTick E oldLastBlock previousBlock))
    (fun backwardTickErr =>
       logger error "Failed to perform backwards tick" ;;
       reject backwardTickErr).

Definition deleteBlockStep : M unit :=
  oldLastBlock <- lastBlock_get ;;
  catch (deleteBlock (b_id oldLastBlock))
    (fun deleteBlockErr =>
       logger error "Failed to delete block" ;;
       reject deleteBlockErr).

(** The callback of [library.db.tx] in popLastBlock. *)
Definition popLastBlockTx : M Block :=
  oldLastBlock <- lastBlock_get ;;
  previousBlock <- loadSecondLastBlockStep (b_previousBlock oldLastBlock) ;;
  reversed <- reverseTransactions ;;
  eachSeries
    (fun transaction => undoStep transaction ;; undoUnconfirmStep transaction)
    reversed ;;
  backwardTickStep previousBlock ;;
  deleteBlockStep ;;
  ret previousBlock.

Definition popLastBlock : M Block :=
  catch (db_tx "Chain:deleteBlock" popLastBlockTx)
    (fun _ => process_exit 0).

Definition deleteLastBlock : M Block :=
  lastBlock' <- lastBlock_get ;;
  logger warn "Deleting last block" ;;
  if b_height lastBlock' =? 1 then
    reject (ErrString "Cannot delete genesis block")
  else
    newLastBlock <- catch popLastBlock
                      (fun err =>
                         logger error "Error deleting last block" ;;
                         reject err) ;;
    reversed <- reverseTransactions ;;
    catch
      (pool_call (receiveTransactions_ reversed false)
         (transactions_receiveTransactions E reversed false))
      (fun _ => logger error "Error adding transactions") ;;
    lastBlock_set newLastBlock ;;
    ret newLastBlock.

Definition recoverChain : M unit :=
  logger warn "Chain comparison failed, starting recovery" ;;
  catch
    (newLastBlock <- deleteLastBlock ;;
     logger info ("Recovery complete, new last block " ^^ b_id newLastBlock))
    (fun err => logger error "Recovery failed" ;; reject err).

End Chain.

Arguments Env : clear implicits.
Arguments State : clear implicits.

(** ** The engine's sort on short arrays

    [InsertionSort] of V8's array.js, which that engine (up to version 6.9,
    the one of Node.js 10) runs for an array of at most ten elements:
    the element at [i] moves left past every element that the comparator,
    called as [comparefn(tmp, element)], puts after it.

    [insertBackwards] takes the sorted part last element first. *)
Fixpoint insertBackwards {T} (comparefn : T -> T -> Z) (element : T)
    (sorted : list T) : list T :=
  match sorted with
  | [] => [element]
  | tmp :: rest =>
      if comparefn tmp element >? 0
      then tmp :: insertBackwards comparefn element rest
      else element :: tmp :: rest
  end.

Definition InsertionSort {T} (comparefn : T -> T -> Z) (a : list T) : list T :=
  rev (fold_left (fun sorted element => insertBackwards comparefn element sorted) a []).

(** ** A small ledger to run the operations on

    Collaborators simple enough to compute with: balances kept per public
    key, a transfer moving its amount from sender to recipient, a pool with
    an unconfirmed and a queued list, blocks and transactions kept in two
    tables. Faults can be switched on per call. *)
Module Toy.

Record ToyDB : Type := mkDB {
  rows : list Block;               (* blocks table: headers *)
  trs : list Transaction;          (* transactions table *)
  balance : list (PublicKey * Z);
  u_balance : list (PublicKey * Z);
  round : Z
}.

Record ToyPool : Type := mkPool {
  unconfirmed : list Transaction;
  queued : list Transaction
}.

Record ToyAccount : Type := mkAccount {
  a_publicKey : PublicKey;
  a_balance : Z;
  a_u_balance : Z
}.

Record Faults : Type := mkFaults {
  fault_undoUnconfirmedList : option Err;
  fault_blocks_save : option Err;
  fault_tick : option Err;
  fault_receiveTransactions : option Err;
  fault_getGenesisBlockId : option Err
}.

Definition noFaults : Faults := mkFaults None None None None None.

Fixpoint lookup (pk : PublicKey) (l : list (PublicKey * Z)) : Z :=
  match l with
  | [] => 0
  | (k, v) :: r => if String.eqb k pk then v else lookup pk r
  end.

Definition credit (pk : PublicKey) (amt : Z) (l : list (PublicKey * Z)) :=
  (pk, lookup pk l + amt) :: l.

Definition account (pk : PublicKey) (d : ToyDB) : ToyAccount :=
  mkAccount pk (lookup pk (balance d)) (lookup pk (u_balance d)).

Definition faulty {A} (f : option Err) (ok : result A) : result A :=
  match f with Some e => Fail e | None => ok end.

Definition header (b : Block) : Block :=
  mkBlock (b_id b) (b_height b) (b_previousBlock b) [].

Definition inBlock (id : BlockId) (t : Transaction) : bool :=
  match t_blockId t with
  | Some i => String.eqb i id
  | None => false
  end.

Definition fullBlock (d : ToyDB) (h : Block) : Block :=
  mkBlock (b_id h) (b_height h) (b_previousBlock h)
    (filter (inBlock (b_id h)) (trs d)).

Definition hasId (id : BlockId) (b : Block) : bool := String.eqb (b_id b) id.

Definition applyUnconfirmed (t : Transaction) (a : ToyAccount) (d : ToyDB)
  : result unit * ToyDB :=
  if a_u_balance a <? t_amount t
  then (Fail (ErrString "Account does not have enough LSK"), d)
  else (Ok tt,
        mkDB (rows d) (trs d) (balance d)
          (credit (t_senderPublicKey t) (- t_amount t) (u_balance d)) (round d)).

Definition undoUnconfirmed (t : Transaction) (d : ToyDB) : result unit * ToyDB :=
  (Ok tt,
   mkDB (rows d) (trs d) (balance d)
     (credit (t_senderPublicKey t) (t_amount t) (u_balance d)) (round d)).

Definition move (t : Transaction) (sign : Z) (d : ToyDB) : ToyDB :=
  mkDB (rows d) (trs d)
    (credit (t_recipientId t) (sign * t_amount t)
       (credit (t_senderPublicKey t) (- (sign * t_amount t)) (balance d)))
    (credit (t_recipientId t) (sign * t_amount t) (u_balance d))
    (round d).

Definition undoUnconfirmedList (f : Faults) (p : ToyPool) (d : ToyDB)
  : result unit * (ToyPool * ToyDB) :=
  match fault_undoUnconfirmedList f with
  | Some e => (Fail e, (p, d))
  | None =>
      (Ok tt,
       (mkPool [] (queued p ++ unconfirmed p),
        fold_left (fun d t => snd (undoUnconfirmed t d)) (unconfirmed p) d))
  end.

Definition keepOthers (id : TransactionId) (l : list Transaction) :=
  filter (fun t => negb (String.eqb (t_id t) id)) l.

Definition env (f : Faults) (genesis : Block) : Env ToyDB ToyPool ToyAccount :=
  {| genesisblock := genesis;
     db_getGenesisBlockId := fun id d =>
       faulty (fault_getGenesisBlockId f)
         (Ok (map b_id (filter (hasId id) (rows d))));
     db_blocks_save := fun b d =>
       match fault_blocks_save f with
       | Some e => (Fail e, d)
       | None => (Ok tt, mkDB (rows d ++ [header b]) (trs d) (balance d)
                           (u_balance d) (round d))
       end;
     db_transactions_save := fun ts d =>
       (Ok tt, mkDB (rows d) (trs d ++ ts) (balance d) (u_balance d) (round d));
     db_deleteBlock := fun id d =>
       (Ok tt,
        mkDB (filter (fun b => negb (hasId id b)) (rows d))
          (filter (fun t => negb (inBlock id t)) (trs d))
          (balance d) (u_balance d) (round d));
     db_deleteAfterBlock := fun id d => (Ok [], d);
     logic_afterSave := fun _ => Ok tt;
     accounts_setAccountAndGet := fun pk d => (Ok (account pk d), d);
     accounts_getAccount := fun pk d => Ok (account pk d);
     transactions_applyUnconfirmed := applyUnconfirmed;
     transactions_apply := fun t _ _ d => (Ok tt, move t 1 d);
     transactions_undo := fun t _ _ d => (Ok tt, move t (-1) d);
     transactions_undoUnconfirmed := undoUnconfirmed;
     transactions_undoUnconfirmedList := undoUnconfirmedList f;
     transactions_removeUnconfirmedTransaction := fun id p =>
       mkPool (keepOthers id (unconfirmed p)) (keepOthers id (queued p));
     transactions_receiveTransactions := fun ts _ p =>
       match fault_receiveTransactions f with
       | Some e => (Fail e, p)
       | None => (Ok tt, mkPool (unconfirmed p) (queued p ++ ts))
       end;
     rounds_tick := fun _ d =>
       match fault_tick f with
       | Some e => (Fail e, d)
       | None => (Ok tt, mkDB (rows d) (trs d) (balance d) (u_balance d)
                           (round d + 1))
       end;
     rounds_backwardTick := fun _ _ d =>
       (Ok tt, mkDB (rows d) (trs d) (balance d) (u_balance d) (round d - 1));
     utils_loadBlocksPart := fun oid d =>
       match oid with
       | Some id => Ok (map (fullBlock d) (filter (hasId id) (rows d)))
       | None => Ok []
       end;
     Array_sort := InsertionSort |}.

(** A chain of two blocks and a candidate third one. *)
Definition alice : PublicKey := "alice".
Definition bob : PublicKey := "bob".

Definition transfer (id : TransactionId) (blockId : BlockId)
    (from to : PublicKey) (amt : Z) : Transaction :=
  mkTransaction id TRANSFER from (Some blockId) to amt.

Definition vote (id : TransactionId) (blockId : BlockId) (from : PublicKey)
  : Transaction :=
  mkTransaction id VOTE from (Some blockId) from 0.

Definition genesis : Block :=
  mkBlock "G" 1 None [transfer "g1" "G" alice bob 10].

Definition tip : Block :=
  mkBlock "X" 2 (Some "G") [transfer "x1" "X" bob alice 3].

Definition next : Block :=
  mkBlock "N" 3 (Some "X")
    [transfer "n1" "N" alice bob 25; transfer "n2" "N" bob alice 5].

Definition storage : ToyDB :=
  mkDB [header genesis; header tip]
    (b_transactions genesis ++ b_transactions tip)
    [(alice, 93); (bob, 7)] [(alice, 93); (bob, 7)] 2.

Definition start (p : ToyPool) : State ToyDB ToyPool :=
  mkState tip false storage p [].

Definition emptyPool : ToyPool := mkPool [] [].

(** A pool with one pending transfer of 4 from alice, and the storage that
    goes with it: alice's unconfirmed balance is 4 below her confirmed
    one. *)
Definition pendingPool : ToyPool :=
  mkPool [mkTransaction "u1" TRANSFER alice None bob 4] [].

Definition pendingStorage : ToyDB :=
  mkDB [header genesis; header tip]
    (b_transactions genesis ++ b_transactions tip)
    [(alice, 93); (bob, 7)] [(alice, 89); (bob, 7)] 2.

Definition pending : State ToyDB ToyPool :=
  mkState tip false pendingStorage pendingPool [].

(** The balances as a view: a public key and [true] for the confirmed,
    [false] for the unconfirmed balance. *)
Definition balances (d : ToyDB) (k : PublicKey * bool) : Z :=
  if snd k then lookup (fst k) (balance d) else lookup (fst k) (u_balance d).

Definition at_ (pk pk' : PublicKey) (amt : Z) : Z :=
  if String.eqb pk pk' then amt else 0.

Definition unconfirmedDelta (t : Transaction) (k : PublicKey * bool) : Z :=
  if snd k then 0 else at_ (t_senderPublicKey t) (fst k) (- t_amount t).

Definition confirmedDelta (t : Transaction) (k : PublicKey * bool) : Z :=
  if snd k
  then at_ (t_recipientId t) (fst k) (t_amount t)
       + at_ (t_senderPublicKey t) (fst k) (- t_amount t)
  else at_ (t_recipientId t) (fst k) (t_amount t).

(** The block [next] as it is received: its transactions do not carry the
    block id yet. *)
Definition received : Block :=
  mkBlock "N" 3 (Some "X")
    [mkTransaction "n1" TRANSFER alice None bob 25;
     mkTransaction "n2" TRANSFER bob None alice 5].

(** The state after [next] has been applied on top of [tip]. *)
Definition applied : State ToyDB ToyPool :=
  Eval vm_compute in
    snd (applyBlock (env noFaults genesis) next true (start emptyPool)).

(** A genesis block whose transactions are, in this order, a transfer, a
    vote, a transfer and a vote. *)
Definition rawGenesis : Block :=
  mkBlock "G" 1 None
    [transfer "a" "G" alice bob 0; vote "b" "G" alice;
     transfer "c" "G" bob alice 0; vote "d" "G" bob].

(** A node that has stored nothing yet. *)
Definition fresh : State ToyDB ToyPool :=
  mkState genesis false (mkDB [] [] [] [] 0) emptyPool [].

(** Collaborators whose round tick fails. *)
Definition tickFailsEnv : Env ToyDB ToyPool ToyAccount :=
  env (mkFaults None None (Some (ErrString "round tick failed")) None None) genesis.

(** Collaborators whose round tick ends the snapshot. *)
Definition snapshotEnv : Env ToyDB ToyPool ToyAccount :=
  env (mkFaults None None (Some (ErrObject "Snapshot finished" "round 1")) None None)
    genesis.

(** A block whose transfer the sender cannot pay. *)
Definition overdraft : Block :=
  mkBlock "O" 3 (Some "X") [transfer "o1" "O" bob alice 100].

(** A block that does not extend [tip]: other parent, other height. *)
Definition stray : Block :=
  mkBlock "S" 7 (Some "Y") [transfer "s1" "S" alice bob 1].

(** Collaborators whose pool refuses every transaction handed back. *)
Definition fullPoolEnv : Env ToyDB ToyPool ToyAccount :=
  env (mkFaults None None None (Some (ErrString "pool is full")) None) genesis.

End Toy.


Notation "x <- m ;; k" := (bind m (fun x => k))
  (at level 61, m at next level, right associativity).
Notation "m ;; k" := (bind m (fun _ => k))
  (at level 61, right associativity).

(** * Notions for the statements

    The relations, predicates and selections of events the lemmas and the
    claims below are stated with. *)

(** ** What a step leaves alone

    A relation between the state before and after a step that holds for no
    step at all, composes, and is kept by writing to storage and to the pool
    and by the events in [okE], is kept by every operation built from such
    steps. [regFree] and [actFree] say whether writing the register and the
    flag keeps it too. *)
Class Frame {DB Pool : Type} (R : State DB Pool -> State DB Pool -> Prop)
    (okE : Event -> Prop) (regFree actFree : Prop) : Prop := {
  fr_refl : forall s, R s s;
  fr_trans : forall s1 s2 s3, R s1 s2 -> R s2 s3 -> R s1 s3;
  fr_record : forall e s, okE e -> R s (record e s);
  fr_db : forall d s, R s (with_db d s);
  fr_pool : forall p s, R s (with_pool p s);
  fr_reg : regFree -> forall b s, R s (with_lastBlock b s);
  fr_act : actFree -> forall v s, R s (with_isActive v s);
  fr_Log : forall l m, okE (Log l m);
  fr_Call : forall c, okE (Call c);
  fr_DbTx : forall n, okE (DbTx n);
  fr_DbCommit : forall n, okE (DbCommit n);
  fr_DbRollback : forall n, okE (DbRollback n)
}.

(** [m] keeps the relation, however it ends. *)
Definition respects {DB Pool : Type}
    {R : State DB Pool -> State DB Pool -> Prop} {okE : Event -> Prop}
    {regFree actFree : Prop} {FR : Frame R okE regFree actFree}
    {A : Type} (m : M (DB:=DB) (Pool:=Pool) A) : Prop :=
  forall s, R s (snd (m s)).

(** The relations used below: the register is as before, the flag is as
    before, the trace has grown by events in [P]. *)
Definition keepsRegister {DB Pool} (s s' : State DB Pool) : Prop :=
  lastBlock s' = lastBlock s.
Definition keepsActive {DB Pool} (s s' : State DB Pool) : Prop :=
  isActive s' = isActive s.
Definition extends {DB Pool} (P : Event -> Prop) (s s' : State DB Pool) : Prop :=
  exists evs, trace s' = trace s ++ evs /\ Forall P evs.

Definition anyEvent (_ : Event) : Prop := True.

(** Neither a write of the register nor a [newBlock] message. *)
Definition quiet (e : Event) : Prop :=
  match e with
  | LastBlockSet _ => False
  | BusMessage topic _ => topic <> "newBlock"
  | _ => True
  end.

(** An operation that never terminates the process. *)
Definition neverExits {DB Pool A} (m : M (DB:=DB) (Pool:=Pool) A) : Prop :=
  forall s c, fst (m s) <> Exited c.

(** The first thing an operation does is to open the persistence
    transaction [n]. *)
Definition opens {DB Pool A} (n : string) (m : M (DB:=DB) (Pool:=Pool) A) : Prop :=
  forall s, exists evs, trace (snd (m s)) = trace s ++ DbTx n :: evs.

(** ** What a successful run adds up to

    A relation indexed by a list that holds with the empty list for no step
    and composes by appending lists: the events of interest a run added to
    the trace, or the changes it made to a view of storage. [yields L m]
    says that every run of [m] that calls back without error is related to
    its start by [L]. *)
Class Graded {DB Pool X : Type}
    (R : list X -> State DB Pool -> State DB Pool -> Prop) : Prop := {
  gr_nil : forall s, R [] s s;
  gr_app : forall l1 l2 s1 s2 s3, R l1 s1 s2 -> R l2 s2 s3 -> R (l1 ++ l2) s1 s3
}.

Definition yields {DB Pool X : Type}
    {R : list X -> State DB Pool -> State DB Pool -> Prop} {GR : Graded R}
    {A : Type} (L : list X) (m : M (DB:=DB) (Pool:=Pool) A) : Prop :=
  forall s a s', m s = (Done a, s') -> R L s s'.

(** A handler that never turns a failure into a success. *)
Definition rejects {DB Pool A} (h : Err -> M (DB:=DB) (Pool:=Pool) A) : Prop :=
  forall e s a s', h e s <> (Done a, s').

(** The events of interest, chosen by [sel], that a run added to the
    trace. *)
Definition selects {DB Pool} (sel : Event -> bool) (L : list Event)
    (s s' : State DB Pool) : Prop :=
  exists evs, trace s' = trace s ++ evs /\ filter sel evs = L.

(** The sum of a list of changes, at one key. *)
Definition total {Key} (L : list (Key -> Z)) (k : Key) : Z :=
  fold_right (fun delta acc => delta k + acc) 0 L.

Definition sumOver {Key} (f : Transaction -> Key -> Z) (l : list Transaction)
    (k : Key) : Z :=
  fold_right (fun t acc => f t k + acc) 0 l.

(** The change that takes [f] away again. *)
Definition neg {Key} (f : Key -> Z) (k : Key) : Z := - f k.

(** Storage seen through [view] has changed by the sum of [L]. *)
Definition shifted {DB Pool Key} (view : DB -> Key -> Z) (L : list (Key -> Z))
    (s s' : State DB Pool) : Prop :=
  forall k, view (db s') k = view (db s) k + total L k.

(** ** applyBlock *)

(** What the persistence transaction of applyBlock runs before its
    save-block step. *)
Definition applySteps {DB Pool Account} (E : Env DB Pool Account) (block : Block)
  : M unit :=
  isActive_set true ;; applyUnconfirmedStep E block ;; applyConfirmedStep E block.

(** Did the run get as far as the save-block step? *)
Definition reachesSaveBlockStep {DB Pool Account} (E : Env DB Pool Account)
    (block : Block) (s : State DB Pool) : bool :=
  match undoUnconfirmedListStep E s with
  | (Done _, s0) =>
      match applySteps E block (record (DbTx "Chain:applyBlock") s0) with
      | (Done _, _) => true
      | _ => false
      end
  | _ => false
  end.

(** Writes of the register, [newBlock] messages and commits. *)
Definition milestone (e : Event) : bool :=
  match e with
  | LastBlockSet _ => true
  | DbCommit _ => true
  | BusMessage topic _ => String.eqb topic "newBlock"
  | _ => false
  end.

(** Writes of the Is-Active flag. *)
Definition flagWrite (e : Event) : bool :=
  match e with
  | IsActiveSet _ => true
  | _ => false
  end.

(** Any event but a write of the flag. *)
Definition unflagged (e : Event) : Prop :=
  match e with
  | IsActiveSet _ => False
  | _ => True
  end.

(** The block object as saveBlockStep leaves it. *)
Definition savedBlock (block : Block) (saveBlockFlag : bool) : Block :=
  if saveBlockFlag then assignBlockId block else block.

(** A transaction object once saveBlock has written the block id on it. *)
Definition withBlockId (id : BlockId) (t : Transaction) : Transaction :=
  mkTransaction (t_id t) (t_type t) (t_senderPublicKey t) (Some id)
    (t_recipientId t) (t_amount t).

(** Two states that differ at most in the register. *)
Definition sameButRegister {DB Pool} (s s' : State DB Pool) : Prop :=
  isActive s' = isActive s /\ db s' = db s /\ pool s' = pool s
  /\ trace s' = trace s.

(** An operation that runs the same way whatever the register holds: same
    outcome, and final states that are equal or differ in the register
    alone, which the operation then has not written. *)
Definition oblivious {DB Pool A} (m : M (DB:=DB) (Pool:=Pool) A) : Prop :=
  forall s T,
    fst (m (with_lastBlock T s)) = fst (m s) /\
    (snd (m (with_lastBlock T s)) = snd (m s) \/
     snd (m (with_lastBlock T s)) = with_lastBlock T (snd (m s))).

(** ** deleteLastBlock *)

(** What the callback of [receiveTransactions] leaves behind: the pool's
    answer [r] is only logged, the register moves to [newLastBlock]. *)
Definition reinserted {DB Pool} (newLastBlock : Block) (r : result unit)
    (pl : Pool) (s1 : State DB Pool) : State DB Pool :=
  let old := lastBlock s1 in
  let ts := rev (b_transactions old) in
  let s2 :=
    record (Call (receiveTransactions_ ts false))
      (with_pool pl
         (with_lastBlock (mkBlock (b_id old) (b_height old) (b_previousBlock old) ts)
            s1)) in
  let s3 :=
    match r with
    | Ok _ => s2
    | Fail _ => record (Log error "Error adding transactions") s2
    end in
  record (LastBlockSet newLastBlock) (with_lastBlock newLastBlock s3).

(** The calls that undo a transaction, the commits, the calls that hand
    transactions to the pool and the writes of the register. *)
Definition reinsertionEvent (e : Event) : bool :=
  match e with
  | Call (undo_ _) => true
  | Call (undoUnconfirmed_ _) => true
  | Call (receiveTransactions_ _ _) => true
  | DbCommit _ => true
  | LastBlockSet _ => true
  | _ => false
  end.

(** The two calls that undo one transaction. *)
Definition undoCalls (t : Transaction) : list Event :=
  [Call (undo_ t); Call (undoUnconfirmed_ t)].

(** A block object after [transactions.reverse()]. *)
Definition reversedBlock (b : Block) : Block :=
  mkBlock (b_id b) (b_height b) (b_previousBlock b) (rev (b_transactions b)).

(** What is left of popLastBlock's transaction once the parent is loaded
    and the transactions are reversed. *)
Definition undoAll {DB Pool Account} (E : Env DB Pool Account)
    (reversed : list Transaction) (previousBlock : Block)
  : M (DB:=DB) (Pool:=Pool) Block :=
  eachSeries
    (fun transaction => undoStep E transaction ;; undoUnconfirmStep E transaction)
    reversed ;;
  backwardTickStep E previousBlock ;;
  deleteBlockStep E ;;
  ret previousBlock.

(** ** saveGenesisBlock *)

(** Opening and closing a persistence transaction, and writing a block row
    or transaction rows. *)
Definition persistEvent (e : Event) : bool :=
  match e with
  | DbTx _ | DbCommit _ | DbRollback _ => true
  | Call (blocks_save_ _) | Call (transactions_save_ _) => true
  | _ => false
  end.

(** The writes of saveBlock's batch. *)
Definition saveBlockCalls (block : Block) : list Event :=
  Call (blocks_save_ block) ::
  (if 0 <? Z.of_nat (length (b_transactions block))
   then [Call (transactions_save_ (b_transactions block))]
   else []).

(** An operation whose outcome and whose effect on storage depend on
    storage alone. *)
Definition dbOnly {DB Pool A} (m : M (DB:=DB) (Pool:=Pool) A) : Prop :=
  forall s s',
    db s = db s' ->
    fst (m s) = fst (m s') /\ db (snd (m s)) = db (snd (m s')).

(** A block with the configured genesis id is in storage: the lookup finds
    a row whose id is truthy. *)
Definition genesisFoundIn {DB Pool Account} (E : Env DB Pool Account) (d : DB) : Prop :=
  exists rows,
    db_getGenesisBlockId E (b_id (genesisblock E)) d = Ok rows /\
    genesisRowFound rows = true.

(** ** applyGenesisBlock *)

(** The ids of the transactions applied (confirmed) against the account
    store, in the order of the calls. *)
Definition appliedOrder (evs : list Event) : list TransactionId :=
  flat_map (fun e => match e with Call (apply_ t) => [t_id t] | _ => [] end) evs.

(** * Notions for the further properties

    What the properties of the remaining operations (saveBlock and its
    hooks, the steps of applyBlock, applyGenesisBlock, popLastBlock,
    recoverChain) are stated with. *)

(** ** What an operation stays within

    As [Frame], with nothing granted in advance: which events a relation
    allows, and whether it allows writing the pool, the register and the
    flag, is said step by step. *)
Class Footprint {DB Pool : Type} (R : State DB Pool -> State DB Pool -> Prop)
    (okE : Event -> Prop) (poolFree regFree actFree : Prop) : Prop := {
  fp_refl : forall s, R s s;
  fp_trans : forall s1 s2 s3, R s1 s2 -> R s2 s3 -> R s1 s3;
  fp_record : forall e s, okE e -> R s (record e s);
  fp_db : forall d s, R s (with_db d s);
  fp_pool : poolFree -> forall p s, R s (with_pool p s);
  fp_reg : regFree -> forall b s, R s (with_lastBlock b s);
  fp_act : actFree -> forall v s, R s (with_isActive v s)
}.

Definition within {DB Pool : Type}
    {R : State DB Pool -> State DB Pool -> Prop} {okE : Event -> Prop}
    {poolFree regFree actFree : Prop}
    {FP : Footprint R okE poolFree regFree actFree}
    {A : Type} (m : M (DB:=DB) (Pool:=Pool) A) : Prop :=
  forall s, R s (snd (m s)).

(** The pool is as before. *)
Definition keepsPool {DB Pool} (s s' : State DB Pool) : Prop :=
  pool s' = pool s.

(** The block in the register is the same object as before: its
    transactions are in the order they were in, or reversed. *)
Definition sameObject {DB Pool} (s s' : State DB Pool) : Prop :=
  lastBlock s' = lastBlock s \/ lastBlock s' = reversedBlock (lastBlock s).

(** ** The errors an operation calls back with *)

Definition failsOnly {DB Pool A} (P : Err -> Prop)
    (m : M (DB:=DB) (Pool:=Pool) A) : Prop :=
  forall s e, fst (m s) = Failed e -> P e.

(** An error that is a plain string. *)
Definition isMessage (e : Err) : Prop := exists msg, e = ErrString msg.

(** An error that [rounds.tick] returns for [block] on some storage. *)
Definition tickError {DB Pool Account} (E : Env DB Pool Account) (block : Block)
    (e : Err) : Prop :=
  exists d, fst (rounds_tick E block d) = Fail e.

(** ** applyBlock *)

(** The steps of a block application that touch storage, the pool or the
    flag. *)
Definition pipelineEvent (e : Event) : bool :=
  match e with
  | IsActiveSet _ | DbTx _ | DbCommit _ | DbRollback _ => true
  | Call undoUnconfirmedList_ => true
  | Call (applyUnconfirmed_ _) | Call (apply_ _) => true
  | Call (blocks_save_ _) | Call (transactions_save_ _) => true
  | Call (tick_ _) => true
  | Call (removeUnconfirmedTransaction_ _) => true
  | _ => false
  end.

(** Those steps for [block], in the order applyBlock is written. *)
Definition pipeline (block : Block) (saveBlockFlag : bool) : list Event :=
  [Call undoUnconfirmedList_; DbTx "Chain:applyBlock"; IsActiveSet true]
  ++ map (fun t => Call (applyUnconfirmed_ t)) (b_transactions block)
  ++ map (fun t => Call (apply_ t)) (b_transactions block)
  ++ (if saveBlockFlag then saveBlockCalls (assignBlockId block) else [])
  ++ [Call (tick_ (savedBlock block saveBlockFlag)); DbCommit "Chain:applyBlock"]
  ++ map (fun t => Call (removeUnconfirmedTransaction_ (t_id t)))
       (b_transactions block)
  ++ [IsActiveSet false].

(** The pool after [removeUnconfirmedTransaction] has been called for each
    of [ts], in order. *)
Definition removeAll {DB Pool Account} (E : Env DB Pool Account)
    (ts : list Transaction) (p : Pool) : Pool :=
  fold_left
    (fun p t => transactions_removeUnconfirmedTransaction E (t_id t) p) ts p.

(** Nothing that writes or announces block or transaction rows. *)
Definition savesNothing (e : Event) : Prop :=
  match e with
  | Call (blocks_save_ _) | Call (transactions_save_ _) | Call (afterSave_ _) => False
  | BusMessage topic _ => topic <> "transactionsSaved"
  | _ => True
  end.

(** The calls of one transaction in the apply-unconfirmed step and in the
    apply-confirmed step. *)
Definition unconfirmedCalls (t : Transaction) : list Event :=
  [Call (setAccountAndGet_ (t_senderPublicKey t)); Call (applyUnconfirmed_ t)].

Definition confirmedCalls (t : Transaction) : list Event :=
  [Call (getAccount_ (t_senderPublicKey t)); Call (apply_ t)].

Definition isCall (e : Event) : bool :=
  match e with Call _ => true | _ => false end.

(** ** saveBlock *)

(** Every transaction handed to storage, to the bus or to a hook belongs to
    the block [id]. *)
Definition carriesBlockId (id : BlockId) (e : Event) : Prop :=
  match e with
  | Call (blocks_save_ b) =>
      b_id b = id /\ Forall (fun t => t_blockId t = Some id) (b_transactions b)
  | Call (transactions_save_ ts) => Forall (fun t => t_blockId t = Some id) ts
  | Call (afterSave_ t) => t_blockId t = Some id
  | BusMessage _ (PTransactions ts) => Forall (fun t => t_blockId t = Some id) ts
  | _ => True
  end.

(** ** applyGenesisBlock *)

(** Calls of collaborators, log lines, writes of the register and the end
    of the process: no persistence transaction, no bus message, no write
    of the flag. *)
Definition unguarded (e : Event) : Prop :=
  match e with
  | Log _ _ | Call _ | LastBlockSet _ | ProcessExit _ => True
  | _ => False
  end.

(** A call that sets up a sender or applies a transaction, or a log
    line. *)
Definition appliesOnly (e : Event) : Prop :=
  match e with
  | Call (setAccountAndGet_ _) | Call (applyUnconfirmed_ _) | Call (apply_ _) => True
  | Log _ _ => True
  | _ => False
  end.

(** The genesis block as applyGenesisBlock leaves it: its transactions
    sorted by the engine. *)
Definition sortedGenesis {DB Pool Account} (E : Env DB Pool Account)
    (block : Block) : Block :=
  mkBlock (b_id block) (b_height block) (b_previousBlock block)
    (Array_sort E genesisComparator (b_transactions block)).

(** The calls that apply one genesis transaction. *)
Definition genesisCalls (t : Transaction) : list Event :=
  [Call (setAccountAndGet_ (t_senderPublicKey t));
   Call (applyUnconfirmed_ t); Call (apply_ t)].

(** ** deleteLastBlock *)

(** No bus message, no write of the flag, no signal to the process. *)
Definition silent (e : Event) : Prop :=
  match e with
  | BusMessage _ _ | IsActiveSet _ | ProcessEmit _ => False
  | _ => True
  end.

(** ** More collaborators for the small ledger

    The collaborators [E] with one of them replaced, and ledgers in which
    one call fails. *)
Module Faulty.
Definition withAfterSave {DB Pool Account : Type}
    (f : Transaction -> result unit)
    (E : Env DB Pool Account) : Env DB Pool Account :=
  {| genesisblock := genesisblock E;
     db_getGenesisBlockId := db_getGenesisBlockId E;
     db_blocks_save := db_blocks_save E;
     db_transactions_save := db_transactions_save E;
     db_deleteBlock := db_deleteBlock E;
     db_deleteAfterBlock := db_deleteAfterBlock E;
     logic_afterSave := f;
     accounts_setAccountAndGet := accounts_setAccountAndGet E;
     accounts_getAccount := accounts_getAccount E;
     transactions_applyUnconfirmed := transactions_applyUnconfirmed E;
     transactions_apply := transactions_apply E;
     transactions_undo := transactions_undo E;
     transactions_undoUnconfirmed := transactions_undoUnconfirmed E;
     transactions_undoUnconfirmedList := transactions_undoUnconfirmedList E;
     transactions_removeUnconfirmedTransaction := transactions_removeUnconfirmedTransaction E;
     transactions_receiveTransactions := transactions_receiveTransactions E;
     rounds_tick := rounds_tick E;
     rounds_backwardTick := rounds_backwardTick E;
     utils_loadBlocksPart := utils_loadBlocksPart E;
     Array_sort := Array_sort E |}.

Definition withGetAccount {DB Pool Account : Type}
    (f : PublicKey -> DB -> result Account)
    (E : Env DB Pool Account) : Env DB Pool Account :=
  {| genesisblock := genesisblock E;
     db_getGenesisBlockId := db_getGenesisBlockId E;
     db_blocks_save := db_blocks_save E;
     db_transactions_save := db_transactions_save E;
     db_deleteBlock := db_deleteBlock E;
     db_deleteAfterBlock := db_deleteAfterBlock E;
     logic_afterSave := logic_afterSave E;
     accounts_setAccountAndGet := accounts_setAccountAndGet E;
     accounts_getAccount := f;
     transactions_applyUnconfirmed := transactions_applyUnconfirmed E;
     transactions_apply := transactions_apply E;
     transactions_undo := transactions_undo E;
     transactions_undoUnconfirmed := transactions_undoUnconfirmed E;
     transactions_undoUnconfirmedList := transactions_undoUnconfirmedList E;
     transactions_removeUnconfirmedTransaction := transactions_removeUnconfirmedTransaction E;
     transactions_receiveTransactions := transactions_receiveTransactions E;
     rounds_tick := rounds_tick E;
     rounds_backwardTick := rounds_backwardTick E;
     utils_loadBlocksPart := utils_loadBlocksPart E;
     Array_sort := Array_sort E |}.

Definition withLoadBlocksPart {DB Pool Account : Type}
    (f : option BlockId -> DB -> result (list Block))
    (E : Env DB Pool Account) : Env DB Pool Account :=
  {| genesisblock := genesisblock E;
     db_getGenesisBlockId := db_getGenesisBlockId E;
     db_blocks_save := db_blocks_save E;
     db_transactions_save := db_transactions_save E;
     db_deleteBlock := db_deleteBlock E;
     db_deleteAfterBlock := db_deleteAfterBlock E;
     logic_afterSave := logic_afterSave E;
     accounts_setAccountAndGet := accounts_setAccountAndGet E;
     accounts_getAccount := accounts_getAccount E;
     transactions_applyUnconfirmed := transactions_applyUnconfirmed E;
     transactions_apply := transactions_apply E;
     transactions_undo := transactions_undo E;
     transactions_undoUnconfirmed := transactions_undoUnconfirmed E;
     transactions_undoUnconfirmedList := transactions_undoUnconfirmedList E;
     transactions_removeUnconfirmedTransaction := transactions_removeUnconfirmedTransaction E;
     transactions_receiveTransactions := transactions_receiveTransactions E;
     rounds_tick := rounds_tick E;
     rounds_backwardTick := rounds_backwardTick E;
     utils_loadBlocksPart := f;
     Array_sort := Array_sort E |}.

Definition withApply {DB Pool Account : Type}
    (f : Transaction -> Block -> Account -> DB -> result unit * DB)
    (E : Env DB Pool Account) : Env DB Pool Account :=
  {| genesisblock := genesisblock E;
     db_getGenesisBlockId := db_getGenesisBlockId E;
     db_blocks_save := db_blocks_save E;
     db_transactions_save := db_transactions_save E;
     db_deleteBlock := db_deleteBlock E;
     db_deleteAfterBlock := db_deleteAfterBlock E;
     logic_afterSave := logic_afterSave E;
     accounts_setAccountAndGet := accounts_setAccountAndGet E;
     accounts_getAccount := accounts_getAccount E;
     transactions_applyUnconfirmed := transactions_applyUnconfirmed E;
     transactions_apply := f;
     transactions_undo := transactions_undo E;
     transactions_undoUnconfirmed := transactions_undoUnconfirmed E;
     transactions_undoUnconfirmedList := transactions_undoUnconfirmedList E;
     transactions_removeUnconfirmedTransaction := transactions_removeUnconfirmedTransaction E;
     transactions_receiveTransactions := transactions_receiveTransactions E;
     rounds_tick := rounds_tick E;
     rounds_backwardTick := rounds_backwardTick E;
     utils_loadBlocksPart := utils_loadBlocksPart E;
     Array_sort := Array_sort E |}.

Definition withUndo {DB Pool Account : Type}
    (f : Transaction -> Block -> Account -> DB -> result unit * DB)
    (E : Env DB Pool Account) : Env DB Pool Account :=
  {| genesisblock := genesisblock E;
     db_getGenesisBlockId := db_getGenesisBlockId E;
     db_blocks_save := db_blocks_save E;
     db_transactions_save := db_transactions_save E;
     db_deleteBlock := db_deleteBlock E;
     db_deleteAfterBlock := db_deleteAfterBlock E;
     logic_afterSave := logic_afterSave E;
     accounts_setAccountAndGet := accounts_setAccountAndGet E;
     accounts_getAccount := accounts_getAccount E;
     transactions_applyUnconfirmed := transactions_applyUnconfirmed E;
     transactions_apply := transactions_apply E;
     transactions_undo := f;
     transactions_undoUnconfirmed := transactions_undoUnconfirmed E;
     transactions_undoUnconfirmedList := transactions_undoUnconfirmedList E;
     transactions_removeUnconfirmedTransaction := transactions_removeUnconfirmedTransaction E;
     transactions_receiveTransactions := transactions_receiveTransactions E;
     rounds_tick := rounds_tick E;
     rounds_backwardTick := rounds_backwardTick E;
     utils_loadBlocksPart := utils_loadBlocksPart E;
     Array_sort := Array_sort E |}.

Definition withTransactionsSave {DB Pool Account : Type}
    (f : list Transaction -> DB -> result unit * DB)
    (E : Env DB Pool Account) : Env DB Pool Account :=
  {| genesisblock := genesisblock E;
     db_getGenesisBlockId := db_getGenesisBlockId E;
     db_blocks_save := db_blocks_save E;
     db_transactions_save := f;
     db_deleteBlock := db_deleteBlock E;
     db_deleteAfterBlock := db_deleteAfterBlock E;
     logic_afterSave := logic_afterSave E;
     accounts_setAccountAndGet := accounts_setAccountAndGet E;
     accounts_getAccount := accounts_getAccount E;
     transactions_applyUnconfirmed := transactions_applyUnconfirmed E;
     transactions_apply := transactions_apply E;
     transactions_undo := transactions_undo E;
     transactions_undoUnconfirmed := transactions_undoUnconfirmed E;
     transactions_undoUnconfirmedList := transactions_undoUnconfirmedList E;
     transactions_removeUnconfirmedTransaction := transactions_removeUnconfirmedTransaction E;
     transactions_receiveTransactions := transactions_receiveTransactions E;
     rounds_tick := rounds_tick E;
     rounds_backwardTick := rounds_backwardTick E;
     utils_loadBlocksPart := utils_loadBlocksPart E;
     Array_sort := Array_sort E |}.

Definition ledger : Env Toy.ToyDB Toy.ToyPool Toy.ToyAccount :=
  Toy.env Toy.noFaults Toy.genesis.

(** An account store that no longer finds bob. *)
Definition lostSenderEnv : Env Toy.ToyDB Toy.ToyPool Toy.ToyAccount :=
  withGetAccount
    (fun pk d =>
       if String.eqb pk Toy.bob
       then Fail (ErrString "Account not found")
       else Ok (Toy.account pk d))
    ledger.

(** An after-save hook that fails for the transaction [id]. *)
Definition failingHookEnv (id : TransactionId) (genesis : Block)
  : Env Toy.ToyDB Toy.ToyPool Toy.ToyAccount :=
  withAfterSave
    (fun t =>
       if String.eqb (t_id t) id
       then Fail (ErrString "hook failed")
       else Ok tt)
    (Toy.env Toy.noFaults genesis).

(** A storage that returns no block, whatever id it is asked for. *)
Definition noParentEnv : Env Toy.ToyDB Toy.ToyPool Toy.ToyAccount :=
  withLoadBlocksPart (fun _ _ => Ok []) ledger.

(** A confirmed transfer that cannot be undone. *)
Definition stuckUndoEnv : Env Toy.ToyDB Toy.ToyPool Toy.ToyAccount :=
  withUndo (fun t _ _ d => (Fail (ErrString "cannot undo"), Toy.move t (-1) d))
    ledger.

(** A genesis transaction that cannot be applied. *)
Definition stuckApplyEnv : Env Toy.ToyDB Toy.ToyPool Toy.ToyAccount :=
  withApply
    (fun t _ _ d =>
       if String.eqb (t_id t) "c"
       then (Fail (ErrString "cannot apply"), d)
       else (Ok tt, Toy.move t 1 d))
    (Toy.env Toy.noFaults Toy.rawGenesis).

End Faulty.

(** * The network module

    A shallow embedding of class [Network] (modules/network/network.js):
    the conversions between the peers of the P2P library and the peers of
    storage, the node information handed to the P2P library, the handler
    of an inbound request, [bootstrap] and [cleanup].

    [async] functions are embedded as computations that resolve or reject
    and record, in order, what they do to the channel, the logger, storage,
    the P2P library, a request and the process. *)
Module Network.

(** ** Values and objects *)

(** The values the module looks into. Numbers are the integers that ports,
    heights and states are. *)
#[warnings="-register-all"]
Inductive Value : Type :=
| VUndefined
| VNull
| VBool (b : bool)
| VNumber (n : Z)
| VString (s : string)
| VObject (props : list (string * Value))
| VArray (items : list Value).

(** An object: its own enumerable properties, in insertion order. (The
    engine lists keys that are array indices first; the keys here are
    names.) *)
Definition Obj : Type := list (string * Value).

(** [v ? _ : _], [!v], [v && _], [v || _] *)
Definition truthy (v : Value) : bool :=
  match v with
  | VUndefined | VNull => false
  | VBool b => b
  | VNumber n => negb (n =? 0)
  | VString s => negb (String.eqb s "")
  | VObject _ | VArray _ => true
  end.

(** [v === w] for two values that come from two different answers: objects
    and arrays are then never the same object. *)
Definition strictEq (v w : Value) : bool :=
  match v, w with
  | VUndefined, VUndefined => true
  | VNull, VNull => true
  | VBool a, VBool b => Bool.eqb a b
  | VNumber a, VNumber b => a =? b
  | VString a, VString b => String.eqb a b
  | _, _ => false
  end.

(** [o.k] *)
Fixpoint get (k : string) (o : Obj) : Value :=
  match o with
  | [] => VUndefined
  | (k', v) :: r => if String.eqb k' k then v else get k r
  end.

(** [k in o], for own properties *)
Definition has (k : string) (o : Obj) : bool :=
  existsb (fun kv => String.eqb (fst kv) k) o.

(** What [k: v] in an object literal does to the object built so far: a new
    key goes last, a key that is there keeps its place and gets the value. *)
Fixpoint set (k : string) (v : Value) (o : Obj) : Obj :=
  match o with
  | [] => [(k, v)]
  | (k', v') :: r =>
      if String.eqb k' k then (k', v) :: r else (k', v') :: set k v r
  end.

(** What [...o] in an object literal does to the object [acc] built so
    far. *)
Definition spread (o : Obj) (acc : Obj) : Obj :=
  fold_left (fun acc kv => set (fst kv) (snd kv) acc) o acc.

(** [rest] of [const { k, ...rest } = o] *)
Definition without (k : string) (o : Obj) : Obj :=
  filter (fun kv => negb (String.eqb (fst kv) k)) o.

(** An object has each of its keys once. *)
Definition wellFormed (o : Obj) : Prop := NoDup (map fst o).

(** [new Error(message)], as far as the module looks into it. *)
Definition Error (message : string) : Value :=
  VObject [("message", VString message)].

(** ** Node information and peers *)

(** [sanitizeNodeInfo] of bootstrap:
    [{ ...nodeInfo, state: 2, nonce: moduleNonce, wsPort: this.options.wsPort }] *)
Definition sanitizeNodeInfo (wsPort : Value) (moduleNonce : string)
    (nodeInfo : Obj) : Obj :=
  set "wsPort" wsPort
    (set "nonce" (VString moduleNonce)
       (set "state" (VNumber 2) (spread nodeInfo []))).

(** [peer => ({ ipAddress: peer.ip, wsPort: peer.wsPort })], for the
    blacklisted and for the seed peers *)
Definition listedPeer (peer : Obj) : Obj :=
  [("ipAddress", get "ip" peer); ("wsPort", get "wsPort" peer)].

(** The callback of [triedPeers.map] in bootstrap: a peer of storage made a
    peer of the P2P library. *)
Definition triedPeer (peer : Obj) : Obj :=
  let ip := get "ip" peer in
  let peerWithoutIp := without "ip" peer in
  spread peerWithoutIp [("ipAddress", ip)].

(** The callback of [connectedPeers.map] in cleanup: a peer of the P2P
    library made a peer of storage. *)
Definition peerToSave (peer : Obj) : Obj :=
  let ipAddress := get "ipAddress" peer in
  let peerWithoutIp := without "ipAddress" peer in
  set "protocolVersion"
    (if truthy (get "protocolVersion" peerWithoutIp)
     then get "protocolVersion" peerWithoutIp else VString "")
    (set "state"
       (if truthy (get "state" peerWithoutIp)
        then get "state" peerWithoutIp else VNumber 2)
       (spread peerWithoutIp [("ip", ipAddress)])).

(** ** Procedures *)

(** [hasNamespaceReg.test(procedure)], with [hasNamespaceReg = /:/] *)
Fixpoint hasNamespace (procedure : string) : bool :=
  match procedure with
  | EmptyString => false
  | String c rest => if String.eqb (String c EmptyString) ":" then true else hasNamespace rest
  end.

Definition sanitizedProcedure (procedure : string) : string :=
  if hasNamespace procedure then procedure else "chain:" ^^ procedure.

(** ** Effects *)

Inductive Level : Type := lTrace | lDebug | lInfo | lError | lFatal.

(** The events of the P2P library the module binds a handler to, in the
    order bootstrap binds them. *)
Inductive P2PEvent : Type :=
| EVENT_CLOSE_OUTBOUND
| EVENT_CONNECT_OUTBOUND
| EVENT_DISCOVERED_PEER
| EVENT_NEW_INBOUND_PEER
| EVENT_FAILED_TO_FETCH_PEER_INFO
| EVENT_FAILED_TO_PUSH_NODE_INFO
| EVENT_OUTBOUND_SOCKET_ERROR
| EVENT_INBOUND_SOCKET_ERROR
| EVENT_UPDATED_PEER_INFO
| EVENT_FAILED_PEER_INFO_UPDATE
| EVENT_REQUEST_RECEIVED
| EVENT_MESSAGE_RECEIVED.

(** The configuration [new P2P] is given. *)
Record P2PConfig : Type := mkP2PConfig {
  nodeInfo : Obj;
  hostAddress : Value;
  blacklistedPeers : list Obj;
  seedPeers : list Obj;
  triedPeers : list Obj;
  sendPeerLimit : Value
}.

Inductive Event : Type :=
| Log (lvl : Level) (msg : string)
| LogFatal (msg : string) (message stack : Value)
| Invoke (action : string) (param : Value)         (* channel.invoke *)
| InvokePublic (procedure : string) (data : Value) (* channel.invokePublic *)
| Publish (name : string) (data : Value)           (* channel.publish *)
| Subscribe (name : string)                        (* channel.subscribe *)
| CreateLogger (config : Obj)
| CreateStorage (config : Obj) (sharedLogger : bool)
| RegisterEntity (name : string)
| StorageBootstrap
| PeerGet
| PeerDelete
| PeerCreate (peers : list Obj)
| LookupPeersIPs (peers : Value) (enabled : bool)
| NewP2P (config : P2PConfig)
| On (event : P2PEvent)                            (* this.p2p.on *)
| ApplyNodeInfo (nodeInfo : Obj)
| Start
| Stop
| RequestEnd (result : Value)
| RequestError (err : Value)
| ProcessEmit (signal : string) (arg : Value).

(** How a promise, or a call that may throw, ends. *)
Inductive answer (A : Type) : Type :=
| Resolved (a : A)
| Rejected (e : Value).
Arguments Resolved {A} a.
Arguments Rejected {A} e.

(** The [TypeError] the engine throws when a property of [null] or of
    [undefined] is read. *)
Definition TypeError (message : string) : Value :=
  VObject [("name", VString "TypeError"); ("message", VString message)].

(** [v.k], for a value [v] that was caught: [error.message],
    [error.stack]. Reading a property of [null] or of [undefined] throws; a
    boolean, a number, a string or an array has no property of these
    names. *)
Definition member (k : string) (v : Value) : answer Value :=
  match v with
  | VObject props => Resolved (get k props)
  | VUndefined =>
      Rejected (TypeError ("Cannot read property '" ^^ k ^^ "' of undefined"))
  | VNull =>
      Rejected (TypeError ("Cannot read property '" ^^ k ^^ "' of null"))
  | _ => Resolved VUndefined
  end.

(** [error.message || error] *)
Definition messageOr (err : Value) : answer Value :=
  match member "message" err with
  | Resolved message => Resolved (if truthy message then message else err)
  | Rejected thrown => Rejected thrown
  end.

(** [this.options], as far as the module reads it. [blacklistedPeers] may
    be missing. *)
Record Options : Type := mkOptions {
  o_wsPort : Value;
  o_address : Value;
  o_seedPeers : Value;
  o_blacklistedPeers : option (list Obj);
  o_emitPeerLimit : Value
}.

(** [this.p2p.getNetworkStatus()] *)
Record NetworkStatus : Type := mkNetworkStatus {
  newPeers : list Obj;
  knownTriedPeers : list Obj;
  connectedPeers : list Obj
}.

(** A request of a peer: [procedure], [data], [wasResponseSent]. *)
Record Request : Type := mkRequest {
  procedure : string;
  data : Value;
  wasResponseSent : bool
}.

Section Node.

(** The table of peers in storage belongs to the storage component. *)
Context {Store : Type}.

(** What the channel, the components, the P2P library, a request and the
    engine provide. The logger and storage components, [new P2P], the
    registration of handlers and the logger are taken not to throw. *)
Record Env : Type := mkEnv {
  options : Options;
  (* this.channel.invoke('app:getComponentConfig', name) *)
  getComponentConfig : string -> answer Obj;
  (* this.channel.invoke('app:getApplicationState') *)
  getApplicationState : answer Obj;
  (* this.channel.invokePublic(procedure, data) *)
  invokePublic : string -> Value -> answer Value;
  (* this.storage.bootstrap() *)
  storage_bootstrap : answer Value;
  (* this.storage.entities.Peer *)
  Peer_get : Store -> answer (list Obj);
  Peer_delete : Store -> answer unit * Store;
  Peer_create : list Obj -> Store -> answer unit * Store;
  (* randomstring.generate(16) *)
  moduleNonce : string;
  (* lookupPeersIPs(peers, true) *)
  lookupPeersIPs : Value -> answer (list Obj);
  (* this.p2p *)
  p2p_start : answer unit;
  p2p_stop : answer Value;
  p2p_getNetworkStatus : NetworkStatus;
  (* request.end(result), request.error(error) *)
  request_end : Value -> answer unit;
  request_error : Value -> answer unit;
  (* what a template literal makes of a value *)
  toString : Value -> string
}.

Record State : Type := mkState {
  store : Store;
  events : list Event
}.

Definition N (A : Type) : Type := State -> answer A * State.

Definition ret {A} (a : A) : N A := fun s => (Resolved a, s).

(** [await m], then [k] *)
Definition bind {A B} (m : N A) (k : A -> N B) : N B := fun s =>
  match m s with
  | (Resolved a, s') => k a s'
  | (Rejected e, s') => (Rejected e, s')
  end.

Definition throw {A} (e : Value) : N A := fun s => (Rejected e, s).

(** [try { m } catch (error) { h }] *)
Definition tryCatch {A} (m : N A) (h : Value -> N A) : N A := fun s =>
  match m s with
  | (Rejected e, s') => h e s'
  | r => r
  end.

Definition emit (e : Event) : N unit := fun s =>
  (Resolved tt, mkState (store s) (events s ++ [e])).

(** A call that is recorded and answers [r]. *)
Definition call {A} (e : Event) (r : answer A) : N A := fun s =>
  (r, mkState (store s) (events s ++ [e])).

(** A call on the table of peers. *)
Definition onStore {A} (e : Event) (f : Store -> answer A * Store) : N A := fun s =>
  let (r, st) := f (store s) in (r, mkState st (events s ++ [e])).

Definition logger (lvl : Level) (msg : string) : N unit := emit (Log lvl msg).

(** An expression that is evaluated in place: it resolves to its value or
    throws, and does nothing else. *)
Definition eval {A} (r : answer A) : N A := fun s => (r, s).

Variable E : Env.

Notation "'await' x <- m ;; k" := (bind m (fun x => k))
  (at level 61, x name, m at next level, right associativity).
Notation "m ;;; k" := (bind m (fun _ => k))
  (at level 61, right associativity).

(** The handler bound to [EVENT_REQUEST_RECEIVED]. In its catch block the
    text of the log line is built, from [error.message || error], before
    the logger is called. *)
Definition onRequestReceived (request : Request) : N unit :=
  logger lTrace
    ("Incoming request event: Received inbound request for procedure "
     ^^ procedure request) ;;;
  if wasResponseSent request then ret tt
  else
    tryCatch
      (await result <-
         call (InvokePublic (sanitizedProcedure (procedure request)) (data request))
           (invokePublic E (sanitizedProcedure (procedure request)) (data request)) ;;
       logger lTrace
         ("Peer request fulfilled event: Responded to peer request "
          ^^ procedure request) ;;;
       call (RequestEnd result) (request_end E result))
      (fun error =>
         await message <- eval (messageOr error) ;;
         logger lError
           ("Peer request not fulfilled event: Could not respond to peer request "
            ^^ procedure request ^^ " because of error: "
            ^^ toString E message) ;;;
         call (RequestError error) (request_error E error)).

(** The handler bound to [EVENT_MESSAGE_RECEIVED]. *)
Definition onMessageReceived (event : string) (packet : Value) : N unit :=
  logger lTrace
    ("Message received event: Received inbound message for event " ^^ event) ;;;
  emit (Publish "network:event" packet).

(** The handler subscribed to [app:state:updated]. *)
Definition onStateUpdated (eventData : Obj) : N unit :=
  emit (ApplyNodeInfo
          (sanitizeNodeInfo (o_wsPort (options E)) (moduleNonce E) eventData)).

(** [p2pConfig] of bootstrap. *)
Definition p2pConfig (initialNodeInfo : Obj) (seed tried : list Obj) : P2PConfig :=
  {| nodeInfo := initialNodeInfo;
     hostAddress := o_address (options E);
     blacklistedPeers :=
       match o_blacklistedPeers (options E) with
       | Some peers => map listedPeer peers
       | None => []
       end;
     seedPeers := map listedPeer seed;
     triedPeers := map triedPeer tried;
     sendPeerLimit := o_emitPeerLimit (options E) |}.

(** The handlers bootstrap binds, in order. *)
Definition boundEvents : list P2PEvent :=
  [EVENT_CLOSE_OUTBOUND; EVENT_CONNECT_OUTBOUND; EVENT_DISCOVERED_PEER;
   EVENT_NEW_INBOUND_PEER; EVENT_FAILED_TO_FETCH_PEER_INFO;
   EVENT_FAILED_TO_PUSH_NODE_INFO; EVENT_OUTBOUND_SOCKET_ERROR;
   EVENT_INBOUND_SOCKET_ERROR; EVENT_UPDATED_PEER_INFO;
   EVENT_FAILED_PEER_INFO_UPDATE; EVENT_REQUEST_RECEIVED;
   EVENT_MESSAGE_RECEIVED].

Fixpoint each {A} (f : A -> N unit) (l : list A) : N unit :=
  match l with
  | [] => ret tt
  | x :: r => f x ;;; each f r
  end.

Definition bootstrap : N unit :=
  await loggerConfig <-
    call (Invoke "app:getComponentConfig" (VString "logger"))
      (getComponentConfig E "logger") ;;
  emit (CreateLogger loggerConfig) ;;;
  await storageConfig <-
    call (Invoke "app:getComponentConfig" (VString "storage"))
      (getComponentConfig E "storage") ;;
  let shared :=
    truthy (get "logFileName" storageConfig)
    && strictEq (get "logFileName" storageConfig) (get "logFileName" loggerConfig) in
  (if shared then ret tt
   else emit (CreateLogger
                (set "logFileName" (get "logFileName" storageConfig)
                   (spread loggerConfig [])))) ;;;
  emit (CreateStorage storageConfig shared) ;;;
  emit (RegisterEntity "Peer") ;;;
  await status <- call StorageBootstrap (storage_bootstrap E) ;;
  if negb (truthy status)
  then throw (Error "Cannot bootstrap the storage component")
  else
    await tried <- onStore PeerGet (fun st => (Peer_get E st, st)) ;;
    await state <-
      call (Invoke "app:getApplicationState" VUndefined) (getApplicationState E) ;;
    let initialNodeInfo :=
      sanitizeNodeInfo (o_wsPort (options E)) (moduleNonce E) state in
    await seed <-
      call (LookupPeersIPs (o_seedPeers (options E)) true)
        (lookupPeersIPs E (o_seedPeers (options E))) ;;
    emit (NewP2P (p2pConfig initialNodeInfo seed tried)) ;;;
    emit (Subscribe "app:state:updated") ;;;
    each (fun ev => emit (On ev)) boundEvents ;;;
    tryCatch (call Start (p2p_start E))
      (fun error =>
         await message <- eval (member "message" error) ;;
         await stack <- eval (member "stack" error) ;;
         emit (LogFatal "Network initialization" message stack) ;;;
         emit (ProcessEmit "cleanup" error)).

Definition cleanup : N Value :=
  logger lInfo "Cleaning network..." ;;;
  let peersToSave := map peerToSave (connectedPeers (p2p_getNetworkStatus E)) in
  (if negb (Nat.eqb (length peersToSave) 0)
   then
     onStore PeerDelete (Peer_delete E) ;;;
     onStore (PeerCreate peersToSave) (Peer_create E peersToSave) ;;;
     logger lInfo "Saved all the peers to DB that have been tried"
   else ret tt) ;;;
  call Stop (p2p_stop E).

End Node.

Arguments Env : clear implicits.
Arguments State : clear implicits.

(** ** What the statements are about *)

(** The calls that answer a request, and the call that serves it. *)
Definition answering (e : Event) : bool :=
  match e with
  | InvokePublic _ _ | RequestEnd _ | RequestError _ => true
  | _ => false
  end.

(** [null] and [undefined], the two values no property can be read of. *)
Definition nullish (v : Value) : bool :=
  match v with
  | VUndefined | VNull => true
  | _ => false
  end.

(** A line of the error log. *)
Definition errorLog (e : Event) : bool :=
  match e with
  | Log lError _ => true
  | _ => false
  end.

(** A peer as cleanup hands it to storage: addressed by [ip] and not by
    [ipAddress], with a truthy [state], and with a [protocolVersion] that is
    truthy or the empty string. *)
Definition storable (peer : Obj) : Prop :=
  has "ipAddress" peer = false /\
  has "ip" peer = true /\
  truthy (get "state" peer) = true /\
  (truthy (get "protocolVersion" peer) = true
   \/ get "protocolVersion" peer = VString "").

(** What the conversions do to [state] and [protocolVersion]. *)
Definition defaulted (k : string) (v : Value) : Value :=
  if String.eqb k "state" then (if truthy v then v else VNumber 2)
  else if String.eqb k "protocolVersion" then (if truthy v then v else VString "")
  else v.

(** The calls on the table of peers and the stop of the P2P library. *)
Definition closing (e : Event) : bool :=
  match e with
  | PeerDelete | PeerCreate _ | Stop => true
  | _ => false
  end.

(** A small node to run the module on: the table of peers is the list of
    the peers saved. *)
Module Toy.

Definition peerA : Obj :=
  [("ipAddress", VString "10.0.0.1"); ("wsPort", VNumber 5000);
   ("height", VNumber 12); ("state", VNumber 0)].

Definition peerB : Obj :=
  [("ipAddress", VString "10.0.0.2"); ("wsPort", VNumber 5001);
   ("protocolVersion", VString "1.0"); ("state", VNumber 1)].

Definition saved : Obj :=
  [("ip", VString "10.0.0.9"); ("wsPort", VNumber 4000)].

Definition env (status : Value) (start : answer unit)
    (create : answer unit) (peers : list Obj) : Env (list Obj) :=
  {| options := mkOptions (VNumber 7001) (VString "0.0.0.0") (VArray []) None
                  (VNumber 25);
     getComponentConfig := fun name =>
       Resolved [("logFileName", VString (name ^^ ".log"))];
     getApplicationState :=
       Resolved [("height", VNumber 3); ("nonce", VString "app"); ("state", VNumber 1)];
     invokePublic := fun procedure _ =>
       if String.eqb procedure "chain:blocks"
       then Resolved (VArray [])
       else Rejected (Error "unknown procedure");
     storage_bootstrap := Resolved status;
     Peer_get := fun st => Resolved st;
     Peer_delete := fun _ => (Resolved tt, []);
     Peer_create := fun ps st =>
       match create with
       | Resolved _ => (Resolved tt, st ++ ps)
       | Rejected e => (Rejected e, st)
       end;
     moduleNonce := "0123456789abcdef";
     lookupPeersIPs := fun _ => Resolved [];
     p2p_start := start;
     p2p_stop := Resolved VUndefined;
     p2p_getNetworkStatus := mkNetworkStatus [] [] peers;
     request_end := fun _ => Resolved tt;
     request_error := fun _ => Resolved tt;
     toString := fun v => match v with VString s => s | _ => "?" end |}.

Definition node : State (list Obj) := mkState [saved] [].

(** A node on which every public invocation rejects with [err]. *)
Definition rejecting (err : Value) : Env (list Obj) :=
  let E := env (VBool true) (Resolved tt) (Resolved tt) [] in
  {| options := options E;
     getComponentConfig := getComponentConfig E;
     getApplicationState := getApplicationState E;
     invokePublic := fun _ _ => Rejected err;
     storage_bootstrap := storage_bootstrap E;
     Peer_get := Peer_get E;
     Peer_delete := Peer_delete E;
     Peer_create := Peer_create E;
     moduleNonce := moduleNonce E;
     lookupPeersIPs := lookupPeersIPs E;
     p2p_start := p2p_start E;
     p2p_stop := p2p_stop E;
     p2p_getNetworkStatus := p2p_getNetworkStatus E;
     request_end := request_end E;
     request_error := request_error E;
     toString := toString E |}.

End Toy.

End Network.

(** * Reasoning about the operations *)

Section Frames.

Context {DB Pool Account : Type}.
Variable E : Env DB Pool Account.
Context {R : State DB Pool -> State DB Pool -> Prop} {okE : Event -> Prop}
  {regFree actFree : Prop} {FR : Frame R okE regFree actFree}.

Lemma respects_ret {A} (a : A) : respects (ret a).
Proof. intros s. apply fr_refl. Qed.

Lemma respects_reject {A} (e : Err) : respects (reject (A:=A) e).
Proof. intros s. apply fr_refl. Qed.

Lemma respects_bind {A B} (m : M A) (k : A -> M B) :
  respects m -> (forall a, respects (k a)) -> respects (bind m k).
Proof.
  intros Hm Hk s. unfold bind. specialize (Hm s).
  destruct (m s) as [[a | e | c] s1]; simpl in *; auto.
  eapply fr_trans; [exact Hm | apply Hk].
Qed.

Lemma respects_catch {A} (m : M A) (h : Err -> M A) :
  respects m -> (forall e, respects (h e)) -> respects (catch m h).
Proof.
  intros Hm Hh s. unfold catch. specialize (Hm s).
  destruct (m s) as [[a | e | c] s1]; simpl in *; auto.
  eapply fr_trans; [exact Hm | apply Hh].
Qed.

Lemma respects_emit (e : Event) : okE e -> respects (emit e).
Proof. intros He s. simpl. apply fr_record, He. Qed.

Lemma respects_logger l m : respects (logger l m).
Proof. apply respects_emit, fr_Log. Qed.

Lemma respects_bus_message t p :
  okE (BusMessage t p) -> respects (bus_message t p).
Proof. apply respects_emit. Qed.

Lemma respects_process_emit sg :
  okE (ProcessEmit sg) -> respects (process_emit sg).
Proof. apply respects_emit. Qed.

Lemma respects_process_exit {A} c :
  okE (ProcessExit c) -> respects (process_exit (A:=A) c).
Proof. intros He s. simpl. apply fr_record, He. Qed.

Lemma respects_lastBlock_get : respects lastBlock_get.
Proof. intros s. apply fr_refl. Qed.

Lemma respects_lastBlock_set b :
  regFree -> okE (LastBlockSet b) -> respects (lastBlock_set b).
Proof.
  intros Hr He s. simpl.
  eapply fr_trans; [apply (fr_reg Hr) | apply fr_record, He].
Qed.

Lemma respects_isActive_set v :
  actFree -> okE (IsActiveSet v) -> respects (isActive_set v).
Proof.
  intros Hr He s. simpl.
  eapply fr_trans; [apply (fr_act Hr) | apply fr_record, He].
Qed.

Lemma respects_reverseTransactions : regFree -> respects reverseTransactions.
Proof. intros Hr s. simpl. apply (fr_reg Hr). Qed.

Lemma respects_db_call {A} c (f : DB -> result A * DB) : respects (db_call c f).
Proof.
  intros s. unfold db_call. destruct (f (db s)) as [r d]. simpl.
  eapply fr_trans; [apply fr_db | apply fr_record, fr_Call].
Qed.

Lemma respects_db_read {A} c (f : DB -> result A) : respects (db_read c f).
Proof. intros s. simpl. apply fr_record, fr_Call. Qed.

Lemma respects_pool_call {A} c (f : Pool -> result A * Pool) :
  respects (pool_call c f).
Proof.
  intros s. unfold pool_call. destruct (f (pool s)) as [r d]. simpl.
  eapply fr_trans; [apply fr_pool | apply fr_record, fr_Call].
Qed.

Lemma respects_db_tx {A} n (body : M A) : respects body -> respects (db_tx n body).
Proof.
  intros Hb s. unfold db_tx.
  specialize (Hb (record (DbTx n) s)).
  assert (H0 : R s (record (DbTx n) s)) by apply fr_record, fr_DbTx.
  destruct (body (record (DbTx n) s)) as [[a | e | c] s1]; simpl in *.
  - eapply fr_trans; [exact H0 |]. eapply fr_trans; [exact Hb |].
    apply fr_record, fr_DbCommit.
  - eapply fr_trans; [exact H0 |]. eapply fr_trans; [exact Hb |].
    eapply fr_trans; [apply fr_db | apply fr_record, fr_DbRollback].
  - eapply fr_trans; eauto.
Qed.

Lemma respects_eachSeries {A} (f : A -> M unit) l :
  (forall x, respects (f x)) -> respects (eachSeries f l).
Proof.
  intros Hf. induction l as [| x l IH]; simpl.
  - apply respects_ret.
  - apply respects_bind; auto.
Qed.

Lemma respects_batch (ms : list (M unit)) :
  Forall respects ms -> respects (batch ms).
Proof.
  induction 1 as [| m ms Hm _ IH]; simpl.
  - apply respects_ret.
  - intros s. specialize (Hm s).
    destruct (m s) as [[a | e | c] s1]; simpl in *; auto.
    + eapply fr_trans; [exact Hm | apply IH].
    + specialize (IH s1).
      destruct (batch ms s1) as [[a | e' | c] s2]; simpl in *;
        eapply fr_trans; eauto.
Qed.

Lemma respects_removeUnconfirmedTransaction id :
  respects (removeUnconfirmedTransaction E id).
Proof.
  intros s. simpl. eapply fr_trans; [apply fr_pool | apply fr_record, fr_Call].
Qed.

Lemma respects_undoUnconfirmedListStep : respects (undoUnconfirmedListStep E).
Proof.
  unfold undoUnconfirmedListStep. apply respects_catch.
  - intros s.
    destruct (transactions_undoUnconfirmedList E (pool s) (db s)) as [r [p d]].
    simpl. eapply fr_trans; [apply fr_pool |].
    eapply fr_trans; [apply fr_db | apply fr_record, fr_Call].
  - intros e. apply respects_bind; [apply respects_logger |].
    intros _. apply respects_reject.
Qed.

End Frames.

(** Goes through an operation combinator by combinator; what is left are
    the events and the writes the relation has to allow. *)
Ltac frame_step :=
  first
    [ apply respects_bind; [| intros ? ]
    | apply respects_catch; [| intros ? ]
    | apply respects_eachSeries; intros ?
    | apply respects_db_tx
    | apply respects_batch
    | apply respects_ret
    | apply respects_reject
    | apply respects_logger
    | apply respects_db_call
    | apply respects_db_read
    | apply respects_pool_call
    | eapply respects_removeUnconfirmedTransaction; try exact _
    | eapply respects_undoUnconfirmedListStep; try exact _
    | eapply respects_emit; try exact _
    | eapply respects_process_exit; try exact _
    | apply respects_lastBlock_get
    | eapply respects_lastBlock_set; try exact _
    | eapply respects_isActive_set; try exact _
    | eapply respects_reverseTransactions; try exact _
    | apply respects_db_call
    | apply respects_db_read
    | apply respects_pool_call
    | apply respects_removeUnconfirmedTransaction
    | apply respects_undoUnconfirmedListStep
    | match goal with |- respects (if ?c then _ else _) => destruct c end
    | match goal with |- respects (match ?c with _ => _ end) => destruct c end
    | exact I
    | discriminate ].
Ltac frame := repeat frame_step.

#[export] Instance keepsRegister_Frame {DB Pool} :
  Frame (@keepsRegister DB Pool) anyEvent False True.
Proof.
  constructor; unfold keepsRegister, anyEvent; simpl; intros;
    try congruence; try tauto.
Qed.

#[export] Instance keepsActive_Frame {DB Pool} :
  Frame (@keepsActive DB Pool) anyEvent True False.
Proof.
  constructor; unfold keepsActive, anyEvent; simpl; intros;
    try congruence; try tauto.
Qed.

Lemma extends_refl {DB Pool} P (s : State DB Pool) : extends P s s.
Proof. exists []. rewrite app_nil_r. auto. Qed.

Lemma extends_trans {DB Pool} P (s1 s2 s3 : State DB Pool) :
  extends P s1 s2 -> extends P s2 s3 -> extends P s1 s3.
Proof.
  intros [e1 [H1 F1]] [e2 [H2 F2]]. exists (e1 ++ e2). split.
  - rewrite H2, H1, app_assoc. reflexivity.
  - apply Forall_app. auto.
Qed.

#[export] Instance extends_any_Frame {DB Pool} :
  Frame (@extends DB Pool anyEvent) anyEvent True True.
Proof.
  constructor; try (unfold anyEvent; tauto);
    try solve [intros; exists []; simpl; rewrite app_nil_r; auto].
  - apply extends_trans.
  - intros e s He. exists [e]. simpl. auto.
Qed.

#[export] Instance extends_quiet_Frame {DB Pool} :
  Frame (@extends DB Pool quiet) quiet True True.
Proof.
  constructor; try (simpl; tauto);
    try solve [intros; exists []; simpl; rewrite app_nil_r; auto].
  - apply extends_trans.
  - intros e s He. exists [e]. simpl. auto.
Qed.

#[export] Instance extends_unflagged_Frame {DB Pool} :
  Frame (@extends DB Pool unflagged) unflagged True True.
Proof.
  constructor; try (simpl; tauto);
    try solve [intros; exists []; simpl; rewrite app_nil_r; auto].
  - apply extends_trans.
  - intros e s He. exists [e]. simpl. auto.
Qed.

(** ** Operations that never terminate the process *)
Section NeverExits.

Context {DB Pool Account : Type}.
Variable E : Env DB Pool Account.

Lemma neverExits_ret {A} (a : A) : neverExits (DB:=DB) (Pool:=Pool) (ret a).
Proof. intros s c. discriminate. Qed.

Lemma neverExits_reject {A} e : neverExits (DB:=DB) (Pool:=Pool) (reject (A:=A) e).
Proof. intros s c. discriminate. Qed.

Lemma neverExits_emit e : neverExits (DB:=DB) (Pool:=Pool) (emit e).
Proof. intros s c. discriminate. Qed.

Lemma neverExits_lastBlock_set b : neverExits (DB:=DB) (Pool:=Pool) (lastBlock_set b).
Proof. intros s c. discriminate. Qed.

Lemma neverExits_isActive_set v : neverExits (DB:=DB) (Pool:=Pool) (isActive_set v).
Proof. intros s c. discriminate. Qed.

Lemma of_result_not_Exited {A} (r : result A) c : of_result r <> Exited c.
Proof. destruct r; discriminate. Qed.

Lemma neverExits_db_call {A} c (f : DB -> result A * DB) : neverExits (DB:=DB) (Pool:=Pool) (db_call c f).
Proof.
  intros s x. unfold db_call. destruct (f (db s)) as [r d]. simpl.
  apply of_result_not_Exited.
Qed.

Lemma neverExits_db_read {A} c (f : DB -> result A) : neverExits (DB:=DB) (Pool:=Pool) (db_read c f).
Proof. intros s x. simpl. apply of_result_not_Exited. Qed.

Lemma neverExits_pool_call {A} c (f : Pool -> result A * Pool) : neverExits (DB:=DB) (Pool:=Pool) (pool_call c f).
Proof.
  intros s x. unfold pool_call. destruct (f (pool s)) as [r d]. simpl.
  apply of_result_not_Exited.
Qed.

Lemma neverExits_bind {A B} (m : M (DB:=DB) (Pool:=Pool) A) (k : A -> M B) :
  neverExits m -> (forall a, neverExits (k a)) -> neverExits (bind m k).
Proof.
  intros Hm Hk s c. unfold bind. specialize (Hm s).
  destruct (m s) as [[a | e | c'] s1]; simpl in *.
  - apply Hk.
  - discriminate.
  - exfalso. apply (Hm c'). reflexivity.
Qed.

Lemma neverExits_catch {A} (m : M (DB:=DB) (Pool:=Pool) A) (h : Err -> M A) :
  neverExits m -> (forall e, neverExits (h e)) -> neverExits (catch m h).
Proof.
  intros Hm Hh s c. unfold catch. specialize (Hm s).
  destruct (m s) as [[a | e | c'] s1]; simpl in *.
  - discriminate.
  - apply Hh.
  - exfalso. apply (Hm c'). reflexivity.
Qed.

Lemma neverExits_db_tx {A} n (body : M (DB:=DB) (Pool:=Pool) A) : neverExits body -> neverExits (db_tx n body).
Proof.
  intros Hb s c. unfold db_tx. specialize (Hb (record (DbTx n) s)).
  destruct (body (record (DbTx n) s)) as [[a | e | c'] s1]; simpl in *;
    try discriminate.
  exfalso. apply (Hb c'). reflexivity.
Qed.

Lemma neverExits_eachSeries {A} (f : A -> M (DB:=DB) (Pool:=Pool) unit) l :
  (forall x, neverExits (f x)) -> neverExits (eachSeries f l).
Proof.
  intros Hf. induction l as [| x l IH]; simpl.
  - apply neverExits_ret.
  - apply neverExits_bind; auto.
Qed.

Lemma neverExits_batch (ms : list (M (DB:=DB) (Pool:=Pool) unit)) :
  Forall neverExits ms -> neverExits (batch ms).
Proof.
  induction 1 as [| m ms Hm _ IH]; simpl.
  - apply neverExits_ret.
  - intros s c. specialize (Hm s).
    destruct (m s) as [[a | e | c'] s1]; simpl in *.
    + apply IH.
    + specialize (IH s1).
      destruct (batch ms s1) as [[a | e' | c''] s2]; simpl in *;
        try discriminate.
      exfalso. apply (IH c''). reflexivity.
    + exfalso. apply (Hm c'). reflexivity.
Qed.

Lemma neverExits_removeUnconfirmedTransaction id :
  neverExits (removeUnconfirmedTransaction E id).
Proof. intros s c. discriminate. Qed.

End NeverExits.

Ltac noexit_step :=
  first
    [ apply neverExits_bind; [| intros ? ]
    | apply neverExits_catch; [| intros ? ]
    | apply neverExits_eachSeries; intros ?
    | apply neverExits_db_tx
    | apply neverExits_batch
    | apply neverExits_ret
    | apply neverExits_reject
    | apply neverExits_emit
    | apply neverExits_lastBlock_set
    | apply neverExits_isActive_set
    | apply neverExits_db_call
    | apply neverExits_db_read
    | apply neverExits_pool_call
    | apply neverExits_removeUnconfirmedTransaction
    | match goal with |- neverExits (if ?c then _ else _) => destruct c end
    | match goal with |- neverExits (fun _ => (Done _, _)) =>
        intros ? ?; discriminate end ].
Ltac noexit := repeat noexit_step.

(** ** The steps of applyBlock and the frames *)
Section StepFrames.

Context {DB Pool Account : Type}.
Variable E : Env DB Pool Account.
Context {R : State DB Pool -> State DB Pool -> Prop} {okE : Event -> Prop}
  {regFree actFree : Prop} {FR : Frame R okE regFree actFree}.

Lemma respects_applyUnconfirmedStep b : respects (R:=R) (applyUnconfirmedStep E b).
Proof. unfold applyUnconfirmedStep. frame. Qed.

Lemma respects_applyConfirmedStep b : respects (R:=R) (applyConfirmedStep E b).
Proof. unfold applyConfirmedStep. frame. Qed.

Lemma respects_saveBlockPromises b :
  Forall (respects (R:=R)) (saveBlockPromises E b).
Proof.
  unfold saveBlockPromises. constructor; [frame |].
  destruct (0 <? _); repeat constructor. frame.
Qed.

Lemma respects_afterSave b :
  okE (BusMessage "transactionsSaved" (PTransactions (b_transactions b))) ->
  respects (R:=R) (afterSave E b).
Proof. intros H. unfold afterSave. frame. exact H. Qed.

Lemma respects_saveBlock b tx :
  (forall ts, okE (BusMessage "transactionsSaved" (PTransactions ts))) ->
  respects (R:=R) (saveBlock E b tx).
Proof.
  intros H. unfold saveBlock.
  apply respects_bind; [| intros _; apply respects_afterSave, H].
  destruct tx; frame; apply respects_saveBlockPromises.
Qed.

End StepFrames.

Section ApplyBlockFacts.

Context {DB Pool Account : Type}.
Variable E : Env DB Pool Account.

Lemma neverExits_saveBlockPromises b :
  Forall neverExits (saveBlockPromises E b).
Proof.
  unfold saveBlockPromises. constructor; [noexit |].
  destruct (0 <? _); repeat constructor. noexit.
Qed.

Lemma neverExits_saveBlock b tx : neverExits (saveBlock E b tx).
Proof.
  unfold saveBlock, afterSave, logger, bus_message.
  apply neverExits_bind;
    [destruct tx; noexit; apply neverExits_saveBlockPromises
    | intros _; noexit].
Qed.

Lemma neverExits_applyBlockTx b sv : neverExits (applyBlockTx E b sv).
Proof.
  unfold applyBlockTx, applyUnconfirmedStep, applyConfirmedStep, saveBlockStep,
    logger, bus_message.
  noexit; try apply neverExits_saveBlockPromises.
Qed.

Lemma neverExits_applyBlockCommitted b : neverExits (applyBlockCommitted E b).
Proof. unfold applyBlockCommitted. noexit. Qed.

Lemma applyBlockCommitted_clears_isActive b (s : State DB Pool) :
  isActive (snd (applyBlockCommitted E b s)) = false.
Proof.
  unfold applyBlockCommitted, bind.
  pose proof (neverExits_eachSeries
                (fun transaction => removeUnconfirmedTransaction E (t_id transaction))
                (b_transactions b)
                (fun x => neverExits_removeUnconfirmedTransaction E (t_id x)) s) as Hx.
  destruct (eachSeries _ (b_transactions b) s) as [[[] | e | c] s1] eqn:Hrun;
    simpl in *.
  - reflexivity.
  - exfalso. clear Hx. revert s Hrun.
    induction (b_transactions b) as [| t l IH]; simpl; intros s Hrun.
    + discriminate.
    + unfold bind in Hrun. simpl in Hrun. eapply IH, Hrun.
  - exfalso. apply (Hx c). reflexivity.
Qed.

Lemma isActive_after_set v (m : M (DB:=DB) (Pool:=Pool) unit) s :
  respects (R:=keepsActive) m ->
  isActive (snd ((isActive_set v ;; m) s)) = v.
Proof.
  intros Hm. unfold bind. simpl. rewrite (Hm _). reflexivity.
Qed.

Lemma applyBlockRejected_clears_isActive reason (s : State DB Pool) :
  isActive (snd (applyBlockRejected reason s)) = false.
Proof.
  unfold applyBlockRejected. apply isActive_after_set. frame.
Qed.

(** Once the undo-unconfirmed-pool step is through, applyBlock leaves the
    flag cleared, however the rest ends. *)
Lemma applyBlock_rest_clears_isActive b sv (s : State DB Pool) :
  isActive
    (snd (catch
            (db_tx "Chain:applyBlock" (applyBlockTx E b sv) ;;
             applyBlockCommitted E b)
            applyBlockRejected s)) = false.
Proof.
  unfold catch, bind.
  pose proof (neverExits_db_tx "Chain:applyBlock" _
                (neverExits_applyBlockTx b sv) s) as Hx.
  destruct (db_tx "Chain:applyBlock" (applyBlockTx E b sv) s)
    as [[[] | e | c] s1]; simpl in *.
  - pose proof (applyBlockCommitted_clears_isActive b s1) as Hc.
    pose proof (neverExits_applyBlockCommitted b s1) as Hn.
    destruct (applyBlockCommitted E b s1) as [[[] | e | c] s2]; simpl in *.
    + exact Hc.
    + apply applyBlockRejected_clears_isActive.
    + exfalso. apply (Hn c). reflexivity.
  - apply applyBlockRejected_clears_isActive.
  - exfalso. apply (Hx c). reflexivity.
Qed.

Lemma applyBlockCommitted_done b (s : State DB Pool) :
  fst (applyBlockCommitted E b s) = Done tt.
Proof.
  unfold applyBlockCommitted, bind.
  assert (H : forall l (s : State DB Pool),
             fst (eachSeries
                    (fun transaction =>
                       removeUnconfirmedTransaction E (t_id transaction)) l s)
             = Done tt).
  { induction l as [| t l IH]; intros s'; simpl; [reflexivity |].
    unfold bind. simpl. apply IH. }
  specialize (H (b_transactions b) s).
  destruct (eachSeries _ (b_transactions b) s) as [[[] | e | c] s1];
    simpl in *; congruence.
Qed.

(** The flag is written by [isActive.set] alone: a step built from the other
    primitives adds no write of the flag to the trace. *)
Lemma unflagged_selects (s s' : State DB Pool) :
  extends unflagged s s' -> selects flagWrite [] s s'.
Proof.
  intros [evs [Ht Hf]]. exists evs. split; [exact Ht |].
  clear Ht. induction Hf as [| e l He _ IH]; [reflexivity |].
  destruct e; simpl in *; try exact IH. contradiction.
Qed.

Lemma selects_then sel L1 L2 (s1 s2 s3 : State DB Pool) :
  selects sel L1 s1 s2 -> selects sel L2 s2 s3 -> selects sel (L1 ++ L2) s1 s3.
Proof.
  intros [e1 [H1 F1]] [e2 [H2 F2]]. exists (e1 ++ e2). split.
  - rewrite H2, H1, app_assoc. reflexivity.
  - rewrite filter_app, F1, F2. reflexivity.
Qed.

Lemma selects_recorded sel e (s : State DB Pool) :
  selects sel (filter sel [e]) s (record e s).
Proof. exists [e]. split; reflexivity. Qed.

Lemma flagWrites_undoUnconfirmedListStep (s : State DB Pool) :
  selects flagWrite [] s (snd (undoUnconfirmedListStep E s)).
Proof.
  apply unflagged_selects.
  apply (respects_undoUnconfirmedListStep (R:=extends unflagged) E s).
Qed.

(** Inside the persistence transaction the flag is set once, first. *)
Lemma flagWrites_applyBlockTx b sv (s : State DB Pool) :
  selects flagWrite [IsActiveSet true] s (snd (applyBlockTx E b sv s)).
Proof.
  change (applyBlockTx E b sv s)
    with ((applyUnconfirmedStep E b ;; applyConfirmedStep E b ;; saveBlockStep E b sv)
            (record (IsActiveSet true) (with_isActive true s))).
  apply (selects_then flagWrite [IsActiveSet true] []
           s (record (IsActiveSet true) (with_isActive true s))).
  - exists [IsActiveSet true]. split; reflexivity.
  - apply unflagged_selects.
    assert (H : respects (R:=extends unflagged)
                  (applyUnconfirmedStep E b ;; applyConfirmedStep E b ;;
                   saveBlockStep E b sv)); [| apply H].
    apply respects_bind; [apply respects_applyUnconfirmedStep | intros _].
    apply respects_bind; [apply respects_applyConfirmedStep | intros _].
    unfold saveBlockStep, logger, bus_message.
    apply respects_bind;
      [eapply respects_lastBlock_set; first [exact I | exact _] | intros _].
    destruct sv.
    + apply respects_bind; [intros s0; apply fr_reg; exact I | intros _].
      apply respects_bind; [| intros _; frame].
      apply respects_catch; [| intros ?; frame].
      eapply respects_saveBlock; first [exact _ | intros; exact I].
    + frame.
Qed.

Lemma flagWrites_applyBlockCommitted b (s : State DB Pool) :
  selects flagWrite [IsActiveSet false] s (snd (applyBlockCommitted E b s)).
Proof.
  unfold applyBlockCommitted, bind.
  pose proof (respects_eachSeries (R:=extends unflagged)
                (fun transaction => removeUnconfirmedTransaction E (t_id transaction))
                (b_transactions b)
                (fun x => respects_removeUnconfirmedTransaction E (t_id x)) s) as Hr.
  apply unflagged_selects in Hr.
  destruct (eachSeries _ (b_transactions b) s) as [[[] | e | c] s1] eqn:Hrun;
    simpl in *.
  - apply (selects_then flagWrite [] [IsActiveSet false] s s1); [exact Hr |].
    exists [IsActiveSet false]. split; reflexivity.
  - exfalso. clear Hr. revert s Hrun.
    induction (b_transactions b) as [| t l IH]; simpl; intros s Hrun.
    + discriminate.
    + unfold bind in Hrun. simpl in Hrun. eapply IH, Hrun.
  - exfalso.
    apply (neverExits_eachSeries
             (fun transaction => removeUnconfirmedTransaction E (t_id transaction))
             (b_transactions b)
             (fun x => neverExits_removeUnconfirmedTransaction E (t_id x)) s c).
    rewrite Hrun. reflexivity.
Qed.

Lemma flagWrites_applyBlockRejected reason (s : State DB Pool) :
  selects flagWrite [IsActiveSet false] s (snd (applyBlockRejected reason s)).
Proof.
  unfold applyBlockRejected, bind, logger, process_emit, emit, isActive_set.
  destruct (isSnapshotFinished reason); cbn [fst snd ret reject].
  - exists [IsActiveSet false; Log info (err_toString reason); ProcessEmit "SIGTERM"].
    split; [| reflexivity].
    cbn [record trace with_isActive]. rewrite <- !app_assoc. reflexivity.
  - exists [IsActiveSet false]. split; reflexivity.
Qed.

(** Once the undo-unconfirmed-pool step is through, the flag is set at the
    start of the persistence transaction and cleared once, at the end,
    however the rest ends. *)
Lemma applyBlock_rest_flagWrites b sv (s : State DB Pool) :
  selects flagWrite [IsActiveSet true; IsActiveSet false] s
    (snd (catch
            (db_tx "Chain:applyBlock" (applyBlockTx E b sv) ;;
             applyBlockCommitted E b)
            applyBlockRejected s)).
Proof.
  unfold catch, bind, db_tx.
  pose proof (flagWrites_applyBlockTx b sv (record (DbTx "Chain:applyBlock") s)) as Ht.
  pose proof (neverExits_applyBlockTx b sv (record (DbTx "Chain:applyBlock") s)) as Hx.
  assert (H0 : selects flagWrite [] s (record (DbTx "Chain:applyBlock") s))
    by apply (selects_recorded flagWrite (DbTx "Chain:applyBlock")).
  pose proof (selects_then _ _ _ _ _ _ H0 Ht) as H1. simpl in H1. clear H0 Ht.
  destruct (applyBlockTx E b sv (record (DbTx "Chain:applyBlock") s))
    as [[[] | e | c] s1]; simpl in *.
  - pose proof (flagWrites_applyBlockCommitted b
                  (record (DbCommit "Chain:applyBlock") s1)) as Hc.
    pose proof (applyBlockCommitted_done b
                  (record (DbCommit "Chain:applyBlock") s1)) as Hd.
    destruct (applyBlockCommitted E b (record (DbCommit "Chain:applyBlock") s1))
      as [[[] | e | c] s2]; simpl in *; try discriminate.
    apply (selects_then flagWrite [IsActiveSet true] [IsActiveSet false] s s1);
      [exact H1 |].
    apply (selects_then flagWrite [] [IsActiveSet false]
             s1 (record (DbCommit "Chain:applyBlock") s1)); [| exact Hc].
    apply (selects_recorded flagWrite (DbCommit "Chain:applyBlock")).
  - apply (selects_then flagWrite [IsActiveSet true] [IsActiveSet false] s s1);
      [exact H1 |].
    apply (selects_then flagWrite [] [IsActiveSet false] s1
             (record (DbRollback "Chain:applyBlock")
                (with_db (db (record (DbTx "Chain:applyBlock") s)) s1)));
      [| apply flagWrites_applyBlockRejected].
    exists [DbRollback "Chain:applyBlock"]. split; reflexivity.
  - exfalso. apply (Hx c). reflexivity.
Qed.

End ApplyBlockFacts.

(** Settles a closed statement about the small ledger by running it. *)
Ltac run_ledger :=
  cbv zeta; vm_compute;
  repeat match goal with |- _ /\ _ => split end;
  first
    [ reflexivity
    | lia
    | intros H; discriminate H
    | solve [repeat first [left; reflexivity | right]]
    | intros H; repeat (destruct H as [H | H]; [discriminate H |]); exact H ].

(** * Claims *)

(** C6. On every exit path of applyBlock the Is-Active flag is false when
    applyBlock calls back. On the two paths through the persistence
    transaction - success, and failure of a step inside it - the flag is
    set at the start of the transaction and cleared once, after it, so it is
    false at the end whatever it was on entry. On the third path, failure of
    the initial undo-unconfirmed-pool step, applyBlock calls back before the
    flag is written at all: it is what it was on entry, which is false by
    applyBlock's precondition. *)
Theorem applyBlock_clears_isActive {DB Pool Account} (E : Env DB Pool Account)
    (block : Block) (saveBlockFlag : bool) (s : State DB Pool) :
  let s' := snd (applyBlock E block saveBlockFlag s) in
  (fst (undoUnconfirmedListStep E s) = Done tt ->
   isActive s' = false /\
   selects flagWrite [IsActiveSet true; IsActiveSet false] s s') /\
  (fst (undoUnconfirmedListStep E s) <> Done tt ->
   isActive s' = isActive s /\ selects flagWrite [] s s') /\
  (isActive s = false -> isActive s' = false).
Proof.
  cbv zeta. unfold applyBlock, bind.
  pose proof (respects_undoUnconfirmedListStep (R:=keepsActive) E s) as Hu.
  pose proof (flagWrites_undoUnconfirmedListStep E s) as Hf.
  unfold keepsActive in Hu.
  destruct (undoUnconfirmedListStep E s) as [[[] | e | c] s1]; simpl in *.
  - pose proof (applyBlock_rest_clears_isActive E block saveBlockFlag s1) as Hc.
    pose proof (applyBlock_rest_flagWrites E block saveBlockFlag s1) as Hw.
    split; [| split].
    + intros _. split; [exact Hc |].
      apply (selects_then flagWrite [] [IsActiveSet true; IsActiveSet false] s s1);
        assumption.
    + intros H. contradiction H. reflexivity.
    + intros _. exact Hc.
  - split; [| split].
    + intros H. discriminate H.
    + intros _. split; assumption.
    + intros H. congruence.
  - split; [| split].
    + intros H. discriminate H.
    + intros _. split; assumption.
    + intros H. congruence.
Qed.

(** C6 on the small ledger, along the three paths: a block that is applied
    and saved, with the flag set on entry; a block whose round tick fails
    inside the persistence transaction; and a failing undo-unconfirmed-pool
    step. *)
Lemma applyBlock_clears_isActive_witness :
  let raised := with_isActive true (Toy.start Toy.emptyPool) in
  let flagWrites (s' : State Toy.ToyDB Toy.ToyPool) := filter flagWrite (trace s') in
  (fst (applyBlock (Toy.env Toy.noFaults Toy.genesis) Toy.next true raised) = Done tt /\
   isActive (snd (applyBlock (Toy.env Toy.noFaults Toy.genesis) Toy.next true raised))
   = false) /\
  (fst (applyBlock Toy.tickFailsEnv Toy.next true (Toy.start Toy.emptyPool))
   = Failed (ErrString "round tick failed") /\
   isActive (snd (applyBlock Toy.tickFailsEnv Toy.next true (Toy.start Toy.emptyPool)))
   = false /\
   flagWrites (snd (applyBlock Toy.tickFailsEnv Toy.next true (Toy.start Toy.emptyPool)))
   = [IsActiveSet true; IsActiveSet false]) /\
  (isActive
     (snd (applyBlock
             (Toy.env (Toy.mkFaults (Some (ErrString "pool")) None None None None)
                Toy.genesis)
             Toy.next true (Toy.start Toy.emptyPool))) = false).
Proof.
  cbv zeta. split; [| split].
  - split; [vm_compute; reflexivity |].
    destruct (applyBlock_clears_isActive (Toy.env Toy.noFaults Toy.genesis)
                Toy.next true (with_isActive true (Toy.start Toy.emptyPool)))
      as [H _].
    apply H. vm_compute. reflexivity.
  - split; [vm_compute; reflexivity |].
    destruct (applyBlock_clears_isActive Toy.tickFailsEnv Toy.next true
                (Toy.start Toy.emptyPool)) as [H _].
    destruct (H ltac:(vm_compute; reflexivity)) as [Ha [evs [Ht Hw]]].
    split; [exact Ha |].
    change (trace (Toy.start Toy.emptyPool) ++ evs) with evs in Ht.
    rewrite Ht. exact Hw.
  - destruct (applyBlock_clears_isActive
                (Toy.env (Toy.mkFaults (Some (ErrString "pool")) None None None None)
                   Toy.genesis)
                Toy.next true (Toy.start Toy.emptyPool)) as [_ [_ H]].
    apply H. reflexivity.
Defined.

(** ** deleteLastBlock *)
Section DeleteLastBlockFacts.

Context {DB Pool Account : Type}.
Variable E : Env DB Pool Account.

Lemma opens_db_tx {A} n (body : M (DB:=DB) (Pool:=Pool) A) :
  respects (R:=extends anyEvent) body -> opens n (db_tx n body).
Proof.
  intros Hb s. unfold db_tx.
  destruct (Hb (record (DbTx n) s)) as [evs [Ht _]].
  destruct (body (record (DbTx n) s)) as [[a | e | c] s1]; simpl in *;
    rewrite Ht, <- app_assoc; simpl.
  - exists (evs ++ [DbCommit n]). rewrite <- app_assoc. reflexivity.
  - exists (evs ++ [DbRollback n]). rewrite <- app_assoc. reflexivity.
  - exists evs. reflexivity.
Qed.

Lemma opens_then {A} n (m : M (DB:=DB) (Pool:=Pool) A) (s s' : State DB Pool) :
  opens n m -> extends anyEvent (snd (m s)) s' ->
  exists evs, trace s' = trace s ++ DbTx n :: evs.
Proof.
  intros Hm [evs' [Ht _]]. destruct (Hm s) as [evs Hs].
  exists (evs ++ evs'). rewrite Ht, Hs, <- app_assoc. reflexivity.
Qed.

Lemma opens_bind {A B} n (m : M (DB:=DB) (Pool:=Pool) A) (k : A -> M B) :
  opens n m -> (forall a, respects (R:=extends anyEvent) (k a)) ->
  opens n (bind m k).
Proof.
  intros Hm Hk s. unfold bind.
  pose proof (fun s' => opens_then n m s s' Hm) as Ho.
  destruct (m s) as [[a | e | c] s1]; simpl in *.
  - apply Ho, Hk.
  - apply Ho, extends_refl.
  - apply Ho, extends_refl.
Qed.

Lemma opens_catch {A} n (m : M (DB:=DB) (Pool:=Pool) A) (h : Err -> M A) :
  opens n m -> (forall e, respects (R:=extends anyEvent) (h e)) ->
  opens n (catch m h).
Proof.
  intros Hm Hk s. unfold catch.
  pose proof (fun s' => opens_then n m s s' Hm) as Ho.
  destruct (m s) as [[a | e | c] s1]; simpl in *.
  - apply Ho, extends_refl.
  - apply Ho, Hk.
  - apply Ho, extends_refl.
Qed.

Section PopFrames.
Context {R : State DB Pool -> State DB Pool -> Prop} {okE : Event -> Prop}
  {actFree : Prop} {FR : Frame R okE True actFree}.

Lemma respects_deleteBlock id : respects (R:=R) (deleteBlock E id).
Proof. unfold deleteBlock. frame. Qed.

Lemma respects_popLastBlockTx : respects (R:=R) (popLastBlockTx E).
Proof.
  unfold popLastBlockTx, loadSecondLastBlockStep, undoStep, undoUnconfirmStep,
    backwardTickStep, deleteBlockStep.
  frame; apply respects_deleteBlock.
Qed.

End PopFrames.

Lemma opens_popLastBlock : opens "Chain:deleteBlock" (popLastBlock E).
Proof.
  unfold popLastBlock. apply opens_catch.
  - apply opens_db_tx, respects_popLastBlockTx.
  - intros e. frame.
Qed.

Lemma popLastBlock_never_fails s e : fst (popLastBlock E s) <> Failed e.
Proof.
  unfold popLastBlock, catch.
  destruct (db_tx "Chain:deleteBlock" (popLastBlockTx E) s) as [[a | e' | c] s1];
    simpl; discriminate.
Qed.

(** deleteLastBlock past its guard, in terms of popLastBlock and of the
    pool's answer. *)
Lemma deleteLastBlock_past_guard (s : State DB Pool) :
  b_height (lastBlock s) <> 1 ->
  deleteLastBlock E s =
  match popLastBlock E (record (Log warn "Deleting last block") s) with
  | (Done p, s1) =>
      let (r, pl) :=
        transactions_receiveTransactions E
          (rev (b_transactions (lastBlock s1))) false (pool s1) in
      (Done p, reinserted p r pl s1)
  | (Failed e, s1) =>
      (Failed e, record (Log error "Error deleting last block") s1)
  | (Exited c, s1) => (Exited c, s1)
  end.
Proof.
  intros Hh. unfold deleteLastBlock.
  unfold bind at 1. unfold lastBlock_get at 1. cbv beta iota.
  unfold bind at 1. unfold logger at 1, emit at 1. cbv beta iota.
  apply Z.eqb_neq in Hh. rewrite Hh.
  unfold bind at 1. unfold catch at 1.
  destruct (popLastBlock E (record (Log warn "Deleting last block") s))
    as [[p | e | c] s1]; try reflexivity.
  unfold bind at 1. unfold reverseTransactions at 1. cbv beta iota zeta.
  unfold bind at 1. unfold catch at 1, pool_call at 1. simpl.
  destruct (transactions_receiveTransactions E
              (rev (b_transactions (lastBlock s1))) false (pool s1)) as [[[] | e] pl];
    reflexivity.
Qed.

Lemma deleteLastBlock_at_genesis (s : State DB Pool) :
  b_height (lastBlock s) = 1 ->
  deleteLastBlock E s =
  (Failed (ErrString "Cannot delete genesis block"),
   record (Log warn "Deleting last block") s).
Proof.
  intros Hh. apply Z.eqb_eq in Hh.
  unfold deleteLastBlock, bind. simpl. rewrite Hh. reflexivity.
Qed.

End DeleteLastBlockFacts.

(** C8. Heights start at 1, the height of the genesis block. deleteLastBlock
    called when the height of the block in the Last-Block Register is not
    greater than 1 fails with the cannot-delete-genesis error and changes
    nothing: no persistence transaction is opened, nothing is undone,
    register, storage, pool and flag are as before (one warning is logged).
    For every tip of height greater than 1 the guard does not fire: the
    persistence transaction is opened and the error is not that one. *)
Theorem deleteLastBlock_genesis_guard {DB Pool Account}
    (E : Env DB Pool Account) (s : State DB Pool) :
  1 <= b_height (lastBlock s) ->
  (b_height (lastBlock s) <= 1 ->
   deleteLastBlock E s =
   (Failed (ErrString "Cannot delete genesis block"),
    record (Log warn "Deleting last block") s)) /\
  (1 < b_height (lastBlock s) ->
   fst (deleteLastBlock E s) <> Failed (ErrString "Cannot delete genesis block")
   /\ exists evs,
        trace (snd (deleteLastBlock E s)) =
        trace s ++ Log warn "Deleting last block" :: DbTx "Chain:deleteBlock" :: evs).
Proof.
  intros Hpos. split.
  - intros Hle. apply deleteLastBlock_at_genesis. lia.
  - intros Hgt.
    assert (Hh : b_height (lastBlock s) <> 1) by lia.
    rewrite (deleteLastBlock_past_guard E s Hh).
    pose proof (popLastBlock_never_fails E (record (Log warn "Deleting last block") s))
      as Hnf.
    destruct (opens_popLastBlock E (record (Log warn "Deleting last block") s))
      as [evs Ht].
    simpl in Ht. rewrite <- app_assoc in Ht. simpl in Ht.
    destruct (popLastBlock E (record (Log warn "Deleting last block") s))
      as [[p | e | c] s1]; simpl in *.
    + destruct (transactions_receiveTransactions E
                  (rev (b_transactions (lastBlock s1))) false (pool s1))
        as [r pl].
      split; [discriminate |]. simpl.
      destruct r; simpl; rewrite Ht, <- !app_assoc; simpl;
        eexists; reflexivity.
    + exfalso. apply (Hnf e). reflexivity.
    + split; [discriminate |]. exists evs. exact Ht.
Qed.

(** C8 on the small ledger: on a node whose tip is the genesis block, and
    on one whose tip has height 3. *)
Lemma deleteLastBlock_genesis_guard_witness :
  deleteLastBlock (Toy.env Toy.noFaults Toy.genesis) Toy.fresh =
  (Failed (ErrString "Cannot delete genesis block"),
   record (Log warn "Deleting last block") Toy.fresh) /\
  fst (deleteLastBlock (Toy.env Toy.noFaults Toy.genesis) Toy.applied)
  <> Failed (ErrString "Cannot delete genesis block").
Proof.
  split.
  - apply (deleteLastBlock_genesis_guard (Toy.env Toy.noFaults Toy.genesis) Toy.fresh);
      vm_compute; intros H; discriminate H.
  - apply (deleteLastBlock_genesis_guard (Toy.env Toy.noFaults Toy.genesis) Toy.applied);
      vm_compute; first [reflexivity | intros H; discriminate H].
Defined.

(** C10. When the persistence transaction of deleteLastBlock has committed
    (popLastBlock called back with the parent [p]) and the pool then fails
    to take the transactions back, deleteLastBlock still moves the
    Last-Block Register to [p] and calls back with [p] and no error; the
    pool's error is only logged. Outcome and register are what they are when
    the pool succeeds: the answer [r] of the pool shows in the log alone. *)
Theorem deleteLastBlock_swallows_pool_error {DB Pool Account}
    (E : Env DB Pool Account) (s s1 : State DB Pool) (p : Block)
    (r : result unit) (pl : Pool) :
  b_height (lastBlock s) <> 1 ->
  popLastBlock E (record (Log warn "Deleting last block") s) = (Done p, s1) ->
  transactions_receiveTransactions E
    (rev (b_transactions (lastBlock s1))) false (pool s1) = (r, pl) ->
  fst (deleteLastBlock E s) = Done p /\
  lastBlock (snd (deleteLastBlock E s)) = p /\
  trace (snd (deleteLastBlock E s)) =
    trace s1
    ++ Call (receiveTransactions_ (rev (b_transactions (lastBlock s1))) false)
    :: match r with
       | Ok _ => []
       | Fail _ => [Log error "Error adding transactions"]
       end
    ++ [LastBlockSet p].
Proof.
  intros Hh Hpop Hrecv.
  rewrite (deleteLastBlock_past_guard E s Hh), Hpop, Hrecv.
  simpl. split; [reflexivity |]. split; [reflexivity |].
  destruct r; simpl; rewrite <- ?app_assoc; reflexivity.
Qed.

(** C10 on the small ledger: the block [next] has been applied, and the
    pool refuses what deleteLastBlock hands back. *)
Lemma deleteLastBlock_swallows_pool_error_witness :
  fst (deleteLastBlock Toy.fullPoolEnv Toy.applied) = Done Toy.tip /\
  lastBlock (snd (deleteLastBlock Toy.fullPoolEnv Toy.applied)) = Toy.tip.
Proof.
  assert (Hh : b_height (lastBlock Toy.applied) <> 1) by (vm_compute; discriminate).
  pose proof
    (deleteLastBlock_swallows_pool_error Toy.fullPoolEnv Toy.applied
       (snd (popLastBlock Toy.fullPoolEnv
               (record (Log warn "Deleting last block") Toy.applied)))
       Toy.tip (Fail (ErrString "pool is full")) Toy.emptyPool
       Hh ltac:(vm_compute; reflexivity) ltac:(vm_compute; reflexivity)) as H.
  split; [exact (proj1 H) | exact (proj1 (proj2 H))].
Defined.

Section Yields.

Context {DB Pool X : Type}.
Context {R : list X -> State DB Pool -> State DB Pool -> Prop} {GR : Graded R}.

Lemma yields_eq {A} L L' (m : M A) : yields L m -> L = L' -> yields L' m.
Proof. intros H <-. exact H. Qed.

Lemma yields_ret {A} (a : A) : yields [] (ret a).
Proof. intros s a' s' H. inversion H. subst. apply gr_nil. Qed.

Lemma yields_reject {A} L e : yields L (reject (A:=A) e).
Proof. intros s a s' H. discriminate. Qed.

Lemma bind_Done_inv {A B} (m : M (DB:=DB) (Pool:=Pool) A) (k : A -> M B) s b s' :
  bind m k s = (Done b, s') ->
  exists a s1, m s = (Done a, s1) /\ k a s1 = (Done b, s').
Proof.
  unfold bind. destruct (m s) as [[a | e | c] s1]; intros H; try discriminate.
  exists a, s1. auto.
Qed.

Lemma catch_Done_inv {A} (m : M (DB:=DB) (Pool:=Pool) A) (h : Err -> M A) s a s' :
  rejects h -> catch m h s = (Done a, s') -> m s = (Done a, s').
Proof.
  intros Hh. unfold catch.
  destruct (m s) as [[a' | e | c] s1]; intros H; try discriminate; auto.
  exfalso. exact (Hh _ _ _ _ H).
Qed.

Lemma db_tx_Done_inv {A} n (body : M (DB:=DB) (Pool:=Pool) A) s a s' :
  db_tx n body s = (Done a, s') ->
  exists s1, body (record (DbTx n) s) = (Done a, s1) /\ s' = record (DbCommit n) s1.
Proof.
  unfold db_tx.
  destruct (body (record (DbTx n) s)) as [[a' | e | c] s1]; intros H;
    inversion H; subst.
  exists s1. auto.
Qed.

Lemma yields_bind {A B} L1 L2 (m : M A) (k : A -> M B) :
  yields L1 m -> (forall a, yields L2 (k a)) -> yields (L1 ++ L2) (bind m k).
Proof.
  intros Hm Hk s b s' H.
  apply bind_Done_inv in H. destruct H as [a [s1 [H1 H2]]].
  eapply gr_app; [eapply Hm, H1 | eapply Hk, H2].
Qed.

Lemma yields_catch {A} L (m : M A) (h : Err -> M A) :
  yields L m -> rejects h -> yields L (catch m h).
Proof.
  intros Hm Hh s a s' H. apply catch_Done_inv in H; auto. eapply Hm, H.
Qed.

Lemma yields_db_tx {A} L0 L L1 n (body : M A) :
  (forall s, R L0 s (record (DbTx n) s)) ->
  yields L body ->
  (forall s, R L1 s (record (DbCommit n) s)) ->
  yields (L0 ++ L ++ L1) (db_tx n body).
Proof.
  intros H0 Hb H1 s a s' H.
  apply db_tx_Done_inv in H. destruct H as [s1 [Hr ->]].
  eapply gr_app; [apply H0 |].
  eapply gr_app; [eapply Hb, Hr | apply H1].
Qed.

Lemma yields_eachSeries {A} (g : A -> list X) (f : A -> M unit) l :
  (forall x, yields (g x) (f x)) -> yields (flat_map g l) (eachSeries f l).
Proof.
  intros Hf. induction l as [| x l IH]; simpl.
  - apply yields_ret.
  - apply yields_bind; auto.
Qed.

Lemma batch_Done_inv (m : M (DB:=DB) (Pool:=Pool) unit) r s a s' :
  batch (m :: r) s = (Done a, s') ->
  exists s1, m s = (Done tt, s1) /\ batch r s1 = (Done a, s').
Proof.
  simpl. destruct (m s) as [[[] | e | c] s1]; intros H.
  - exists s1. auto.
  - destruct (batch r s1) as [[[] | e' | c] s2]; discriminate.
  - discriminate.
Qed.

Lemma yields_batch_nil : yields [] (batch []).
Proof. apply yields_ret. Qed.

Lemma yields_batch_cons L1 L2 (m : M unit) r :
  yields L1 m -> yields L2 (batch r) -> yields (L1 ++ L2) (batch (m :: r)).
Proof.
  intros H1 H2 s a s' H. apply batch_Done_inv in H.
  destruct H as [s1 [Hm Hr]].
  eapply gr_app; [eapply H1, Hm | eapply H2, Hr].
Qed.

End Yields.

(** Handlers of the form [log ;; ... ;; reject e] reject. *)
Ltac rejects_tac :=
  let e := fresh in let s := fresh in let a := fresh in let s' := fresh in
  intros e s a s'; unfold bind, logger, emit, reject; simpl;
  try discriminate.

#[export] Instance selects_Graded {DB Pool} sel : Graded (@selects DB Pool sel).
Proof.
  constructor.
  - intros s. exists []. rewrite app_nil_r. auto.
  - intros l1 l2 s1 s2 s3 [e1 [H1 F1]] [e2 [H2 F2]]. exists (e1 ++ e2). split.
    + rewrite H2, H1, app_assoc. reflexivity.
    + rewrite filter_app, F1, F2. reflexivity.
Qed.

Section Selects.

Context {DB Pool Account : Type}.
Variable E : Env DB Pool Account.
Variable sel : Event -> bool.

(** A step that adds exactly the event [e] to the trace. *)
Lemma selects_one {A} (m : M (DB:=DB) (Pool:=Pool) A) e :
  (forall s, trace (snd (m s)) = trace s ++ [e]) ->
  yields (R:=selects (DB:=DB) (Pool:=Pool) sel) (filter sel [e]) m.
Proof.
  intros Hm s a s' H. exists [e]. split; [| reflexivity].
  rewrite <- (Hm s), H. reflexivity.
Qed.

Lemma selects_record e (s : State DB Pool) :
  selects sel (filter sel [e]) s (record e s).
Proof. exists [e]. auto. Qed.

Lemma selects_emit e : yields (R:=selects (DB:=DB) (Pool:=Pool) sel) (filter sel [e]) (emit e).
Proof. apply selects_one. reflexivity. Qed.

Lemma selects_lastBlock_set b :
  yields (R:=selects (DB:=DB) (Pool:=Pool) sel) (filter sel [LastBlockSet b]) (lastBlock_set b).
Proof. apply selects_one. reflexivity. Qed.

Lemma selects_isActive_set v :
  yields (R:=selects (DB:=DB) (Pool:=Pool) sel) (filter sel [IsActiveSet v]) (isActive_set v).
Proof. apply selects_one. reflexivity. Qed.

Lemma selects_db_call {A} c (f : DB -> result A * DB) :
  yields (R:=selects (DB:=DB) (Pool:=Pool) sel) (filter sel [Call c]) (db_call c f).
Proof.
  apply selects_one. intros s. unfold db_call. destruct (f (db s)). reflexivity.
Qed.

Lemma selects_db_read {A} c (f : DB -> result A) :
  yields (R:=selects (DB:=DB) (Pool:=Pool) sel) (filter sel [Call c]) (db_read c f).
Proof. apply selects_one. reflexivity. Qed.

Lemma selects_pool_call {A} c (f : Pool -> result A * Pool) :
  yields (R:=selects (DB:=DB) (Pool:=Pool) sel) (filter sel [Call c]) (pool_call c f).
Proof.
  apply selects_one. intros s. unfold pool_call. destruct (f (pool s)). reflexivity.
Qed.

Lemma selects_removeUnconfirmedTransaction id :
  yields (R:=selects (DB:=DB) (Pool:=Pool) sel) (filter sel [Call (removeUnconfirmedTransaction_ id)])
    (removeUnconfirmedTransaction E id).
Proof. apply selects_one. reflexivity. Qed.

End Selects.

(** Computes the events of interest of an operation combinator by
    combinator. *)
Ltac yield_step :=
  first
    [ apply yields_ret
    | apply yields_reject
    | apply selects_db_call
    | apply selects_db_read
    | apply selects_pool_call
    | apply selects_lastBlock_set
    | apply selects_isActive_set
    | apply selects_removeUnconfirmedTransaction
    | apply selects_emit
    | eapply yields_bind; [| intros ? ]
    | eapply yields_catch; [| rejects_tac ]
    | eapply yields_eachSeries; intros ?
    | apply yields_batch_nil
    | eapply yields_batch_cons ].

(** ** applyBlock: where the register moves and [newBlock] goes out *)

Section ApplyBlockRegister.

Context {DB Pool Account : Type}.
Variable E : Env DB Pool Account.

Lemma applyBlockTx_applySteps b sv (s : State DB Pool) :
  applyBlockTx E b sv s = (applySteps E b ;; saveBlockStep E b sv) s.
Proof.
  unfold applyBlockTx, applySteps, bind. simpl.
  destruct (applyUnconfirmedStep E b _) as [[[] | e | c] s1]; reflexivity.
Qed.

Lemma neverExits_applySteps b : neverExits (applySteps E b).
Proof.
  unfold applySteps, applyUnconfirmedStep, applyConfirmedStep, logger. noexit.
Qed.

Lemma neverExits_undoUnconfirmedListStep : neverExits (undoUnconfirmedListStep E).
Proof.
  unfold undoUnconfirmedListStep, logger.
  apply neverExits_catch; [| intros e; noexit].
  intros s c. destruct (transactions_undoUnconfirmedList E (pool s) (db s)) as [r [p d]].
  simpl. apply of_result_not_Exited.
Qed.

Lemma applyBlockRejected_fails reason (s : State DB Pool) :
  fst (applyBlockRejected reason s) = Failed reason
  /\ db (snd (applyBlockRejected reason s)) = db s.
Proof.
  unfold applyBlockRejected, bind. simpl.
  destruct (isSnapshotFinished reason); simpl; auto.
Qed.

Lemma register_after_write {A} (w : M unit) (m : M (DB:=DB) (Pool:=Pool) A) b' :
  (forall s, fst (w s) = Done tt /\ lastBlock (snd (w s)) = b') ->
  respects (R:=keepsRegister) m ->
  forall s, lastBlock (snd ((w ;; m) s)) = b'.
Proof.
  intros Hw Hm s. unfold bind. destruct (Hw s) as [H1 H2].
  destruct (w s) as [[[] | e | c] s1]; simpl in *; try discriminate.
  rewrite (Hm s1). exact H2.
Qed.

(** The register after the save-block step, however the step ends. *)
Lemma saveBlockStep_register b sv (s : State DB Pool) :
  lastBlock (snd (saveBlockStep E b sv s)) = savedBlock b sv.
Proof.
  unfold saveBlockStep, savedBlock. destruct sv.
  - unfold bind at 1. unfold lastBlock_set at 1. cbv beta iota.
    apply register_after_write.
    + intros s'. split; reflexivity.
    + unfold logger, bus_message.
      apply respects_bind; [| intros ? ].
      { apply respects_catch; [| intros ?; frame].
        eapply respects_saveBlock; first [exact _ | intros; exact I]. }
      frame.
  - apply register_after_write.
    + intros s'. split; reflexivity.
    + frame.
Qed.

Lemma bind_Failed {A B} (m : M (DB:=DB) (Pool:=Pool) A) (k : A -> M B) s e s1 :
  m s = (Failed e, s1) -> bind m k s = (Failed e, s1).
Proof. intros H. unfold bind. rewrite H. reflexivity. Qed.

(** applyBlock in terms of its undo-unconfirmed-pool step and of the body
    of its persistence transaction. *)
Lemma applyBlock_unfold b sv (s : State DB Pool) :
  applyBlock E b sv s =
  match undoUnconfirmedListStep E s with
  | (Done _, s0) =>
      match applyBlockTx E b sv (record (DbTx "Chain:applyBlock") s0) with
      | (Done _, s1) =>
          catch (applyBlockCommitted E b) applyBlockRejected
            (record (DbCommit "Chain:applyBlock") s1)
      | (Failed e, s1) =>
          applyBlockRejected e
            (record (DbRollback "Chain:applyBlock") (with_db (db s0) s1))
      | (Exited c, s1) => (Exited c, s1)
      end
  | (Failed e, s0) => (Failed e, s0)
  | (Exited c, s0) => (Exited c, s0)
  end.
Proof.
  unfold applyBlock. unfold bind at 1.
  destruct (undoUnconfirmedListStep E s) as [[[] | e | c] s0]; try reflexivity.
  unfold catch at 1, bind at 1, db_tx.
  destruct (applyBlockTx E b sv (record (DbTx "Chain:applyBlock") s0))
    as [[[] | e | c] s1]; reflexivity.
Qed.

Section EarlyFailure.
Context {R : State DB Pool -> State DB Pool -> Prop} {okE : Event -> Prop}
  {regFree : Prop} {FR : Frame R okE regFree True}.
Hypothesis okE_IsActiveSet : forall v, okE (IsActiveSet v).
Hypothesis okE_ProcessEmit : forall sg, okE (ProcessEmit sg).

Lemma respects_applySteps b : respects (R:=R) (applySteps E b).
Proof.
  unfold applySteps.
  apply respects_bind;
    [eapply respects_isActive_set; first [exact I | apply okE_IsActiveSet | exact _] |].
  intros _.
  apply respects_bind; [eapply respects_applyUnconfirmedStep; exact _ |].
  intros _. eapply respects_applyConfirmedStep; exact _.
Qed.

Lemma respects_applyBlockRejected reason :
  respects (R:=R) (applyBlockRejected reason).
Proof.
  unfold applyBlockRejected.
  apply respects_bind;
    [eapply respects_isActive_set; first [exact I | apply okE_IsActiveSet | exact _] |].
  intros _.
  apply respects_bind; [| intros _; apply respects_reject].
  destruct (isSnapshotFinished reason); [| apply respects_ret].
  apply respects_bind; [apply respects_logger |]. intros _.
  eapply respects_process_emit; first [apply okE_ProcessEmit | exact _].
Qed.

(** A run that does not get to the save-block step fails, and is made of
    steps the relation allows. *)
Lemma applyBlock_before_save b sv (s : State DB Pool) :
  reachesSaveBlockStep E b s = false ->
  R s (snd (applyBlock E b sv s)) /\ exists e, fst (applyBlock E b sv s) = Failed e.
Proof.
  unfold reachesSaveBlockStep. rewrite applyBlock_unfold.
  pose proof (respects_undoUnconfirmedListStep (R:=R) E s) as Hu.
  pose proof (neverExits_undoUnconfirmedListStep s) as Hxu.
  destruct (undoUnconfirmedListStep E s) as [[[] | e | c] s0]; simpl in Hu, Hxu.
  - pose proof (respects_applySteps b (record (DbTx "Chain:applyBlock") s0)) as Ha.
    pose proof (neverExits_applySteps b (record (DbTx "Chain:applyBlock") s0)) as Hxa.
    rewrite applyBlockTx_applySteps.
    destruct (applySteps E b (record (DbTx "Chain:applyBlock") s0))
      as [[[] | e | c] s2] eqn:Hrun; simpl in Ha, Hxa; intros H;
      try discriminate.
    + rewrite (bind_Failed _ _ _ _ _ Hrun).
      destruct (applyBlockRejected_fails e
                  (record (DbRollback "Chain:applyBlock") (with_db (db s0) s2)))
        as [Hf _].
      split; [| exists e; exact Hf].
      eapply fr_trans; [exact Hu |].
      eapply fr_trans; [apply fr_record, fr_DbTx |].
      eapply fr_trans; [exact Ha |].
      eapply fr_trans; [apply fr_db |].
      eapply fr_trans; [apply fr_record, fr_DbRollback |].
      apply respects_applyBlockRejected.
    + exfalso. apply (Hxa c). reflexivity.
  - intros _. split; [exact Hu | exists e; reflexivity].
  - exfalso. apply (Hxu c). reflexivity.
Qed.

End EarlyFailure.

Lemma rejects_applyBlockRejected :
  rejects (DB:=DB) (Pool:=Pool) (applyBlockRejected (DB:=DB) (Pool:=Pool)).
Proof.
  intros e s a s' H. destruct (applyBlockRejected_fails e s) as [Hf _].
  rewrite H in Hf. discriminate.
Qed.

Lemma flat_map_nil {A B} (l : list A) : flat_map (fun _ : A => @nil B) l = [].
Proof. induction l; simpl; auto. Qed.

Lemma milestones_undoUnconfirmedListStep :
  yields (R:=selects (DB:=DB) (Pool:=Pool) milestone) []
    (undoUnconfirmedListStep E).
Proof.
  unfold undoUnconfirmedListStep. apply yields_catch; [| rejects_tac].
  apply (selects_one milestone _ (Call undoUnconfirmedList_)).
  intros s. destruct (transactions_undoUnconfirmedList E (pool s) (db s)) as [r [p d]].
  reflexivity.
Qed.

Lemma milestones_applySteps b :
  yields (R:=selects (DB:=DB) (Pool:=Pool) milestone) [] (applySteps E b).
Proof.
  unfold applySteps, applyUnconfirmedStep, applyConfirmedStep.
  eapply yields_eq; [repeat yield_step |].
  simpl. rewrite !flat_map_nil. reflexivity.
Qed.

Lemma milestones_saveBlock b :
  yields (R:=selects (DB:=DB) (Pool:=Pool) milestone) [] (saveBlock E b true).
Proof.
  unfold saveBlock, afterSave, saveBlockPromises, bus_message.
  destruct (0 <? _).
  - eapply yields_eq; [repeat yield_step |].
    simpl. rewrite !flat_map_nil. reflexivity.
  - eapply yields_eq; [repeat yield_step |].
    simpl. rewrite !flat_map_nil. reflexivity.
Qed.

Lemma milestones_saveBlockStep b sv :
  yields (R:=selects (DB:=DB) (Pool:=Pool) milestone)
    [LastBlockSet b; BusMessage "newBlock" (PBlock (savedBlock b sv))]
    (saveBlockStep E b sv).
Proof.
  unfold saveBlockStep, savedBlock, bus_message. destruct sv.
  - eapply yields_eq.
    + eapply yields_bind; [apply selects_lastBlock_set | intros _].
      eapply yields_bind; [| intros _].
      { instantiate (1 := []). intros s a s' H. inversion H. subst.
        exists []. rewrite app_nil_r. auto. }
      eapply yields_bind; [| intros _].
      { eapply yields_catch; [apply milestones_saveBlock | rejects_tac]. }
      repeat yield_step.
    + reflexivity.
  - eapply yields_eq; [repeat yield_step | reflexivity].
Qed.

Lemma milestones_applyBlockCommitted b :
  yields (R:=selects (DB:=DB) (Pool:=Pool) milestone) []
    (applyBlockCommitted E b).
Proof.
  unfold applyBlockCommitted.
  eapply yields_eq; [repeat yield_step |].
  simpl. rewrite !flat_map_nil. reflexivity.
Qed.

(** The milestones of a successful run, in order. *)
Lemma applyBlock_milestones b sv :
  yields (R:=selects (DB:=DB) (Pool:=Pool) milestone)
    [LastBlockSet b;
     BusMessage "newBlock" (PBlock (savedBlock b sv));
     DbCommit "Chain:applyBlock"]
    (applyBlock E b sv).
Proof.
  unfold applyBlock.
  eapply yields_eq.
  - eapply yields_bind; [apply milestones_undoUnconfirmedListStep | intros _].
    eapply yields_catch; [| apply rejects_applyBlockRejected].
    eapply yields_bind; [| intros _; apply milestones_applyBlockCommitted].
    eapply (yields_db_tx (filter milestone [DbTx "Chain:applyBlock"]) _
              (filter milestone [DbCommit "Chain:applyBlock"])).
    + intros s. apply selects_record.
    + intros s a s' H. rewrite applyBlockTx_applySteps in H. revert s a s' H.
      eapply yields_bind; [apply milestones_applySteps | intros _].
      apply milestones_saveBlockStep.
    + intros s. apply selects_record.
  - reflexivity.
Qed.

End ApplyBlockRegister.

Section ApplyBlockOutcome.

Context {DB Pool Account : Type}.
Variable E : Env DB Pool Account.

Lemma applyBlock_Done_register b sv (s : State DB Pool) :
  fst (applyBlock E b sv s) = Done tt ->
  lastBlock (snd (applyBlock E b sv s)) = savedBlock b sv.
Proof.
  rewrite applyBlock_unfold.
  destruct (undoUnconfirmedListStep E s) as [[[] | e | c] s0]; try discriminate.
  pose proof (saveBlockStep_register E b sv) as Hreg.
  destruct (applyBlockTx E b sv (record (DbTx "Chain:applyBlock") s0))
    as [[[] | e | c] s1] eqn:Htx; try discriminate.
  - intros _.
    assert (Hk : respects (R:=keepsRegister)
                   (catch (applyBlockCommitted E b)
                      (applyBlockRejected (DB:=DB) (Pool:=Pool)))).
    { apply respects_catch.
      - unfold applyBlockCommitted. frame.
      - intros e. eapply respects_applyBlockRejected; first [exact _ | intros; exact I]. }
    rewrite (Hk _). simpl.
    rewrite applyBlockTx_applySteps in Htx.
    apply bind_Done_inv in Htx. destruct Htx as [a [s2 [_ Hs]]].
    rewrite <- (Hreg s2), Hs. reflexivity.
  - intros H.
    destruct (applyBlockRejected_fails e
                (record (DbRollback "Chain:applyBlock") (with_db (db s0) s1)))
      as [Hf _].
    rewrite Hf in H. discriminate.
Qed.

Lemma applyBlock_Failed_rollback b sv (s : State DB Pool) e :
  fst (applyBlock E b sv s) = Failed e ->
  db (snd (applyBlock E b sv s)) = db (snd (undoUnconfirmedListStep E s)).
Proof.
  rewrite applyBlock_unfold.
  destruct (undoUnconfirmedListStep E s) as [[[] | e0 | c] s0]; try discriminate;
    [| reflexivity].
  destruct (applyBlockTx E b sv (record (DbTx "Chain:applyBlock") s0))
    as [[[] | e1 | c] s1]; try discriminate.
  - unfold catch.
    pose proof (applyBlockCommitted_done E b
                  (record (DbCommit "Chain:applyBlock") s1)) as Hd.
    destruct (applyBlockCommitted E b (record (DbCommit "Chain:applyBlock") s1))
      as [[[] | e1 | c] s2]; simpl in Hd; discriminate.
  - intros _.
    destruct (applyBlockRejected_fails e1
                (record (DbRollback "Chain:applyBlock") (with_db (db s0) s1)))
      as [_ Hdb].
    rewrite Hdb. reflexivity.
Qed.

End ApplyBlockOutcome.

(** C1, as the code has it. applyBlock writes the Last-Block Register and
    emits [newBlock] in its save-block step, that is inside the persistence
    transaction and before it commits. When a run ends before that step
    (the undo-unconfirmed-pool step, the apply-unconfirmed step or the
    apply-confirmed step fails), it fails, the register still holds the
    pre-apply tip and neither a register write nor a [newBlock] message is
    among its effects. When a run succeeds, the register holds the new block
    and its register writes, [newBlock] messages and commits are, in this
    order: the register set to the block, [newBlock] for it, the commit.
    Whenever a run fails, storage is what the undo-unconfirmed-pool step
    left: everything written inside the transaction is rolled back. *)
Theorem applyBlock_register_and_newBlock {DB Pool Account}
    (E : Env DB Pool Account) (block : Block) (saveBlockFlag : bool)
    (s : State DB Pool) :
  (reachesSaveBlockStep E block s = false ->
   (exists e, fst (applyBlock E block saveBlockFlag s) = Failed e) /\
   lastBlock (snd (applyBlock E block saveBlockFlag s)) = lastBlock s /\
   exists evs,
     trace (snd (applyBlock E block saveBlockFlag s)) = trace s ++ evs /\
     Forall quiet evs) /\
  (fst (applyBlock E block saveBlockFlag s) = Done tt ->
   lastBlock (snd (applyBlock E block saveBlockFlag s))
     = savedBlock block saveBlockFlag /\
   exists evs,
     trace (snd (applyBlock E block saveBlockFlag s)) = trace s ++ evs /\
     filter milestone evs =
       [LastBlockSet block;
        BusMessage "newBlock" (PBlock (savedBlock block saveBlockFlag));
        DbCommit "Chain:applyBlock"]) /\
  (forall e,
     fst (applyBlock E block saveBlockFlag s) = Failed e ->
     db (snd (applyBlock E block saveBlockFlag s))
       = db (snd (undoUnconfirmedListStep E s))).
Proof.
  split; [| split].
  - intros H.
    destruct (applyBlock_before_save (R:=keepsRegister) (okE:=anyEvent) E
                (fun _ => I) (fun _ => I)
                block saveBlockFlag s H) as [Hreg Hfail].
    destruct (applyBlock_before_save (R:=extends quiet) (okE:=quiet) E
                (fun _ => I) (fun _ => I)
                block saveBlockFlag s H) as [Hq _].
    auto.
  - intros H. split; [apply applyBlock_Done_register, H |].
    destruct (applyBlock E block saveBlockFlag s) as [r s'] eqn:Hrun.
    simpl in H. subst r.
    exact (applyBlock_milestones E block saveBlockFlag s tt s' Hrun).
  - intros e. apply applyBlock_Failed_rollback.
Qed.

(** C1 on the small ledger: a block whose transfer cannot be paid fails in
    the apply-unconfirmed step, and the block [next] is applied. *)
Lemma applyBlock_register_and_newBlock_witness :
  (lastBlock
     (snd (applyBlock Toy.tickFailsEnv Toy.overdraft true (Toy.start Toy.emptyPool)))
   = Toy.tip) /\
  (lastBlock
     (snd (applyBlock (Toy.env Toy.noFaults Toy.genesis) Toy.next true
             (Toy.start Toy.emptyPool)))
   = Toy.next).
Proof.
  split.
  - exact (proj1 (proj2
             (proj1 (applyBlock_register_and_newBlock Toy.tickFailsEnv
                       Toy.overdraft true (Toy.start Toy.emptyPool))
                ltac:(vm_compute; reflexivity)))).
  - exact (proj1
             (proj1 (proj2 (applyBlock_register_and_newBlock
                              (Toy.env Toy.noFaults Toy.genesis) Toy.next true
                              (Toy.start Toy.emptyPool)))
                ltac:(vm_compute; reflexivity))).
Defined.

(** C1 as stated fails when the round tick (or the save) fails: the
    persistence transaction rolls back and storage is as before, yet the
    register holds the failed block and [newBlock] has gone out for it. *)
Lemma applyBlock_tick_failure_moves_register :
  let r := applyBlock Toy.tickFailsEnv Toy.next true (Toy.start Toy.emptyPool) in
  fst r = Failed (ErrString "round tick failed") /\
  In (DbRollback "Chain:applyBlock") (trace (snd r)) /\
  db (snd r) = Toy.storage /\
  lastBlock (Toy.start Toy.emptyPool) = Toy.tip /\
  lastBlock (snd r) = Toy.next /\
  Toy.next <> Toy.tip /\
  In (BusMessage "newBlock" (PBlock Toy.next)) (trace (snd r)).
Proof. run_ledger. Qed.

(** C5, as the code has it. When the error that aborts applyBlock's
    persistence transaction is the sentinel named 'Snapshot finished',
    applyBlock clears the Is-Active flag, logs the sentinel and emits
    SIGTERM to the process, and then hands the sentinel to its caller as the
    error of the callback, like any other failure. *)
Theorem applyBlock_snapshot_finished {DB Pool Account}
    (E : Env DB Pool Account) (block : Block) (saveBlockFlag : bool)
    (s s0 s1 : State DB Pool) (reason : Err) :
  undoUnconfirmedListStep E s = (Done tt, s0) ->
  db_tx "Chain:applyBlock" (applyBlockTx E block saveBlockFlag) s0
    = (Failed reason, s1) ->
  isSnapshotFinished reason = true ->
  applyBlock E block saveBlockFlag s =
  (Failed reason,
   record (ProcessEmit "SIGTERM")
     (record (Log info (err_toString reason))
        (record (IsActiveSet false) (with_isActive false s1)))).
Proof.
  intros Hu Htx Hsnap. unfold applyBlock.
  unfold bind at 1. rewrite Hu.
  unfold catch at 1, bind at 1. rewrite Htx.
  unfold applyBlockRejected, bind. simpl. rewrite Hsnap. reflexivity.
Qed.

(** C5 on the small ledger: the round tick ends the snapshot. *)
Lemma applyBlock_snapshot_finished_witness :
  fst (applyBlock Toy.snapshotEnv Toy.next true (Toy.start Toy.emptyPool))
  = Failed (ErrObject "Snapshot finished" "round 1").
Proof.
  rewrite (applyBlock_snapshot_finished Toy.snapshotEnv Toy.next true
             (Toy.start Toy.emptyPool)
             (snd (undoUnconfirmedListStep Toy.snapshotEnv (Toy.start Toy.emptyPool)))
             (snd (db_tx "Chain:applyBlock" (applyBlockTx Toy.snapshotEnv Toy.next true)
                     (snd (undoUnconfirmedListStep Toy.snapshotEnv
                             (Toy.start Toy.emptyPool)))))
             (ErrObject "Snapshot finished" "round 1")
             ltac:(vm_compute; reflexivity) ltac:(vm_compute; reflexivity)
             ltac:(vm_compute; reflexivity)).
  reflexivity.
Defined.

(** C5 as stated fails: the sentinel that aborted the transaction comes
    back to the caller as the error of the callback, after SIGTERM has been
    emitted. *)
Lemma applyBlock_snapshot_finished_is_reported :
  let r := applyBlock Toy.snapshotEnv Toy.next true (Toy.start Toy.emptyPool) in
  In (DbRollback "Chain:applyBlock") (trace (snd r)) /\
  In (ProcessEmit "SIGTERM") (trace (snd r)) /\
  fst r = Failed (ErrObject "Snapshot finished" "round 1") /\
  fst r <> Done tt.
Proof. run_ledger. Qed.

(** ** applyBlock does not look at the register *)
Section Oblivious.

Context {DB Pool Account : Type}.
Variable E : Env DB Pool Account.

Lemma oblivious_ret {A} (a : A) : oblivious (DB:=DB) (Pool:=Pool) (ret a).
Proof. intros s T. simpl. auto. Qed.

Lemma oblivious_reject {A} e : oblivious (DB:=DB) (Pool:=Pool) (reject (A:=A) e).
Proof. intros s T. simpl. auto. Qed.

Lemma oblivious_emit e : oblivious (DB:=DB) (Pool:=Pool) (emit e).
Proof. intros s T. simpl. auto. Qed.

Lemma oblivious_isActive_set v : oblivious (DB:=DB) (Pool:=Pool) (isActive_set v).
Proof. intros s T. simpl. auto. Qed.

Lemma oblivious_lastBlock_set b : oblivious (DB:=DB) (Pool:=Pool) (lastBlock_set b).
Proof. intros s T. simpl. auto. Qed.

Lemma oblivious_db_call {A} c (f : DB -> result A * DB) : oblivious (DB:=DB) (Pool:=Pool) (db_call c f).
Proof.
  intros s T. unfold db_call. simpl. destruct (f (db s)) as [r d]. simpl. auto.
Qed.

Lemma oblivious_db_read {A} c (f : DB -> result A) : oblivious (DB:=DB) (Pool:=Pool) (db_read c f).
Proof. intros s T. simpl. auto. Qed.

Lemma oblivious_removeUnconfirmedTransaction id :
  oblivious (removeUnconfirmedTransaction E id).
Proof. intros s T. simpl. auto. Qed.

Lemma oblivious_undoUnconfirmedListStep : oblivious (undoUnconfirmedListStep E).
Proof.
  intros s T. unfold undoUnconfirmedListStep, catch. simpl.
  destruct (transactions_undoUnconfirmedList E (pool s) (db s)) as [[[] | e] [p d]];
    simpl; auto.
Qed.

Lemma oblivious_bind {A B} (m : M (DB:=DB) (Pool:=Pool) A) (k : A -> M B) :
  oblivious m -> (forall a, oblivious (k a)) -> oblivious (bind m k).
Proof.
  intros Hm Hk s T. unfold bind. destruct (Hm s T) as [Hf Hs].
  destruct (m (with_lastBlock T s)) as [o1 s1].
  destruct (m s) as [o2 s2]. simpl in Hf, Hs. subst o1.
  destruct o2 as [a | e | c]; simpl; auto.
  destruct Hs as [-> | ->]; [auto | apply Hk].
Qed.

Lemma oblivious_catch {A} (m : M (DB:=DB) (Pool:=Pool) A) (h : Err -> M A) :
  oblivious m -> (forall e, oblivious (h e)) -> oblivious (catch m h).
Proof.
  intros Hm Hk s T. unfold catch. destruct (Hm s T) as [Hf Hs].
  destruct (m (with_lastBlock T s)) as [o1 s1].
  destruct (m s) as [o2 s2]. simpl in Hf, Hs. subst o1.
  destruct o2 as [a | e | c]; simpl; auto.
  destruct Hs as [-> | ->]; [auto | apply Hk].
Qed.

Lemma oblivious_db_tx {A} n (body : M (DB:=DB) (Pool:=Pool) A) : oblivious body -> oblivious (db_tx n body).
Proof.
  intros Hb s T. unfold db_tx.
  destruct (Hb (record (DbTx n) s) T) as [Hf Hs].
  change (record (DbTx n) (with_lastBlock T s))
    with (with_lastBlock T (record (DbTx n) s)).
  destruct (body (with_lastBlock T (record (DbTx n) s))) as [o1 s1].
  destruct (body (record (DbTx n) s)) as [o2 s2]. simpl in Hf, Hs. subst o1.
  destruct o2 as [a | e | c]; simpl;
    (split; [reflexivity |]); destruct Hs as [-> | ->]; auto.
Qed.

Lemma oblivious_eachSeries {A} (f : A -> M (DB:=DB) (Pool:=Pool) unit) l :
  (forall x, oblivious (f x)) -> oblivious (eachSeries f l).
Proof.
  intros Hf. induction l as [| x l IH]; simpl.
  - apply oblivious_ret.
  - apply oblivious_bind; auto.
Qed.

Lemma oblivious_batch (ms : list (M (DB:=DB) (Pool:=Pool) unit)) :
  Forall oblivious ms -> oblivious (batch ms).
Proof.
  induction 1 as [| m ms Hm _ IH]; simpl.
  - apply oblivious_ret.
  - intros s T. destruct (Hm s T) as [Hf Hs].
    destruct (m (with_lastBlock T s)) as [o1 s1].
    destruct (m s) as [o2 s2]. simpl in Hf, Hs. subst o1.
    destruct o2 as [a | e | c]; simpl; auto.
    + destruct Hs as [-> | ->]; [auto | apply IH].
    + destruct Hs as [-> | ->].
      * destruct (batch ms s2) as [[a | e' | c] s3]; simpl; auto.
      * destruct (IH s2 T) as [Hf' Hs'].
        destruct (batch ms (with_lastBlock T s2)) as [o3 s3].
        destruct (batch ms s2) as [o4 s4]. simpl in Hf', Hs'. subst o3.
        destruct o4; simpl; auto.
Qed.

End Oblivious.

Ltac oblivious_step :=
  first
    [ apply oblivious_ret
    | apply oblivious_reject
    | apply oblivious_db_call
    | apply oblivious_db_read
    | apply oblivious_removeUnconfirmedTransaction
    | apply oblivious_undoUnconfirmedListStep
    | apply oblivious_isActive_set
    | apply oblivious_lastBlock_set
    | apply oblivious_emit
    | apply oblivious_bind; [| intros ? ]
    | apply oblivious_catch; [| intros ? ]
    | apply oblivious_eachSeries; intros ?
    | apply oblivious_db_tx
    | apply oblivious_batch
    | match goal with |- oblivious (if ?c then _ else _) => destruct c end
    | match goal with |- Forall oblivious (if ?c then _ else _) => destruct c end
    | match goal with |- Forall oblivious _ => constructor end
    | match goal with |- oblivious (fun s => (Done tt, with_lastBlock _ s)) =>
        intros ? ?; simpl; auto end ].

Lemma oblivious_applyBlock {DB Pool Account} (E : Env DB Pool Account) b sv :
  oblivious (applyBlock E b sv).
Proof.
  unfold applyBlock, applyBlockTx, applyBlockCommitted, applyBlockRejected,
    applyUnconfirmedStep, applyConfirmedStep, saveBlockStep, saveBlock,
    saveBlockPromises, afterSave, logger, bus_message, process_emit.
  repeat oblivious_step.
Qed.

(** C3, as the code has it. applyBlock does not compare the block's
    previous-block id or its height with the tip; that is left to its
    callers. For every block, its outcome and what it does to the flag, to
    storage, to the pool and to the trace are the same whatever block the
    Last-Block Register holds, and when it succeeds the register holds the
    applied block, whether or not that block extends the tip. *)
Theorem applyBlock_ignores_tip {DB Pool Account} (E : Env DB Pool Account)
    (block : Block) (saveBlockFlag : bool) (s : State DB Pool) (tip : Block) :
  fst (applyBlock E block saveBlockFlag (with_lastBlock tip s))
    = fst (applyBlock E block saveBlockFlag s) /\
  sameButRegister (snd (applyBlock E block saveBlockFlag s))
    (snd (applyBlock E block saveBlockFlag (with_lastBlock tip s))) /\
  (fst (applyBlock E block saveBlockFlag s) = Done tt ->
   lastBlock (snd (applyBlock E block saveBlockFlag (with_lastBlock tip s)))
     = savedBlock block saveBlockFlag).
Proof.
  destruct (oblivious_applyBlock E block saveBlockFlag s tip) as [Hf Hs].
  split; [exact Hf |]. split.
  - unfold sameButRegister. destruct Hs as [-> | ->]; simpl; auto.
  - intros H. apply applyBlock_Done_register. rewrite Hf. exact H.
Qed.

(** C3 on the small ledger: [next] is applied the same way on a register
    that holds the genesis block instead of [tip]. *)
Lemma applyBlock_ignores_tip_witness :
  lastBlock
    (snd (applyBlock (Toy.env Toy.noFaults Toy.genesis) Toy.next true
            (with_lastBlock Toy.genesis (Toy.start Toy.emptyPool))))
  = Toy.next.
Proof.
  exact (proj2 (proj2 (applyBlock_ignores_tip (Toy.env Toy.noFaults Toy.genesis)
                         Toy.next true (Toy.start Toy.emptyPool) Toy.genesis))
           ltac:(vm_compute; reflexivity)).
Defined.

(** C3 as stated fails: a block with another parent and another height
    than the tip asks for is applied without error, is written to storage
    and becomes the tip. *)
Lemma applyBlock_accepts_stray_block :
  let s := Toy.start Toy.emptyPool in
  let r := applyBlock (Toy.env Toy.noFaults Toy.genesis) Toy.stray true s in
  b_previousBlock Toy.stray <> Some (b_id (lastBlock s)) /\
  b_height Toy.stray <> b_height (lastBlock s) + 1 /\
  fst r = Done tt /\
  lastBlock (snd r) = Toy.stray /\
  lastBlock (snd r) <> lastBlock s /\
  db (snd r) <> db s.
Proof. run_ledger. Qed.

(** ** deleteLastBlock: what is undone, and what goes back to the pool *)

Section PopLastBlock.

Context {DB Pool Account : Type}.
Variable E : Env DB Pool Account.

Lemma loadSecondLastBlockStep_Done id (s s' : State DB Pool) p :
  loadSecondLastBlockStep E id s = (Done p, s') ->
  s' = record (Call (loadBlocksPart_ id)) s /\
  exists rest, utils_loadBlocksPart E id (db s) = Ok (p :: rest).
Proof.
  unfold loadSecondLastBlockStep, bind, catch, db_read. simpl.
  destruct (utils_loadBlocksPart E id (db s)) as [[| q rest] | e]; simpl;
    intros H; inversion H; subst.
  split; [reflexivity | exists rest; reflexivity].
Qed.

Lemma selects_lastBlock_get sel :
  yields (R:=selects (DB:=DB) (Pool:=Pool) sel) [] lastBlock_get.
Proof.
  intros s a s' H. inversion H. subst. exists []. rewrite app_nil_r. auto.
Qed.

Lemma reinsertion_undo t :
  yields (R:=selects (DB:=DB) (Pool:=Pool) reinsertionEvent) (undoCalls t)
    (undoStep E t ;; undoUnconfirmStep E t).
Proof.
  unfold undoStep, undoUnconfirmStep, undoCalls.
  eapply yields_eq.
  - eapply yields_bind; [| intros _].
    + eapply yields_bind; [| intros sender].
      * eapply yields_catch; [apply selects_db_read | rejects_tac].
      * eapply yields_bind; [apply selects_lastBlock_get | intros old].
        eapply yields_catch; [apply selects_db_call | rejects_tac].
    + eapply yields_catch; [apply selects_db_call | rejects_tac].
  - reflexivity.
Qed.

Lemma reinsertion_deleteBlock id :
  yields (R:=selects (DB:=DB) (Pool:=Pool) reinsertionEvent) [] (deleteBlock E id).
Proof.
  unfold deleteBlock.
  eapply yields_eq;
    [eapply yields_catch; [apply selects_db_call | rejects_tac] | reflexivity].
Qed.

Lemma reinsertion_undoAll reversed previousBlock :
  yields (R:=selects (DB:=DB) (Pool:=Pool) reinsertionEvent)
    (flat_map undoCalls reversed) (undoAll E reversed previousBlock).
Proof.
  unfold undoAll, backwardTickStep, deleteBlockStep.
  eapply yields_eq.
  - eapply yields_bind;
      [apply yields_eachSeries; intros t; apply reinsertion_undo | intros _].
    eapply yields_bind; [| intros _].
    + eapply yields_bind; [apply selects_lastBlock_get | intros old].
      eapply (yields_catch []); [| rejects_tac].
      eapply yields_eq; [apply selects_db_call | reflexivity].
    + eapply yields_bind; [| intros _; apply yields_ret].
      eapply yields_bind; [apply selects_lastBlock_get | intros old].
      eapply yields_catch; [apply reinsertion_deleteBlock | rejects_tac].
  - simpl. rewrite app_nil_r. reflexivity.
Qed.

Lemma respects_undoAll_register reversed previousBlock :
  respects (R:=keepsRegister) (undoAll E reversed previousBlock).
Proof.
  unfold undoAll, undoStep, undoUnconfirmStep, backwardTickStep, deleteBlockStep,
    deleteBlock.
  frame.
Qed.

Lemma undoAll_value reversed previousBlock (s s' : State DB Pool) p :
  undoAll E reversed previousBlock s = (Done p, s') -> p = previousBlock.
Proof.
  unfold undoAll. intros H.
  apply bind_Done_inv in H. destruct H as [_ [s1 [_ H]]].
  apply bind_Done_inv in H. destruct H as [_ [s2 [_ H]]].
  apply bind_Done_inv in H. destruct H as [_ [s3 [_ H]]].
  inversion H. reflexivity.
Qed.

(** A successful body of popLastBlock's transaction: the parent is the
    first block the load found, the register's block has its transactions
    reversed, and the transactions were undone last one first. *)
Lemma popLastBlockTx_Done (s s' : State DB Pool) p :
  popLastBlockTx E s = (Done p, s') ->
  (exists rest,
     utils_loadBlocksPart E (b_previousBlock (lastBlock s)) (db s) = Ok (p :: rest)) /\
  lastBlock s' = reversedBlock (lastBlock s) /\
  selects reinsertionEvent (flat_map undoCalls (rev (b_transactions (lastBlock s))))
    s s'.
Proof.
  intros H.
  change (popLastBlockTx E s) with
    ((oldLastBlock <- lastBlock_get ;;
      previousBlock <- loadSecondLastBlockStep E (b_previousBlock oldLastBlock) ;;
      reversed <- reverseTransactions ;;
      undoAll E reversed previousBlock) s) in H.
  apply bind_Done_inv in H. destruct H as [old [s1 [Hget H]]].
  inversion Hget. subst old s1. clear Hget.
  apply bind_Done_inv in H. destruct H as [prev [s2 [Hload H]]].
  apply loadSecondLastBlockStep_Done in Hload. destruct Hload as [-> Hload].
  apply bind_Done_inv in H. destruct H as [reversed [s3 [Hrev H]]].
  inversion Hrev. subst reversed s3. clear Hrev.
  pose proof (undoAll_value _ _ _ _ _ H). subst p.
  split; [exact Hload |]. split.
  - pose proof (respects_undoAll_register
                  (rev (b_transactions (lastBlock s))) prev) as Hk.
    match type of H with ?m ?s0 = _ =>
      specialize (Hk s0); rewrite H in Hk; simpl in Hk end.
    exact Hk.
  - apply reinsertion_undoAll in H.
    destruct H as [evs [Ht Hf]]. simpl in Ht.
    exists (Call (loadBlocksPart_ (b_previousBlock (lastBlock s))) :: evs).
    split.
    + rewrite Ht, <- app_assoc. reflexivity.
    + simpl. exact Hf.
Qed.

End PopLastBlock.

Section DeleteLastBlockDone.

Context {DB Pool Account : Type}.
Variable E : Env DB Pool Account.

(** A successful deleteLastBlock, taken apart. *)
Lemma deleteLastBlock_Done (s sf : State DB Pool) p :
  deleteLastBlock E s = (Done p, sf) ->
  b_height (lastBlock s) <> 1 /\
  exists sb r pl,
    popLastBlockTx E
      (record (DbTx "Chain:deleteBlock") (record (Log warn "Deleting last block") s))
      = (Done p, sb) /\
    transactions_receiveTransactions E (b_transactions (lastBlock s)) false (pool sb)
      = (r, pl) /\
    sf = reinserted p r pl (record (DbCommit "Chain:deleteBlock") sb).
Proof.
  intros H.
  assert (Hh : b_height (lastBlock s) <> 1).
  { intros Hh. rewrite (deleteLastBlock_at_genesis E s Hh) in H. discriminate. }
  split; [exact Hh |].
  rewrite (deleteLastBlock_past_guard E s Hh) in H.
  destruct (popLastBlock E (record (Log warn "Deleting last block") s))
    as [[q | e | c] s1] eqn:Hpop; try discriminate.
  unfold popLastBlock in Hpop.
  apply catch_Done_inv in Hpop; [| intros ? ? ? ? ?; discriminate].
  apply db_tx_Done_inv in Hpop. destruct Hpop as [sb [Hb ->]].
  destruct (popLastBlockTx_Done E _ _ _ Hb) as [_ [Hreg _]].
  simpl in H. rewrite Hreg in H. simpl in H. rewrite rev_involutive in H.
  simpl in Hreg.
  destruct (transactions_receiveTransactions E (b_transactions (lastBlock s))
              false (pool sb)) as [r pl] eqn:Hrecv.
  inversion H. subst q.
  exists sb, r, pl. repeat split; auto.
Qed.

End DeleteLastBlockDone.

(** The undo calls, the commit, the call of the pool and the write of the
    register in a successful deleteLastBlock. *)
Lemma deleteLastBlock_Done_events {DB Pool Account}
    (E : Env DB Pool Account) (s sf : State DB Pool) (p : Block) :
  deleteLastBlock E s = (Done p, sf) ->
  exists evs,
    trace sf = trace s ++ evs /\
    filter reinsertionEvent evs =
      flat_map undoCalls (rev (b_transactions (lastBlock s)))
      ++ [DbCommit "Chain:deleteBlock";
          Call (receiveTransactions_ (b_transactions (lastBlock s)) false);
          LastBlockSet p].
Proof.
  intros H. apply deleteLastBlock_Done in H.
  destruct H as [_ [sb [r [pl [Hb [_ ->]]]]]].
  destruct (popLastBlockTx_Done E _ _ _ Hb) as [_ [Hreg [evs [Ht Hf]]]].
  simpl in Hreg, Ht, Hf.
  exists ([Log warn "Deleting last block"; DbTx "Chain:deleteBlock"] ++ evs
          ++ [DbCommit "Chain:deleteBlock";
              Call (receiveTransactions_ (b_transactions (lastBlock s)) false)]
          ++ match r with
             | Ok _ => []
             | Fail _ => [Log error "Error adding transactions"]
             end
          ++ [LastBlockSet p]).
  split.
  - unfold reinserted. simpl. rewrite Hreg. simpl. rewrite rev_involutive.
    destruct r; simpl; rewrite Ht, <- !app_assoc; reflexivity.
  - rewrite !filter_app. simpl. rewrite Hf.
    destruct r; reflexivity.
Qed.





(** ** saveGenesisBlock *)

Section SaveGenesisBlock.

Context {DB Pool Account : Type}.
Variable E : Env DB Pool Account.

Lemma dbOnly_db_call {A} c (f : DB -> result A * DB) :
  dbOnly (Pool:=Pool) (db_call c f).
Proof.
  intros s s' H. unfold db_call. rewrite H.
  destruct (f (db s')) as [r d]. simpl. auto.
Qed.

Lemma dbOnly_batch (ms : list (M (DB:=DB) (Pool:=Pool) unit)) :
  Forall dbOnly ms -> dbOnly (batch ms).
Proof.
  induction 1 as [| m ms Hm _ IH]; intros s s' H; simpl.
  - auto.
  - destruct (Hm s s' H) as [Hf Hd].
    destruct (m s) as [o1 s1]. destruct (m s') as [o2 s2].
    simpl in Hf, Hd. subst o2.
    destruct o1 as [[] | e | c]; simpl; auto.
    destruct (IH s1 s2 Hd) as [Hf' Hd'].
    destruct (batch ms s1) as [o3 s3]. destruct (batch ms s2) as [o4 s4].
    simpl in Hf', Hd'. subst o4. destruct o3; simpl; auto.
Qed.

Lemma dbOnly_saveBlockPromises b :
  Forall (dbOnly (Pool:=Pool)) (saveBlockPromises E b).
Proof.
  unfold saveBlockPromises. constructor; [apply dbOnly_db_call |].
  destruct (0 <? _); constructor; [apply dbOnly_db_call | constructor].
Qed.

Lemma batch_saveBlockPromises_trace b (s : State DB Pool) :
  trace (snd (batch (saveBlockPromises E b) s)) = trace s ++ saveBlockCalls b.
Proof.
  unfold saveBlockPromises, saveBlockCalls, db_call. simpl.
  destruct (db_blocks_save E b (db s)) as [[[] | e] d]; simpl;
    destruct (0 <? _); simpl;
    try (destruct (db_transactions_save E (b_transactions b) d) as [[[] | e'] d']);
    simpl; rewrite <- ?app_assoc; reflexivity.
Qed.

Lemma eachSeries_cons_run {A} (f : A -> M (DB:=DB) (Pool:=Pool) unit) x l s :
  eachSeries f (x :: l) s =
  match f x s with
  | (Done _, s') => eachSeries f l s'
  | (Failed e, s') => (Failed e, s')
  | (Exited c, s') => (Exited c, s')
  end.
Proof. reflexivity. Qed.

Lemma afterSave_quiet b (s : State DB Pool) :
  db (snd (afterSave E b s)) = db s /\
  exists evs, trace (snd (afterSave E b s)) = trace s ++ evs
              /\ filter persistEvent evs = [].
Proof.
  unfold afterSave.
  set (f := fun t => db_read (Pool:=Pool) (afterSave_ t)
                       (fun _ : DB => logic_afterSave E t)).
  assert (H : forall l (s : State DB Pool),
             db (snd (eachSeries f l s)) = db s
             /\ exists evs,
                  trace (snd (eachSeries f l s)) = trace s ++ evs
                  /\ filter persistEvent evs = []).
  { induction l as [| t l IH]; intros s0.
    - split; [reflexivity |]. exists []. simpl. rewrite app_nil_r. auto.
    - rewrite eachSeries_cons_run.
      assert (Hft : f t s0 = (of_result (logic_afterSave E t),
                              record (Call (afterSave_ t)) s0)) by reflexivity.
      rewrite Hft. clear Hft.
      destruct (logic_afterSave E t) as [[] | e]; cbn [of_result fst snd].
      + destruct (IH (record (Call (afterSave_ t)) s0)) as [Hd [evs [Ht Hf]]].
        split; [rewrite Hd; reflexivity |].
        exists (Call (afterSave_ t) :: evs). split.
        * rewrite Ht. simpl. rewrite <- app_assoc. reflexivity.
        * simpl. exact Hf.
      + split; [reflexivity |]. exists [Call (afterSave_ t)]. auto. }
  unfold bind, bus_message, emit.
  destruct (H (b_transactions b)
              (record (BusMessage "transactionsSaved" (PTransactions (b_transactions b))) s))
    as [Hd [evs [Ht Hf]]].
  split; [rewrite Hd; reflexivity |].
  exists (BusMessage "transactionsSaved" (PTransactions (b_transactions b)) :: evs).
  split.
  - rewrite Ht. simpl. rewrite <- app_assoc. reflexivity.
  - simpl. exact Hf.
Qed.

(** saveBlock without a running transaction, in terms of its batch. *)
Lemma saveBlock_own_tx b (s : State DB Pool) :
  saveBlock E b false s =
  match batch (saveBlockPromises E (assignBlockId b))
          (record (DbTx "Chain:saveBlock") s) with
  | (Done _, s1) =>
      afterSave E (assignBlockId b) (record (DbCommit "Chain:saveBlock") s1)
  | (Failed e, s1) =>
      (Failed (ErrString "Blocks#saveBlock error"),
       record (Log error (err_toString e))
         (record (DbRollback "Chain:saveBlock") (with_db (db s) s1)))
  | (Exited c, s1) => (Exited c, s1)
  end.
Proof.
  unfold saveBlock. unfold bind at 1, catch at 1, db_tx.
  destruct (batch (saveBlockPromises E (assignBlockId b))
              (record (DbTx "Chain:saveBlock") s)) as [[[] | e | c] s1];
    reflexivity.
Qed.

(** The batch resolves exactly when its writes succeed, and storage is
    then what the header write followed by the transactions write left. *)
Lemma batch_saveBlockPromises_Done b (s : State DB Pool) d1 d2 :
  db_blocks_save E b (db s) = (Ok tt, d1) ->
  (if 0 <? Z.of_nat (length (b_transactions b))
   then db_transactions_save E (b_transactions b) d1 = (Ok tt, d2)
   else d2 = d1) ->
  exists sb, batch (saveBlockPromises E b) s = (Done tt, sb) /\ db sb = d2.
Proof.
  intros H1 H2. unfold saveBlockPromises.
  cbn [batch]. unfold db_call at 1. rewrite H1. cbn [of_result].
  destruct (0 <? Z.of_nat (length (b_transactions b))).
  - cbn [batch]. unfold db_call. cbn [db record with_db]. rewrite H2.
    cbn [of_result ret]. eexists. split; reflexivity.
  - subst d2. cbn [batch ret]. eexists. split; reflexivity.
Qed.

Lemma batch_saveBlockPromises_Done_inv b (s sb : State DB Pool) :
  batch (saveBlockPromises E b) s = (Done tt, sb) ->
  exists d1 d2,
    db_blocks_save E b (db s) = (Ok tt, d1) /\
    (if 0 <? Z.of_nat (length (b_transactions b))
     then db_transactions_save E (b_transactions b) d1 = (Ok tt, d2)
     else d2 = d1) /\
    db sb = d2.
Proof.
  unfold saveBlockPromises. intros H.
  apply batch_Done_inv in H. destruct H as [s1 [H1 H]].
  unfold db_call in H1.
  destruct (db_blocks_save E b (db s)) as [[[] | e] d1] eqn:Hs;
    simpl in H1; inversion H1. subst s1. clear H1.
  exists d1.
  destruct (0 <? Z.of_nat (length (b_transactions b))).
  - apply batch_Done_inv in H. destruct H as [s2 [H2 H]].
    simpl in H. inversion H. subst sb. clear H.
    unfold db_call in H2. cbn [db record with_db] in H2.
    destruct (db_transactions_save E (b_transactions b) d1) as [[[] | e] d2] eqn:Ht;
      simpl in H2; inversion H2.
    exists d2. auto.
  - simpl in H. inversion H. exists d1. auto.
Qed.

(** The hooks that run after the save: all of them succeed, or the first
    failure is what afterSave calls back with. *)
Lemma afterSave_Done b (s : State DB Pool) :
  (forall t, In t (b_transactions b) -> logic_afterSave E t = Ok tt) ->
  fst (afterSave E b s) = Done tt.
Proof.
  intros Hok. unfold afterSave, bind, bus_message, emit.
  generalize (record (BusMessage "transactionsSaved"
                        (PTransactions (b_transactions b))) s).
  induction (b_transactions b) as [| t l IH]; intros s0; [reflexivity |].
  rewrite eachSeries_cons_run. unfold db_read at 1.
  rewrite (Hok t (or_introl eq_refl)). cbn [of_result].
  apply IH. intros t' Ht. apply Hok. right. exact Ht.
Qed.

(** saveGenesisBlock in terms of the lookup of the genesis id. *)
Lemma saveGenesisBlock_unfold (s : State DB Pool) :
  saveGenesisBlock E s =
  let s0 := record (Call (getGenesisBlockId_ (b_id (genesisblock E)))) s in
  match db_getGenesisBlockId E (b_id (genesisblock E)) (db s) with
  | Ok rows =>
      if genesisRowFound rows then (Done tt, s0)
      else saveBlock E (genesisblock E) false s0
  | Fail err =>
      (Failed (ErrString "Blocks#saveGenesisBlock error"),
       record (Log error (err_toString err)) s0)
  end.
Proof.
  unfold saveGenesisBlock. unfold bind at 1, catch at 1, db_read. cbv zeta.
  destruct (db_getGenesisBlockId E (b_id (genesisblock E)) (db s)) as [rows | e];
    simpl; [| reflexivity].
  destruct (genesisRowFound rows); reflexivity.
Qed.

End SaveGenesisBlock.

Section SaveGenesisBlockTwice.

Context {DB Pool Account : Type}.
Variable E : Env DB Pool Account.

(** What storage has to do for the lookup to see what was saved: a saved
    block with the genesis id is found, and saving transactions does not
    hide it. *)
Hypothesis saved_block_is_found : forall b d d',
  b_id b = b_id (genesisblock E) ->
  db_blocks_save E b d = (Ok tt, d') -> genesisFoundIn E d'.
Hypothesis saved_transactions_keep_it : forall ts d d',
  db_transactions_save E ts d = (Ok tt, d') ->
  genesisFoundIn E d -> genesisFoundIn E d'.

Lemma batch_Done_found (s sb : State DB Pool) :
  batch (saveBlockPromises E (assignBlockId (genesisblock E))) s = (Done tt, sb) ->
  genesisFoundIn E (db sb).
Proof.
  unfold saveBlockPromises. intros H.
  apply batch_Done_inv in H. destruct H as [s1 [H1 H]].
  assert (F1 : genesisFoundIn E (db s1)).
  { unfold db_call in H1.
    destruct (db_blocks_save E (assignBlockId (genesisblock E)) (db s))
      as [[[] | e] d] eqn:Hs; simpl in H1; inversion H1. subst s1. simpl.
    eapply saved_block_is_found; [| exact Hs]. reflexivity. }
  destruct (0 <? _).
  - apply batch_Done_inv in H. destruct H as [s2 [H2 H]].
    simpl in H. inversion H. subst sb.
    unfold db_call in H2.
    destruct (db_transactions_save E
                (b_transactions (assignBlockId (genesisblock E))) (db s1))
      as [[[] | e] d] eqn:Hs; simpl in H2; inversion H2. subst s2. simpl.
    eapply saved_transactions_keep_it; [exact Hs | exact F1].
  - simpl in H. inversion H. subst sb. exact F1.
Qed.

Lemma saveGenesisBlock_found (s : State DB Pool) :
  genesisFoundIn E (db s) ->
  saveGenesisBlock E s =
  (Done tt, record (Call (getGenesisBlockId_ (b_id (genesisblock E)))) s).
Proof.
  intros [rows [Hl Hf]]. rewrite saveGenesisBlock_unfold. cbv zeta.
  rewrite Hl, Hf. reflexivity.
Qed.

(** A second call changes storage no more. *)
Lemma saveGenesisBlock_twice (s : State DB Pool) :
  db (snd (saveGenesisBlock E (snd (saveGenesisBlock E s))))
  = db (snd (saveGenesisBlock E s)).
Proof.
  rewrite (saveGenesisBlock_unfold E s). cbv zeta.
  destruct (db_getGenesisBlockId E (b_id (genesisblock E)) (db s))
    as [rows | err] eqn:Hl.
  - destruct (genesisRowFound rows) eqn:Hf.
    + simpl. rewrite saveGenesisBlock_found; [reflexivity |].
      exists rows. auto.
    + (* the genesis block is saved by the first call *)
      set (s0 := record (Call (getGenesisBlockId_ (b_id (genesisblock E)))) s).
      rewrite (saveBlock_own_tx E (genesisblock E) s0).
      pose proof (neverExits_batch _
                    (neverExits_saveBlockPromises E (assignBlockId (genesisblock E)))
                    (record (DbTx "Chain:saveBlock") s0)) as Hx.
      destruct (batch (saveBlockPromises E (assignBlockId (genesisblock E)))
                  (record (DbTx "Chain:saveBlock") s0))
        as [[[] | e | c] sb] eqn:Hb.
      * (* committed: the second call finds the block *)
        apply batch_Done_found in Hb.
        destruct (afterSave_quiet E (assignBlockId (genesisblock E))
                    (record (DbCommit "Chain:saveBlock") sb)) as [Hd _].
        rewrite saveGenesisBlock_found; [reflexivity |].
        rewrite Hd. exact Hb.
      * (* rolled back: the second call sees the storage the first one saw *)
        cbn [snd].
        set (s1 := record (Log error (err_toString e))
                     (record (DbRollback "Chain:saveBlock") (with_db (db s0) sb))).
        assert (Hdb : db s1 = db s) by reflexivity.
        rewrite (saveGenesisBlock_unfold E s1). cbv zeta.
        rewrite Hdb, Hl, Hf.
        set (s2 := record (Call (getGenesisBlockId_ (b_id (genesisblock E)))) s1).
        rewrite (saveBlock_own_tx E (genesisblock E) s2).
        destruct (dbOnly_batch _
                    (dbOnly_saveBlockPromises E (assignBlockId (genesisblock E)))
                    (record (DbTx "Chain:saveBlock") s0)
                    (record (DbTx "Chain:saveBlock") s2) eq_refl) as [Ho _].
        rewrite Hb in Ho. cbn [fst] in Ho.
        destruct (batch (saveBlockPromises E (assignBlockId (genesisblock E)))
                    (record (DbTx "Chain:saveBlock") s2)) as [o sb'].
        cbn [fst] in Ho. subst o. reflexivity.
      * exfalso. apply (Hx c). reflexivity.
  - simpl. rewrite saveGenesisBlock_unfold. cbv zeta. simpl. rewrite Hl.
    reflexivity.
Qed.

(** The first save is one persistence transaction around the two writes. *)
Lemma saveGenesisBlock_single_tx (s : State DB Pool) rows :
  db_getGenesisBlockId E (b_id (genesisblock E)) (db s) = Ok rows ->
  genesisRowFound rows = false ->
  exists evs closing,
    trace (snd (saveGenesisBlock E s)) = trace s ++ evs /\
    (closing = DbCommit "Chain:saveBlock" \/ closing = DbRollback "Chain:saveBlock") /\
    filter persistEvent evs =
      DbTx "Chain:saveBlock" :: saveBlockCalls (assignBlockId (genesisblock E))
      ++ [closing].
Proof.
  intros Hl Hf. rewrite saveGenesisBlock_unfold. cbv zeta. rewrite Hl, Hf.
  set (s0 := record (Call (getGenesisBlockId_ (b_id (genesisblock E)))) s).
  rewrite (saveBlock_own_tx E (genesisblock E) s0).
  pose proof (batch_saveBlockPromises_trace E (assignBlockId (genesisblock E))
                (record (DbTx "Chain:saveBlock") s0)) as Ht.
  pose proof (neverExits_batch _
                (neverExits_saveBlockPromises E (assignBlockId (genesisblock E)))
                (record (DbTx "Chain:saveBlock") s0)) as Hx.
  assert (Hcalls : filter persistEvent
                     (saveBlockCalls (assignBlockId (genesisblock E)))
                   = saveBlockCalls (assignBlockId (genesisblock E))).
  { unfold saveBlockCalls. destruct (0 <? _); reflexivity. }
  destruct (batch (saveBlockPromises E (assignBlockId (genesisblock E)))
              (record (DbTx "Chain:saveBlock") s0)) as [[[] | e | c] sb];
    simpl in Ht.
  - destruct (afterSave_quiet E (assignBlockId (genesisblock E))
                (record (DbCommit "Chain:saveBlock") sb)) as [_ [evs [Hs Hq]]].
    exists ([Call (getGenesisBlockId_ (b_id (genesisblock E)));
             DbTx "Chain:saveBlock"]
            ++ saveBlockCalls (assignBlockId (genesisblock E))
            ++ [DbCommit "Chain:saveBlock"] ++ evs),
           (DbCommit "Chain:saveBlock").
    split; [| split; [auto |]].
    + rewrite Hs. simpl. rewrite Ht. rewrite <- !app_assoc. reflexivity.
    + rewrite !filter_app, Hcalls, Hq. reflexivity.
  - exists ([Call (getGenesisBlockId_ (b_id (genesisblock E)));
             DbTx "Chain:saveBlock"]
            ++ saveBlockCalls (assignBlockId (genesisblock E))
            ++ [DbRollback "Chain:saveBlock"; Log error (err_toString e)]),
           (DbRollback "Chain:saveBlock").
    split; [| split; [auto |]].
    + simpl. rewrite Ht. rewrite <- !app_assoc. reflexivity.
    + rewrite !filter_app, Hcalls. reflexivity.
  - exfalso. apply (Hx c). reflexivity.
Qed.

(** The first save writes the block: storage afterwards is what the two
    writes left, and the block is found in it. *)
Lemma saveGenesisBlock_persists (s : State DB Pool) rows d1 d2 :
  db_getGenesisBlockId E (b_id (genesisblock E)) (db s) = Ok rows ->
  genesisRowFound rows = false ->
  db_blocks_save E (assignBlockId (genesisblock E)) (db s) = (Ok tt, d1) ->
  (if 0 <? Z.of_nat (length (b_transactions (assignBlockId (genesisblock E))))
   then db_transactions_save E
          (b_transactions (assignBlockId (genesisblock E))) d1 = (Ok tt, d2)
   else d2 = d1) ->
  db (snd (saveGenesisBlock E s)) = d2 /\
  genesisFoundIn E d2 /\
  In (DbCommit "Chain:saveBlock") (trace (snd (saveGenesisBlock E s))) /\
  ((forall t, In t (b_transactions (assignBlockId (genesisblock E))) ->
              logic_afterSave E t = Ok tt) ->
   fst (saveGenesisBlock E s) = Done tt).
Proof.
  intros Hl Hf H1 H2. rewrite saveGenesisBlock_unfold. cbv zeta. rewrite Hl, Hf.
  set (s0 := record (Call (getGenesisBlockId_ (b_id (genesisblock E)))) s).
  rewrite (saveBlock_own_tx E (genesisblock E) s0).
  destruct (batch_saveBlockPromises_Done E (assignBlockId (genesisblock E))
              (record (DbTx "Chain:saveBlock") s0) d1 d2 H1 H2) as [sb [Hb Hd]].
  rewrite Hb.
  destruct (afterSave_quiet E (assignBlockId (genesisblock E))
              (record (DbCommit "Chain:saveBlock") sb)) as [Hq [evs [Ht _]]].
  split; [rewrite Hq; exact Hd |].
  split; [rewrite <- Hd; eapply batch_Done_found; exact Hb |].
  split; [| apply afterSave_Done].
  rewrite Ht. apply in_or_app. left. apply in_or_app. right. left. reflexivity.
Qed.

(** A first save that succeeds has written the block. *)
Lemma saveGenesisBlock_Done_persisted (s : State DB Pool) rows :
  db_getGenesisBlockId E (b_id (genesisblock E)) (db s) = Ok rows ->
  genesisRowFound rows = false ->
  fst (saveGenesisBlock E s) = Done tt ->
  exists d1 d2,
    db_blocks_save E (assignBlockId (genesisblock E)) (db s) = (Ok tt, d1) /\
    (if 0 <? Z.of_nat (length (b_transactions (assignBlockId (genesisblock E))))
     then db_transactions_save E
            (b_transactions (assignBlockId (genesisblock E))) d1 = (Ok tt, d2)
     else d2 = d1) /\
    db (snd (saveGenesisBlock E s)) = d2.
Proof.
  intros Hl Hf. rewrite saveGenesisBlock_unfold. cbv zeta. rewrite Hl, Hf.
  set (s0 := record (Call (getGenesisBlockId_ (b_id (genesisblock E)))) s).
  rewrite (saveBlock_own_tx E (genesisblock E) s0).
  destruct (batch (saveBlockPromises E (assignBlockId (genesisblock E)))
              (record (DbTx "Chain:saveBlock") s0)) as [[[] | e | c] sb] eqn:Hb;
    cbn [fst]; intros Hd; try discriminate Hd.
  destruct (batch_saveBlockPromises_Done_inv E _ _ _ Hb) as [d1 [d2 [H1 [H2 H3]]]].
  exists d1, d2. split; [exact H1 |]. split; [exact H2 |].
  destruct (afterSave_quiet E (assignBlockId (genesisblock E))
              (record (DbCommit "Chain:saveBlock") sb)) as [Hq _].
  rewrite Hq. exact H3.
Qed.

End SaveGenesisBlockTwice.


(** The small ledger finds what it saved. *)
Lemma Toy_found_after_save (l : list Block) (b : Block) :
  b_id b = "G" ->
  genesisRowFound (map b_id (filter (Toy.hasId "G") (l ++ [Toy.header b]))) = true.
Proof.
  intros Hb. induction l as [| x l IH]; simpl.
  - unfold Toy.hasId. simpl. rewrite Hb. simpl. rewrite Hb. reflexivity.
  - destruct (Toy.hasId "G" x) eqn:Hx; [| exact IH].
    simpl. unfold Toy.hasId in Hx. apply String.eqb_eq in Hx. rewrite Hx.
    reflexivity.
Qed.


(** ** applyGenesisBlock: the order of the genesis transactions *)

(** The comparator is not a consistent comparison: of two votes, each one
    is to go after the other. *)
Lemma genesisComparator_inconsistent (a b : Transaction) :
  t_type a = VOTE -> t_type b = VOTE ->
  genesisComparator a b > 0 /\ genesisComparator b a > 0.
Proof.
  intros Ha Hb. unfold genesisComparator. rewrite Ha, Hb. simpl. lia.
Qed.

Lemma insertBackwards_genesisComparator (x : Transaction) (votes others : list Transaction) :
  Forall (fun t => isVOTE (t_type t) = true) votes ->
  Forall (fun t => isVOTE (t_type t) = false) others ->
  insertBackwards genesisComparator x (votes ++ others) = votes ++ x :: others.
Proof.
  intros Hv Ho. induction Hv as [| v votes Hv _ IH]; simpl.
  - destruct Ho as [| o others Ho _]; simpl; [reflexivity |].
    unfold genesisComparator. rewrite Ho. reflexivity.
  - unfold genesisComparator at 1. rewrite Hv. simpl. rewrite IH. reflexivity.
Qed.

(** What the insertion sort makes of the comparator: the transactions that
    are no votes first, in their order, then the votes, last one first. *)
Lemma InsertionSort_genesisComparator (l : list Transaction) :
  InsertionSort genesisComparator l =
  filter (fun t => negb (isVOTE (t_type t))) l
  ++ rev (filter (fun t => isVOTE (t_type t)) l).
Proof.
  unfold InsertionSort.
  assert (H : forall l votes others,
             Forall (fun t => isVOTE (t_type t) = true) votes ->
             Forall (fun t => isVOTE (t_type t) = false) others ->
             rev (fold_left
                    (fun sorted element =>
                       insertBackwards genesisComparator element sorted)
                    l (votes ++ others))
             = rev others ++ filter (fun t => negb (isVOTE (t_type t))) l
               ++ rev (filter (fun t => isVOTE (t_type t)) l) ++ rev votes).
  { clear l. induction l as [| x l IH]; intros votes others Hv Ho; simpl.
    - rewrite rev_app_distr. reflexivity.
    - rewrite insertBackwards_genesisComparator by assumption.
      destruct (isVOTE (t_type x)) eqn:Hx; simpl.
      + change (votes ++ x :: others) with (votes ++ [x] ++ others).
        rewrite app_assoc. rewrite IH; auto.
        * rewrite rev_app_distr. simpl. rewrite <- !app_assoc. reflexivity.
        * apply Forall_app. auto.
      + rewrite IH; auto. simpl. rewrite <- !app_assoc. reflexivity. }
  specialize (H l [] [] (Forall_nil _) (Forall_nil _)). simpl in H.
  rewrite app_nil_r in H. exact H.
Qed.

(** C4 at its own example. For the raw sequence [TRANSFER a, VOTE b,
    TRANSFER c, VOTE d] and the insertion sort the engine runs on so short
    an array, applyGenesisBlock succeeds, and the account store sees a, c,
    d, b: the votes come after the transfers, but in reversed order, where
    the claim has a, c, b, d. *)
Theorem applyGenesisBlock_reverses_votes :
  let r := applyGenesisBlock (Toy.env Toy.noFaults Toy.rawGenesis) Toy.rawGenesis
             Toy.fresh in
  map t_id (b_transactions Toy.rawGenesis) = ["a"; "b"; "c"; "d"] /\
  fst r = Done tt /\
  appliedOrder (trace (snd r)) = ["a"; "c"; "d"; "b"] /\
  map t_id (b_transactions (lastBlock (snd r))) = ["a"; "c"; "d"; "b"].
Proof. run_ledger. Qed.

(** ** applyBlock followed by deleteLastBlock *)

Lemma total_app {Key} (l1 l2 : list (Key -> Z)) k :
  total (l1 ++ l2) k = total l1 k + total l2 k.
Proof. induction l1 as [| d l1 IH]; simpl; [reflexivity | lia]. Qed.

Lemma sumOver_app {Key} (f : Transaction -> Key -> Z) l1 l2 k :
  sumOver f (l1 ++ l2) k = sumOver f l1 k + sumOver f l2 k.
Proof. induction l1 as [| d l1 IH]; simpl; [reflexivity | lia]. Qed.

Lemma sumOver_rev {Key} (f : Transaction -> Key -> Z) l k :
  sumOver f (rev l) k = sumOver f l k.
Proof.
  induction l as [| t l IH]; simpl; [reflexivity |].
  rewrite sumOver_app, IH. simpl. lia.
Qed.

Lemma total_flat_map {Key} (g : Transaction -> list (Key -> Z)) l k :
  total (flat_map g l) k = sumOver (fun t => total (g t)) l k.
Proof.
  induction l as [| t l IH]; simpl; [reflexivity |].
  rewrite total_app, IH. reflexivity.
Qed.

#[export] Instance shifted_Graded {DB Pool Key} (view : DB -> Key -> Z) :
  Graded (@shifted DB Pool Key view).
Proof.
  constructor.
  - intros s k. simpl. lia.
  - intros l1 l2 s1 s2 s3 H1 H2 k. rewrite total_app, H2, H1. lia.
Qed.

Section RoundTrip.

Context {DB Pool Account Key : Type}.
Variable E : Env DB Pool Account.

(** A view of storage, the balances say, and what the collaborators do to
    it when they succeed: applying a transaction adds an amount per key that
    depends on the transaction alone, undoing it takes the same amount
    away; a round tick adds an amount that depends on the block's id, the
    backward tick takes it away; everything else leaves the view alone. *)
Variable view : DB -> Key -> Z.
Variables dU dC : Transaction -> Key -> Z.
Variable dR : BlockId -> Key -> Z.

Hypothesis law_setAccountAndGet : forall pk d a d',
  accounts_setAccountAndGet E pk d = (Ok a, d') -> forall k, view d' k = view d k.
Hypothesis law_applyUnconfirmed : forall t a d d',
  transactions_applyUnconfirmed E t a d = (Ok tt, d') ->
  forall k, view d' k = view d k + dU t k.
Hypothesis law_apply : forall t b a d d',
  transactions_apply E t b a d = (Ok tt, d') ->
  forall k, view d' k = view d k + dC t k.
Hypothesis law_undo : forall t b a d d',
  transactions_undo E t b a d = (Ok tt, d') ->
  forall k, view d' k = view d k - dC t k.
Hypothesis law_undoUnconfirmed : forall t d d',
  transactions_undoUnconfirmed E t d = (Ok tt, d') ->
  forall k, view d' k = view d k - dU t k.
Hypothesis law_tick : forall b d d',
  rounds_tick E b d = (Ok tt, d') ->
  forall k, view d' k = view d k + dR (b_id b) k.
Hypothesis law_backwardTick : forall b p d d',
  rounds_backwardTick E b p d = (Ok tt, d') ->
  forall k, view d' k = view d k - dR (b_id b) k.
Hypothesis law_blocks_save : forall b d d',
  db_blocks_save E b d = (Ok tt, d') -> forall k, view d' k = view d k.
Hypothesis law_transactions_save : forall ts d d',
  db_transactions_save E ts d = (Ok tt, d') -> forall k, view d' k = view d k.
Hypothesis law_deleteBlock : forall id d d',
  db_deleteBlock E id d = (Ok tt, d') -> forall k, view d' k = view d k.

(** A step that leaves storage as it is. *)
Lemma shifted_same {A} (m : M (DB:=DB) (Pool:=Pool) A) :
  (forall s, db (snd (m s)) = db s) ->
  yields (R:=shifted view) [] m.
Proof.
  intros Hm s a s' H k. simpl. rewrite <- (Hm s), H. simpl. lia.
Qed.

Lemma shifted_db_call {A} c (f : DB -> result A * DB) (delta : Key -> Z) :
  (forall d a d', f d = (Ok a, d') -> forall k, view d' k = view d k + delta k) ->
  yields (R:=shifted (Pool:=Pool) view) [delta] (db_call c f).
Proof.
  intros Hf s a s' H k. unfold db_call in H.
  destruct (f (db s)) as [[a' | e] d] eqn:Hfd; simpl in H; inversion H; subst.
  simpl. rewrite (Hf _ _ _ Hfd k). lia.
Qed.

Lemma shifted_db_call_same {A} c (f : DB -> result A * DB) :
  (forall d a d', f d = (Ok a, d') -> forall k, view d' k = view d k) ->
  yields (R:=shifted (Pool:=Pool) view) [] (db_call c f).
Proof.
  intros Hf s a s' H k. unfold db_call in H.
  destruct (f (db s)) as [[a' | e] d] eqn:Hfd; simpl in H; inversion H; subst.
  simpl. rewrite (Hf _ _ _ Hfd k). lia.
Qed.

Lemma shifted_db_read {A} c (f : DB -> result A) :
  yields (R:=shifted (Pool:=Pool) view) [] (db_read c f).
Proof. apply shifted_same. reflexivity. Qed.

Lemma shifted_emit e : yields (R:=shifted (Pool:=Pool) view) [] (emit e).
Proof. apply shifted_same. reflexivity. Qed.

Lemma shifted_lastBlock_get :
  yields (R:=shifted (Pool:=Pool) view) [] lastBlock_get.
Proof. apply shifted_same. reflexivity. Qed.

Lemma shifted_applySteps b :
  yields (R:=shifted (Pool:=Pool) view)
    (flat_map (fun t => [dU t]) (b_transactions b)
     ++ flat_map (fun t => [dC t]) (b_transactions b))
    (applySteps E b).
Proof.
  unfold applySteps, applyUnconfirmedStep, applyConfirmedStep.
  eapply yields_eq.
  - eapply yields_bind; [apply (shifted_same (isActive_set true)); reflexivity |].
    intros _. eapply yields_bind; [| intros _].
    + apply yields_eachSeries with (g := fun t => [] ++ [dU t]). intros t.
      eapply yields_bind; [| intros sender].
      * eapply yields_catch; [| rejects_tac].
        apply shifted_db_call_same. apply law_setAccountAndGet.
      * eapply yields_catch; [| rejects_tac].
        apply shifted_db_call. intros d [] d'. apply law_applyUnconfirmed.
    + apply yields_eachSeries with (g := fun t => [] ++ [dC t]). intros t.
      eapply yields_bind; [| intros sender].
      * eapply yields_catch; [apply shifted_db_read | rejects_tac].
      * eapply yields_catch; [| rejects_tac].
        apply shifted_db_call. intros d [] d'. apply law_apply.
  - reflexivity.
Qed.

Lemma shifted_saveBlock b :
  yields (R:=shifted (Pool:=Pool) view) [] (saveBlock E b true).
Proof.
  unfold saveBlock, afterSave, saveBlockPromises, bus_message.
  eapply yields_eq.
  - eapply yields_bind; [| intros _].
    + eapply (yields_catch []); [| rejects_tac].
      destruct (0 <? _).
      * eapply yields_eq.
        -- eapply yields_batch_cons;
             [apply shifted_db_call_same; intros d [] d'; apply law_blocks_save |].
           eapply yields_batch_cons;
             [apply shifted_db_call_same; intros d [] d';
              apply law_transactions_save
             | apply yields_batch_nil].
        -- reflexivity.
      * eapply yields_eq.
        -- eapply yields_batch_cons;
             [apply shifted_db_call_same; intros d [] d'; apply law_blocks_save
             | apply yields_batch_nil].
        -- reflexivity.
    + eapply yields_bind; [apply shifted_emit | intros _].
      apply yields_eachSeries with (g := fun _ => []). intros t.
      apply shifted_db_read.
  - simpl. rewrite flat_map_nil. reflexivity.
Qed.

Lemma shifted_saveBlockStep b sv :
  yields (R:=shifted (Pool:=Pool) view) [dR (b_id b)] (saveBlockStep E b sv).
Proof.
  unfold saveBlockStep, bus_message, logger. destruct sv.
  - eapply yields_eq.
    + eapply yields_bind;
        [apply (shifted_same (lastBlock_set b)); reflexivity | intros _].
      eapply yields_bind; [| intros _].
      { apply (shifted_same
                 (fun s => (Done tt, with_lastBlock (assignBlockId b) s))).
        reflexivity. }
      eapply yields_bind; [| intros _].
      { eapply yields_catch; [apply shifted_saveBlock | rejects_tac]. }
      eapply yields_bind; [apply shifted_emit | intros _].
      eapply yields_bind; [apply shifted_emit | intros _].
      apply shifted_db_call. intros d [] d'.
      apply (law_tick (assignBlockId b)).
    + reflexivity.
  - eapply yields_eq.
    + eapply yields_bind;
        [apply (shifted_same (lastBlock_set b)); reflexivity | intros _].
      eapply yields_bind; [apply shifted_emit | intros _].
      apply shifted_db_call. intros d [] d'. apply (law_tick b).
    + reflexivity.
Qed.

(** What a successful applyBlock adds to the view, counted from the state
    its undo-unconfirmed-pool step left. *)
Lemma applyBlock_Done_view b sv (s s1 : State DB Pool) :
  applyBlock E b sv s = (Done tt, s1) ->
  forall k,
    view (db s1) k =
    view (db (snd (undoUnconfirmedListStep E s))) k
    + sumOver dU (b_transactions b) k + sumOver dC (b_transactions b) k
    + dR (b_id b) k.
Proof.
  rewrite applyBlock_unfold. intros H k.
  destruct (undoUnconfirmedListStep E s) as [[[] | e | c] s0]; try discriminate.
  destruct (applyBlockTx E b sv (record (DbTx "Chain:applyBlock") s0))
    as [[[] | e | c] sb] eqn:Htx; try discriminate.
  - assert (Hdb : db s1 = db sb).
    { unfold catch in H.
      assert (Hc : forall st, db (snd (applyBlockCommitted E b st)) = db st).
      { intros st. unfold applyBlockCommitted, bind.
        assert (Hl : forall l st,
                   db (snd (eachSeries
                              (fun transaction =>
                                 removeUnconfirmedTransaction E (t_id transaction))
                              l st)) = db st).
        { induction l as [| t l IH]; intros st'; [reflexivity |].
          rewrite eachSeries_cons_run. simpl. rewrite IH. reflexivity. }
        specialize (Hl (b_transactions b) st).
        destruct (eachSeries _ (b_transactions b) st) as [[[] | e | c] st'];
          simpl in *; exact Hl. }
      specialize (Hc (record (DbCommit "Chain:applyBlock") sb)).
      pose proof (applyBlockCommitted_done E b
                    (record (DbCommit "Chain:applyBlock") sb)) as Hd.
      destruct (applyBlockCommitted E b (record (DbCommit "Chain:applyBlock") sb))
        as [[[] | e | c] st]; simpl in Hd; try discriminate.
      inversion H. subst st. exact Hc. }
    rewrite Hdb. rewrite applyBlockTx_applySteps in Htx.
    assert (Hy : yields (R:=shifted (Pool:=Pool) view)
                   ((flat_map (fun t => [dU t]) (b_transactions b)
                     ++ flat_map (fun t => [dC t]) (b_transactions b))
                    ++ [dR (b_id b)])
                   (applySteps E b ;; saveBlockStep E b sv)).
    { eapply yields_bind; [apply shifted_applySteps | intros _].
      apply shifted_saveBlockStep. }
    specialize (Hy _ _ _ Htx k). simpl in Hy. rewrite Hy.
    rewrite !total_app, !total_flat_map. simpl.
    assert (Hs : forall f l, sumOver (fun t => total [f t]) l k = sumOver f l k).
    { intros f l. induction l as [| t l IH]; simpl; [reflexivity | lia]. }
    rewrite !Hs. lia.
  - destruct (applyBlockRejected_fails e
                (record (DbRollback "Chain:applyBlock") (with_db (db s0) sb)))
      as [Hf _].
    rewrite H in Hf. discriminate.
Qed.

Lemma shifted_undoPair t :
  yields (R:=shifted (Pool:=Pool) view) [neg (dC t); neg (dU t)]
    (undoStep E t ;; undoUnconfirmStep E t).
Proof.
  unfold undoStep, undoUnconfirmStep.
  eapply yields_eq.
  - eapply yields_bind; [| intros _].
    + eapply yields_bind; [| intros sender].
      * eapply yields_catch; [apply shifted_db_read | rejects_tac].
      * eapply yields_bind; [apply shifted_lastBlock_get | intros old].
        eapply (yields_catch [neg (dC t)]); [| rejects_tac].
        apply shifted_db_call. intros d [] d' H k. unfold neg.
        rewrite (law_undo _ _ _ _ _ H k). lia.
    + eapply (yields_catch [neg (dU t)]); [| rejects_tac].
      apply shifted_db_call. intros d [] d' H k. unfold neg.
      rewrite (law_undoUnconfirmed _ _ _ H k). lia.
  - reflexivity.
Qed.

Lemma shifted_deleteBlockStep :
  yields (R:=shifted (Pool:=Pool) view) [] (deleteBlockStep E).
Proof.
  unfold deleteBlockStep, deleteBlock.
  eapply yields_eq.
  - eapply yields_bind; [apply shifted_lastBlock_get | intros old].
    eapply (yields_catch []); [| rejects_tac].
    eapply (yields_catch []); [| rejects_tac].
    apply shifted_db_call_same. intros d [] d'. apply law_deleteBlock.
  - reflexivity.
Qed.

Lemma backwardTickStep_Done_view prev (s s' : State DB Pool) :
  backwardTickStep E prev s = (Done tt, s') ->
  lastBlock s' = lastBlock s /\
  forall k, view (db s') k = view (db s) k - dR (b_id (lastBlock s)) k.
Proof.
  unfold backwardTickStep, bind, lastBlock_get, catch, db_call.
  destruct (rounds_backwardTick E (lastBlock s) prev (db s)) as [[[] | e] d] eqn:Hb;
    simpl; intros H; inversion H; subst.
  split; [reflexivity |]. intros k. simpl.
  apply (law_backwardTick _ _ _ _ Hb).
Qed.

Lemma sumOver_undoPairs l k :
  total (flat_map (fun t => [neg (dC t); neg (dU t)]) l) k
  = - sumOver dC l k - sumOver dU l k.
Proof.
  induction l as [| t l IH]; simpl; [reflexivity |].
  simpl in IH. rewrite IH. unfold neg. lia.
Qed.

(** What a successful deleteLastBlock takes from the view. *)
Lemma deleteLastBlock_Done_view (s sf : State DB Pool) p :
  deleteLastBlock E s = (Done p, sf) ->
  forall k,
    view (db sf) k =
    view (db s) k
    - sumOver dC (b_transactions (lastBlock s)) k
    - sumOver dU (b_transactions (lastBlock s)) k
    - dR (b_id (lastBlock s)) k.
Proof.
  intros H k. apply deleteLastBlock_Done in H.
  destruct H as [_ [sb [r [pl [Hb [_ ->]]]]]].
  assert (Hdb : db (reinserted p r pl (record (DbCommit "Chain:deleteBlock") sb))
                = db sb) by (unfold reinserted; destruct r; reflexivity).
  rewrite Hdb. clear Hdb.
  set (st := record (DbTx "Chain:deleteBlock")
               (record (Log warn "Deleting last block") s)) in *.
  change (popLastBlockTx E st) with
    ((oldLastBlock <- lastBlock_get ;;
      previousBlock <- loadSecondLastBlockStep E (b_previousBlock oldLastBlock) ;;
      reversed <- reverseTransactions ;;
      undoAll E reversed previousBlock) st) in Hb.
  apply bind_Done_inv in Hb. destruct Hb as [old [s1 [Hget H]]].
  inversion Hget. subst old s1. clear Hget.
  apply bind_Done_inv in H. destruct H as [prev [s2 [Hload H]]].
  apply loadSecondLastBlockStep_Done in Hload. destruct Hload as [-> _].
  apply bind_Done_inv in H. destruct H as [reversed [s3 [Hrev H]]].
  inversion Hrev. subst reversed s3. clear Hrev.
  unfold undoAll in H.
  apply bind_Done_inv in H. destruct H as [[] [s4 [Hundo H]]].
  apply bind_Done_inv in H. destruct H as [[] [s5 [Hback H]]].
  apply bind_Done_inv in H. destruct H as [[] [s6 [Hdel H]]].
  inversion H. subst s6 p. clear H.
  pose proof (yields_eachSeries (R:=shifted (Pool:=Pool) view)
                (fun t => [neg (dC t); neg (dU t)]) _ _
                shifted_undoPair _ _ _ Hundo k) as V4.
  assert (R4 : lastBlock s4 = reversedBlock (lastBlock s)).
  { assert (Hk : forall l,
               respects (R:=keepsRegister) (DB:=DB) (Pool:=Pool)
                 (eachSeries
                    (fun transaction =>
                       undoStep E transaction ;; undoUnconfirmStep E transaction)
                    l))
      by (intros l; unfold undoStep, undoUnconfirmStep; frame).
    match type of Hundo with eachSeries _ ?l ?s0 = _ =>
      pose proof (Hk l s0) as Hk0 end.
    unfold keepsRegister in Hk0. rewrite Hundo in Hk0. exact Hk0. }
  apply backwardTickStep_Done_view in Hback. destruct Hback as [_ V5].
  pose proof (shifted_deleteBlockStep _ _ _ Hdel k) as V6.
  rewrite V6, V5, V4, R4. simpl.
  rewrite sumOver_undoPairs, !sumOver_rev. lia.
Qed.

Lemma savedBlock_transactions b sv :
  b_transactions (savedBlock b sv) =
  if sv then map (withBlockId (b_id b)) (b_transactions b) else b_transactions b.
Proof. destruct sv; reflexivity. Qed.

Lemma sumOver_map (f : Transaction -> Key -> Z) (g : Transaction -> Transaction) l k :
  (forall t, In t l -> f (g t) k = f t k) ->
  sumOver f (map g l) k = sumOver f l k.
Proof.
  induction l as [| t l IH]; intros H; simpl; [reflexivity |].
  rewrite (H t (or_introl eq_refl)), IH; [reflexivity |].
  intros t' Ht. apply H. right. exact Ht.
Qed.

(** The round trip on the view: a successful applyBlock followed by a
    successful deleteLastBlock leaves the view as the undo-unconfirmed-pool
    step of applyBlock left it. When the block was saved, the transactions
    that are undone carry the block id, which those that were applied did
    not need to: the amounts are to be the same. *)
Lemma round_trip_view b sv (s s1 s2 : State DB Pool) p :
  (sv = true ->
   forall t k, In t (b_transactions b) ->
     dU (withBlockId (b_id b) t) k = dU t k /\
     dC (withBlockId (b_id b) t) k = dC t k) ->
  applyBlock E b sv s = (Done tt, s1) ->
  deleteLastBlock E s1 = (Done p, s2) ->
  forall k, view (db s2) k = view (db (snd (undoUnconfirmedListStep E s))) k.
Proof.
  intros Hn Ha Hd k.
  assert (Hreg : lastBlock s1 = savedBlock b sv).
  { pose proof (applyBlock_Done_register E b sv s) as Hr.
    rewrite Ha in Hr. simpl in Hr. apply Hr. reflexivity. }
  rewrite (deleteLastBlock_Done_view _ _ _ Hd k).
  rewrite (applyBlock_Done_view _ _ _ _ Ha k).
  rewrite Hreg, savedBlock_transactions.
  assert (Hid : b_id (savedBlock b sv) = b_id b) by (destruct sv; reflexivity).
  rewrite Hid.
  destruct sv; [| lia].
  rewrite !sumOver_map; [lia | |]; intros t Ht; apply (Hn eq_refl t k Ht).
Qed.

End RoundTrip.

(** C2, as the code has it. For every block B applied successfully on top
    of tip T, where storage returns T for B's previous-block id:
    applyBlock(B) followed by a successful deleteLastBlock() moves the
    Last-Block Register back to T, hands the transactions of B to the
    Transaction Pool in the order of the block, and leaves every balance
    (confirmed and unconfirmed, or any other view that apply adds to and
    undo takes from) at the value it had after applyBlock's
    undo-unconfirmed-pool step. That is the pre-apply value where that step
    changed nothing; the effects of the transactions that were pending in
    the pool are not put back. The transactions of B need not carry the
    block id: when the block is saved, saveBlock writes it on them, and they
    are undone and handed to the pool as they then are; the amount a
    transaction moves is taken not to depend on that id. *)
Theorem applyBlock_deleteLastBlock_round_trip {DB Pool Account Key}
    (E : Env DB Pool Account) (view : DB -> Key -> Z)
    (dU dC : Transaction -> Key -> Z) (dR : BlockId -> Key -> Z)
    (B T : Block) (saveBlockFlag : bool) (s s1 s2 : State DB Pool) (p : Block) :
  (forall pk d a d',
     accounts_setAccountAndGet E pk d = (Ok a, d') ->
     forall k, view d' k = view d k) ->
  (forall t a d d',
     transactions_applyUnconfirmed E t a d = (Ok tt, d') ->
     forall k, view d' k = view d k + dU t k) ->
  (forall t b a d d',
     transactions_apply E t b a d = (Ok tt, d') ->
     forall k, view d' k = view d k + dC t k) ->
  (forall t b a d d',
     transactions_undo E t b a d = (Ok tt, d') ->
     forall k, view d' k = view d k - dC t k) ->
  (forall t d d',
     transactions_undoUnconfirmed E t d = (Ok tt, d') ->
     forall k, view d' k = view d k - dU t k) ->
  (forall b d d',
     rounds_tick E b d = (Ok tt, d') ->
     forall k, view d' k = view d k + dR (b_id b) k) ->
  (forall b q d d',
     rounds_backwardTick E b q d = (Ok tt, d') ->
     forall k, view d' k = view d k - dR (b_id b) k) ->
  (forall b d d',
     db_blocks_save E b d = (Ok tt, d') -> forall k, view d' k = view d k) ->
  (forall ts d d',
     db_transactions_save E ts d = (Ok tt, d') -> forall k, view d' k = view d k) ->
  (forall id d d',
     db_deleteBlock E id d = (Ok tt, d') -> forall k, view d' k = view d k) ->
  (saveBlockFlag = true ->
   forall t k, In t (b_transactions B) ->
     dU (withBlockId (b_id B) t) k = dU t k /\
     dC (withBlockId (b_id B) t) k = dC t k) ->
  lastBlock s = T ->
  b_previousBlock B = Some (b_id T) ->
  b_height B = b_height T + 1 ->
  applyBlock E B saveBlockFlag s = (Done tt, s1) ->
  (exists rest, utils_loadBlocksPart E (Some (b_id T)) (db s1) = Ok (T :: rest)) ->
  deleteLastBlock E s1 = (Done p, s2) ->
  p = T /\
  lastBlock s2 = T /\
  (forall k, view (db s2) k = view (db (snd (undoUnconfirmedListStep E s))) k) /\
  exists evs,
    trace s2 = trace s1 ++ evs /\
    filter reinsertionEvent evs =
      flat_map undoCalls (rev (b_transactions (savedBlock B saveBlockFlag)))
      ++ [DbCommit "Chain:deleteBlock";
          Call (receiveTransactions_ (b_transactions (savedBlock B saveBlockFlag))
                  false);
          LastBlockSet T].
Proof.
  intros L1 L2 L3 L4 L5 L6 L7 L8 L9 L10 Hn Htip Hprev Hheight Ha [rest Hload] Hd.
  assert (Hreg : lastBlock s1 = savedBlock B saveBlockFlag).
  { pose proof (applyBlock_Done_register E B saveBlockFlag s) as Hr.
    rewrite Ha in Hr. simpl in Hr. apply Hr. reflexivity. }
  assert (Hpb : b_previousBlock (savedBlock B saveBlockFlag) = b_previousBlock B)
    by (destruct saveBlockFlag; reflexivity).
  assert (Hp : p = T).
  { pose proof Hd as Hd'. apply deleteLastBlock_Done in Hd'.
    destruct Hd' as [_ [sb [r [pl [Hb _]]]]].
    destruct (popLastBlockTx_Done E _ _ _ Hb) as [[rest' Hl] _].
    simpl in Hl. rewrite Hreg, Hpb, Hprev, Hload in Hl. inversion Hl. reflexivity. }
  split; [exact Hp |]. split.
  - pose proof Hd as Hd'. apply deleteLastBlock_Done in Hd'.
    destruct Hd' as [_ [sb [r [pl [_ [_ ->]]]]]]. simpl. exact Hp.
  - split.
    + eapply (round_trip_view E view dU dC dR); eauto.
    + destruct (deleteLastBlock_Done_events E _ _ _ Hd) as [evs [Ht Hf]].
      exists evs. rewrite Hreg, Hp in Hf. auto.
Qed.

(** The small ledger and the balance view. *)
Lemma Toy_lookup_credit pk pk' amt l :
  Toy.lookup pk (Toy.credit pk' amt l) = Toy.lookup pk l + Toy.at_ pk' pk amt.
Proof.
  unfold Toy.credit, Toy.at_. simpl.
  destruct (String.eqb pk' pk) eqn:H.
  - apply String.eqb_eq in H. subst. reflexivity.
  - lia.
Qed.

Lemma Toy_move_balances t sign d k :
  Toy.balances (Toy.move t sign d) k
  = Toy.balances d k + sign * Toy.confirmedDelta t k.
Proof.
  unfold Toy.balances, Toy.move, Toy.confirmedDelta. destruct k as [pk c].
  destruct c; cbn [snd fst Toy.balance Toy.u_balance];
    rewrite ?Toy_lookup_credit; unfold Toy.at_;
    repeat match goal with |- context [String.eqb ?a ?b] =>
      destruct (String.eqb a b) end; ring.
Qed.

(** C2 on the small ledger, with nothing pending in the pool: the block
    [received], whose transactions do not carry the block id yet, is applied
    and saved on top of [tip] and deleted again. The register is back on
    [tip] and every balance, confirmed and unconfirmed, is what it was. *)
Lemma applyBlock_deleteLastBlock_round_trip_witness :
  let E := Toy.env Toy.noFaults Toy.genesis in
  let s1 := snd (applyBlock E Toy.received true (Toy.start Toy.emptyPool)) in
  assignBlockId Toy.received <> Toy.received /\
  lastBlock (snd (deleteLastBlock E s1)) = Toy.tip /\
  forall k, Toy.balances (db (snd (deleteLastBlock E s1))) k
            = Toy.balances Toy.storage k.
Proof.
  cbv zeta.
  split; [intros H; discriminate H |].
  assert (Ha : applyBlock (Toy.env Toy.noFaults Toy.genesis) Toy.received true
                 (Toy.start Toy.emptyPool)
               = (Done tt,
                  snd (applyBlock (Toy.env Toy.noFaults Toy.genesis) Toy.received true
                         (Toy.start Toy.emptyPool))))
    by (vm_compute; reflexivity).
  assert (Hl : exists rest,
                 utils_loadBlocksPart (Toy.env Toy.noFaults Toy.genesis)
                   (Some (b_id Toy.tip))
                   (db (snd (applyBlock (Toy.env Toy.noFaults Toy.genesis)
                               Toy.received true (Toy.start Toy.emptyPool))))
                 = Ok (Toy.tip :: rest))
    by (exists []; vm_compute; reflexivity).
  assert (Hd : deleteLastBlock (Toy.env Toy.noFaults Toy.genesis)
                 (snd (applyBlock (Toy.env Toy.noFaults Toy.genesis) Toy.received true
                         (Toy.start Toy.emptyPool)))
               = (Done Toy.tip,
                  snd (deleteLastBlock (Toy.env Toy.noFaults Toy.genesis)
                         (snd (applyBlock (Toy.env Toy.noFaults Toy.genesis)
                                 Toy.received true (Toy.start Toy.emptyPool))))))
    by (vm_compute; reflexivity).
  refine ((fun H => conj (proj1 (proj2 H)) (proj1 (proj2 (proj2 H))))
    (applyBlock_deleteLastBlock_round_trip
       (Toy.env Toy.noFaults Toy.genesis) Toy.balances
       Toy.unconfirmedDelta Toy.confirmedDelta (fun _ _ => 0)
       Toy.received Toy.tip true (Toy.start Toy.emptyPool)
       (snd (applyBlock (Toy.env Toy.noFaults Toy.genesis) Toy.received true
               (Toy.start Toy.emptyPool)))
       (snd (deleteLastBlock (Toy.env Toy.noFaults Toy.genesis)
               (snd (applyBlock (Toy.env Toy.noFaults Toy.genesis) Toy.received true
                       (Toy.start Toy.emptyPool)))))
       Toy.tip _ _ _ _ _ _ _ _ _ _ _
       eq_refl eq_refl eq_refl Ha Hl Hd)).
  - intros pk d a d' H k. simpl in H. inversion H. reflexivity.
  - intros t a d d' H k. simpl in H. unfold Toy.applyUnconfirmed in H.
    destruct (Toy.a_u_balance a <? t_amount t); inversion H.
    unfold Toy.balances, Toy.unconfirmedDelta. destruct k as [pk c].
    destruct c; cbn [snd fst Toy.balance Toy.u_balance]; [lia |].
    apply Toy_lookup_credit.
  - intros t b a d d' H k. simpl in H. inversion H.
    rewrite Toy_move_balances. lia.
  - intros t b a d d' H k. simpl in H. inversion H.
    rewrite Toy_move_balances. lia.
  - intros t d d' H k. simpl in H. unfold Toy.undoUnconfirmed in H. inversion H.
    unfold Toy.balances, Toy.unconfirmedDelta. destruct k as [pk c].
    destruct c; cbn [snd fst Toy.balance Toy.u_balance]; [lia |].
    rewrite Toy_lookup_credit.
    unfold Toy.at_. destruct (String.eqb _ _); lia.
  - intros b d d' H k. simpl in H. inversion H.
    unfold Toy.balances. destruct (snd k); simpl; lia.
  - intros b q d d' H k. simpl in H. inversion H.
    unfold Toy.balances. destruct (snd k); simpl; lia.
  - intros b d d' H k. simpl in H. inversion H. reflexivity.
  - intros ts d d' H k. simpl in H. inversion H. reflexivity.
  - intros id d d' H k. simpl in H. inversion H. reflexivity.
  - intros _ t k _. split; reflexivity.
Defined.

(** C2 as stated fails on the unconfirmed balances when a transaction is
    pending in the pool: alice has a confirmed balance of 93 and, with a
    transfer of 4 pending, an unconfirmed balance of 89. [next] is applied
    and deleted again, both with success; the register is back on [tip] and
    the confirmed balance is 93 again, but alice's unconfirmed balance is 93
    and not the 89 it was before applyBlock. *)
Lemma round_trip_forgets_pending_effects :
  let E := Toy.env Toy.noFaults Toy.genesis in
  let s1 := snd (applyBlock E Toy.next true Toy.pending) in
  let s2 := snd (deleteLastBlock E s1) in
  lastBlock Toy.pending = Toy.tip /\
  b_previousBlock Toy.next = Some (b_id Toy.tip) /\
  b_height Toy.next = b_height Toy.tip + 1 /\
  fst (applyBlock E Toy.next true Toy.pending) = Done tt /\
  fst (deleteLastBlock E s1) = Done Toy.tip /\
  lastBlock s2 = Toy.tip /\
  Toy.balances (db Toy.pending) (Toy.alice, true) = 93 /\
  Toy.balances (db s2) (Toy.alice, true) = 93 /\
  Toy.balances (db Toy.pending) (Toy.alice, false) = 89 /\
  Toy.balances (db s2) (Toy.alice, false) = 93.
Proof. run_ledger. Qed.

(** * Further properties of the operations *)

(** ** Footprints, combinator by combinator *)

Section Footprints.

Context {DB Pool Account : Type}.
Variable E : Env DB Pool Account.
Context {R : State DB Pool -> State DB Pool -> Prop} {okE : Event -> Prop}
  {poolFree regFree actFree : Prop}
  {FP : Footprint R okE poolFree regFree actFree}.

Lemma within_ret {A} (a : A) : within (ret a).
Proof. intros s. apply fp_refl. Qed.

Lemma within_reject {A} (e : Err) : within (reject (A:=A) e).
Proof. intros s. apply fp_refl. Qed.

Lemma within_bind {A B} (m : M A) (k : A -> M B) :
  within m -> (forall a, within (k a)) -> within (bind m k).
Proof.
  intros Hm Hk s. unfold bind. specialize (Hm s).
  destruct (m s) as [[a | e | c] s1]; simpl in *; auto.
  eapply fp_trans; [exact Hm | apply Hk].
Qed.

Lemma within_catch {A} (m : M A) (h : Err -> M A) :
  within m -> (forall e, within (h e)) -> within (catch m h).
Proof.
  intros Hm Hh s. unfold catch. specialize (Hm s).
  destruct (m s) as [[a | e | c] s1]; simpl in *; auto.
  eapply fp_trans; [exact Hm | apply Hh].
Qed.

Lemma within_emit (e : Event) : okE e -> within (emit e).
Proof. intros He s. simpl. apply fp_record, He. Qed.

Lemma within_process_exit {A} c :
  okE (ProcessExit c) -> within (process_exit (A:=A) c).
Proof. intros He s. simpl. apply fp_record, He. Qed.

Lemma within_lastBlock_get : within lastBlock_get.
Proof. intros s. apply fp_refl. Qed.

Lemma within_lastBlock_set b :
  regFree -> okE (LastBlockSet b) -> within (lastBlock_set b).
Proof.
  intros Hr He s. simpl.
  eapply fp_trans; [apply (fp_reg Hr b) | apply fp_record, He].
Qed.

Lemma within_isActive_set v :
  actFree -> okE (IsActiveSet v) -> within (isActive_set v).
Proof.
  intros Ha He s. simpl.
  eapply fp_trans; [apply (fp_act Ha v) | apply fp_record, He].
Qed.

Lemma within_reverseTransactions : regFree -> within reverseTransactions.
Proof. intros Hr s. simpl. apply (fp_reg Hr). Qed.

Lemma within_db_call {A} c (f : DB -> result A * DB) :
  okE (Call c) -> within (db_call c f).
Proof.
  intros He s. unfold db_call. destruct (f (db s)) as [r d]. simpl.
  eapply fp_trans; [apply (fp_db d) | apply fp_record, He].
Qed.

Lemma within_db_read {A} c (f : DB -> result A) :
  okE (Call c) -> within (db_read c f).
Proof. intros He s. simpl. apply fp_record, He. Qed.

Lemma within_pool_call {A} c (f : Pool -> result A * Pool) :
  poolFree -> okE (Call c) -> within (pool_call c f).
Proof.
  intros Hp He s. unfold pool_call. destruct (f (pool s)) as [r p]. simpl.
  eapply fp_trans; [apply (fp_pool Hp p) | apply fp_record, He].
Qed.

Lemma within_db_tx {A} n (body : M A) :
  okE (DbTx n) -> okE (DbCommit n) -> okE (DbRollback n) ->
  within body -> within (db_tx n body).
Proof.
  intros H1 H2 H3 Hb s. unfold db_tx.
  specialize (Hb (record (DbTx n) s)).
  assert (H0 : R s (record (DbTx n) s)) by (apply fp_record, H1).
  destruct (body (record (DbTx n) s)) as [[a | e | c] s1]; simpl in *.
  - eapply fp_trans; [exact H0 |].
    eapply fp_trans; [exact Hb | apply fp_record, H2].
  - eapply fp_trans; [exact H0 |].
    eapply fp_trans; [exact Hb |].
    eapply fp_trans; [apply fp_db | apply fp_record, H3].
  - eapply fp_trans; [exact H0 | exact Hb].
Qed.

Lemma within_eachSeries {A} (f : A -> M unit) l :
  (forall x, within (f x)) -> within (eachSeries f l).
Proof.
  intros Hf. induction l as [| x l IH]; simpl.
  - apply within_ret.
  - apply within_bind; auto.
Qed.

Lemma within_batch (ms : list (M unit)) :
  Forall (fun m => within m) ms -> within (batch ms).
Proof.
  induction 1 as [| m r Hm Hr IH]; simpl.
  - apply within_ret.
  - intros s. specialize (Hm s).
    destruct (m s) as [[[] | e | c] s1]; simpl in *.
    + eapply fp_trans; [exact Hm | apply IH].
    + specialize (IH s1).
      destruct (batch r s1) as [[[] | e' | c] s2]; simpl in *;
        eapply fp_trans; eauto.
    + exact Hm.
Qed.

Lemma within_removeUnconfirmedTransaction id :
  poolFree -> okE (Call (removeUnconfirmedTransaction_ id)) ->
  within (removeUnconfirmedTransaction E id).
Proof.
  intros Hp He s. simpl.
  eapply fp_trans; [apply (fp_pool Hp) | apply fp_record, He].
Qed.

Lemma within_undoUnconfirmedListStep :
  poolFree -> okE (Call undoUnconfirmedList_) ->
  okE (Log error "Failed to undo unconfirmed list") ->
  within (undoUnconfirmedListStep E).
Proof.
  intros Hp He Hl. unfold undoUnconfirmedListStep.
  apply within_catch.
  - intros s.
    destruct (transactions_undoUnconfirmedList E (pool s) (db s)) as [r [p d]].
    simpl.
    eapply fp_trans; [apply (fp_pool Hp p) |].
    eapply fp_trans; [apply (fp_db d) | apply fp_record, He].
  - intros e. apply within_bind; [apply within_emit, Hl |].
    intros _. apply within_reject.
Qed.

(** The write of saveBlock seen through the register. *)
Lemma within_alias b :
  regFree ->
  within (fun s : State DB Pool => (Done tt, with_lastBlock b s)).
Proof. intros Hr s. simpl. apply (fp_reg Hr). Qed.

End Footprints.

(** Goes through an operation combinator by combinator; what is left are
    the events and the writes the relation has to allow. *)
Ltac within_step :=
  first
    [ apply within_bind; [| intros ? ]
    | apply within_catch; [| intros ? ]
    | apply within_eachSeries; intros ?
    | apply within_db_tx
    | apply within_batch
    | apply within_ret
    | apply within_reject
    | apply within_db_call
    | apply within_db_read
    | apply within_pool_call
    | apply within_removeUnconfirmedTransaction
    | apply within_undoUnconfirmedListStep
    | apply within_emit
    | apply within_process_exit
    | apply within_lastBlock_get
    | apply within_lastBlock_set
    | apply within_isActive_set
    | apply within_reverseTransactions
    | apply within_alias
    | match goal with |- within (if ?c then _ else _) => destruct c end
    | match goal with |- within (match ?c with _ => _ end) => destruct c end
    | match goal with |- Forall _ (if ?c then _ else _) => destruct c end
    | match goal with |- Forall _ (_ :: _) => constructor end
    | match goal with |- Forall _ [] => constructor end ].

#[export] Instance keepsPool_Footprint {DB Pool} :
  Footprint (@keepsPool DB Pool) anyEvent False True True.
Proof.
  constructor; unfold keepsPool, anyEvent; simpl; intros;
    try congruence; try tauto.
Qed.

#[export] Instance keepsRegister_Footprint {DB Pool} :
  Footprint (@keepsRegister DB Pool) anyEvent True False True.
Proof.
  constructor; unfold keepsRegister, anyEvent; simpl; intros;
    try congruence; try tauto.
Qed.

#[export] Instance keepsActive_Footprint {DB Pool} :
  Footprint (@keepsActive DB Pool) anyEvent True True False.
Proof.
  constructor; unfold keepsActive, anyEvent; simpl; intros;
    try congruence; try tauto.
Qed.

#[export] Instance extends_Footprint {DB Pool} (P : Event -> Prop) :
  Footprint (@extends DB Pool P) P True True True.
Proof.
  constructor;
    try solve [intros; exists []; simpl; rewrite app_nil_r; auto].
  - apply extends_trans.
  - intros e s He. exists [e]. simpl. auto.
Qed.

(** ** Errors, combinator by combinator *)

Section FailsOnly.

Context {DB Pool Account : Type}.
Variable E : Env DB Pool Account.
Variable P : Err -> Prop.

Lemma failsOnly_ret {A} (a : A) : failsOnly (DB:=DB) (Pool:=Pool) P (ret a).
Proof. intros s e H. discriminate. Qed.

Lemma failsOnly_reject {A} e :
  P e -> failsOnly (DB:=DB) (Pool:=Pool) P (reject (A:=A) e).
Proof. intros He s e' H. inversion H. subst. exact He. Qed.

Lemma failsOnly_emit ev : failsOnly (DB:=DB) (Pool:=Pool) P (emit ev).
Proof. intros s e H. discriminate. Qed.

Lemma failsOnly_lastBlock_set b :
  failsOnly (DB:=DB) (Pool:=Pool) P (lastBlock_set b).
Proof. intros s e H. discriminate. Qed.

Lemma failsOnly_isActive_set v :
  failsOnly (DB:=DB) (Pool:=Pool) P (isActive_set v).
Proof. intros s e H. discriminate. Qed.

Lemma failsOnly_removeUnconfirmedTransaction id :
  failsOnly P (removeUnconfirmedTransaction E id).
Proof. intros s e H. discriminate. Qed.

Lemma failsOnly_bind {A B} (m : M (DB:=DB) (Pool:=Pool) A) (k : A -> M B) :
  failsOnly P m -> (forall a, failsOnly P (k a)) -> failsOnly P (bind m k).
Proof.
  intros Hm Hk s e. unfold bind. specialize (Hm s).
  destruct (m s) as [[a | e' | c] s1]; simpl in *.
  - apply Hk.
  - intros H. inversion H. subst. apply Hm. reflexivity.
  - intros H. discriminate H.
Qed.

(** The handler decides: what the body failed with is [Q]. *)
Lemma failsOnly_catch {A} (Q : Err -> Prop)
    (m : M (DB:=DB) (Pool:=Pool) A) (h : Err -> M A) :
  failsOnly Q m -> (forall e, Q e -> failsOnly P (h e)) ->
  failsOnly P (catch m h).
Proof.
  intros Hm Hh s e. unfold catch. specialize (Hm s).
  destruct (m s) as [[a | e' | c] s1]; simpl in *;
    try (intros H; discriminate H).
  apply Hh. apply Hm. reflexivity.
Qed.

Lemma failsOnly_any {A} (m : M (DB:=DB) (Pool:=Pool) A) :
  failsOnly (fun _ => True) m.
Proof. intros s e _. exact I. Qed.

Lemma failsOnly_db_call {A} c (f : DB -> result A * DB) :
  (forall d e, fst (f d) = Fail e -> P e) ->
  failsOnly (Pool:=Pool) P (db_call c f).
Proof.
  intros Hf s e. unfold db_call. specialize (Hf (db s)).
  destruct (f (db s)) as [[a | e'] d]; simpl in *; intros H; inversion H.
  subst. apply Hf. reflexivity.
Qed.

Lemma failsOnly_db_tx {A} n (body : M (DB:=DB) (Pool:=Pool) A) :
  failsOnly P body -> failsOnly P (db_tx n body).
Proof.
  intros Hb s e. unfold db_tx. specialize (Hb (record (DbTx n) s)).
  destruct (body (record (DbTx n) s)) as [[a | e' | c] s1]; simpl in *;
    try (intros H; discriminate H).
  exact (Hb e).
Qed.

Lemma failsOnly_eachSeries {A} (f : A -> M (DB:=DB) (Pool:=Pool) unit) l :
  (forall x, failsOnly P (f x)) -> failsOnly P (eachSeries f l).
Proof.
  intros Hf. induction l as [| x l IH]; simpl.
  - apply failsOnly_ret.
  - apply failsOnly_bind; auto.
Qed.

Lemma failsOnly_weaken {A} (Q : Err -> Prop) (m : M (DB:=DB) (Pool:=Pool) A) :
  failsOnly Q m -> (forall e, Q e -> P e) -> failsOnly P m.
Proof. intros Hm HQ s e H. apply HQ. exact (Hm s e H). Qed.

End FailsOnly.

(** A handler of the form [log ;; ... ;; reject e]: what is left is to show
    that [e] is allowed. *)
Ltac fails_handler :=
  unfold logger;
  repeat first
    [ apply failsOnly_bind; [apply failsOnly_emit | intros _]
    | apply failsOnly_reject ].

(** ** applyBlock: the errors it calls back with *)

Section ApplyBlockErrors.

Context {DB Pool Account : Type}.
Variable E : Env DB Pool Account.

Lemma isMessage_ErrString msg : isMessage (ErrString msg).
Proof. exists msg. reflexivity. Qed.

Lemma failsOnly_undoUnconfirmedListStep :
  failsOnly isMessage (undoUnconfirmedListStep E).
Proof.
  unfold undoUnconfirmedListStep.
  apply (failsOnly_catch _ (fun _ => True)); [apply failsOnly_any |].
  intros e _. fails_handler. apply isMessage_ErrString.
Qed.

Lemma failsOnly_applyUnconfirmedStep b :
  failsOnly isMessage (applyUnconfirmedStep E b).
Proof.
  unfold applyUnconfirmedStep. apply failsOnly_eachSeries. intros t.
  apply failsOnly_bind; [| intros sender];
    (apply (failsOnly_catch _ (fun _ => True)); [apply failsOnly_any |]);
    intros e _; cbv zeta; fails_handler; apply isMessage_ErrString.
Qed.

Lemma failsOnly_applyConfirmedStep b :
  failsOnly isMessage (applyConfirmedStep E b).
Proof.
  unfold applyConfirmedStep. apply failsOnly_eachSeries. intros t.
  apply failsOnly_bind; [| intros sender];
    (apply (failsOnly_catch _ (fun _ => True)); [apply failsOnly_any |]);
    intros e _; cbv zeta; fails_handler; apply isMessage_ErrString.
Qed.

Lemma failsOnly_saveBlockStep b sv :
  failsOnly (fun e => isMessage e \/ tickError E (savedBlock b sv) e)
    (saveBlockStep E b sv).
Proof.
  unfold saveBlockStep, savedBlock, logger, bus_message.
  apply failsOnly_bind; [apply failsOnly_lastBlock_set | intros _].
  destruct sv.
  - apply failsOnly_bind; [intros s e H; discriminate H | intros _].
    apply failsOnly_bind; [| intros _].
    + apply (failsOnly_catch _ (fun _ => True)); [apply failsOnly_any |].
      intros e _. fails_handler. left. apply isMessage_ErrString.
    + apply failsOnly_bind; [apply failsOnly_emit | intros _].
      apply failsOnly_bind; [apply failsOnly_emit | intros _].
      apply failsOnly_db_call. intros d e H. right. exists d. exact H.
  - apply failsOnly_bind; [apply failsOnly_emit | intros _].
    apply failsOnly_db_call. intros d e H. right. exists d. exact H.
Qed.

Lemma failsOnly_applyBlockTx b sv :
  failsOnly (fun e => isMessage e \/ tickError E (savedBlock b sv) e)
    (applyBlockTx E b sv).
Proof.
  unfold applyBlockTx.
  apply failsOnly_bind; [apply failsOnly_isActive_set | intros _].
  apply failsOnly_bind; [| intros _].
  { eapply failsOnly_weaken; [apply failsOnly_applyUnconfirmedStep |].
    intros e He. left. exact He. }
  apply failsOnly_bind; [| intros _].
  { eapply failsOnly_weaken; [apply failsOnly_applyConfirmedStep |].
    intros e He. left. exact He. }
  apply failsOnly_saveBlockStep.
Qed.

Lemma undoUnconfirmedListStep_Failed (s : State DB Pool) e :
  fst (undoUnconfirmedListStep E s) = Failed e ->
  e = ErrString "Failed to undo unconfirmed list".
Proof.
  unfold undoUnconfirmedListStep, catch, bind, logger, emit, reject.
  destruct (transactions_undoUnconfirmedList E (pool s) (db s)) as [[[] | e'] [p d]];
    cbn; intros H; inversion H; reflexivity.
Qed.

Lemma isMessage_not_snapshot e : isMessage e -> isSnapshotFinished e = false.
Proof. intros [msg ->]. reflexivity. Qed.

Lemma neverExits_applyBlockRejected reason :
  neverExits (DB:=DB) (Pool:=Pool) (applyBlockRejected reason).
Proof.
  unfold applyBlockRejected, logger, process_emit.
  apply neverExits_bind; [apply neverExits_isActive_set | intros _].
  apply neverExits_bind; [| intros _; apply neverExits_reject].
  destruct (isSnapshotFinished reason); noexit.
Qed.

Lemma neverExits_applyBlock b sv : neverExits (applyBlock E b sv).
Proof.
  unfold applyBlock.
  apply neverExits_bind; [apply neverExits_undoUnconfirmedListStep | intros _].
  apply neverExits_catch; [| intros e; apply neverExits_applyBlockRejected].
  apply neverExits_bind; [| intros _; apply neverExits_applyBlockCommitted].
  apply neverExits_db_tx. apply neverExits_applyBlockTx.
Qed.

End ApplyBlockErrors.



(** X2. applyBlock always calls back: whatever its collaborators answer, it
    ends with success or with an error and never terminates the process. *)
Theorem applyBlock_always_calls_back {DB Pool Account} (E : Env DB Pool Account)
    (block : Block) (saveBlockFlag : bool) (s : State DB Pool) :
  fst (applyBlock E block saveBlockFlag s) = Done tt \/
  exists e, fst (applyBlock E block saveBlockFlag s) = Failed e.
Proof.
  pose proof (neverExits_applyBlock E block saveBlockFlag s) as H.
  destruct (fst (applyBlock E block saveBlockFlag s)) as [[] | e | c].
  - left. reflexivity.
  - right. exists e. reflexivity.
  - exfalso. apply (H c). reflexivity.
Qed.

(** X3. When the undo-unconfirmed-pool step fails, applyBlock stops there:
    it calls back with its own message, opens no persistence transaction,
    does not set the flag and applies nothing; storage and pool are what
    the failing call left: nothing restores them. *)
Theorem applyBlock_undo_list_failure {DB Pool Account} (E : Env DB Pool Account)
    (block : Block) (saveBlockFlag : bool) (s : State DB Pool)
    (e : Err) (p : Pool) (d : DB) :
  transactions_undoUnconfirmedList E (pool s) (db s) = (Fail e, (p, d)) ->
  applyBlock E block saveBlockFlag s =
  (Failed (ErrString "Failed to undo unconfirmed list"),
   record (Log error "Failed to undo unconfirmed list")
     (record (Call undoUnconfirmedList_) (with_db d (with_pool p s)))).
Proof.
  intros H. unfold applyBlock, bind, undoUnconfirmedListStep, catch.
  rewrite H. reflexivity.
Qed.

(** X3 on the small ledger, with a pool that cannot undo its list. *)
Lemma applyBlock_undo_list_failure_witness :
  trace
    (snd (applyBlock
            (Toy.env (Toy.mkFaults (Some (ErrString "pool")) None None None None)
               Toy.genesis)
            Toy.next true (Toy.start Toy.emptyPool)))
  = [Call undoUnconfirmedList_; Log error "Failed to undo unconfirmed list"].
Proof.
  rewrite (applyBlock_undo_list_failure
             (Toy.env (Toy.mkFaults (Some (ErrString "pool")) None None None None)
                Toy.genesis)
             Toy.next true (Toy.start Toy.emptyPool)
             (ErrString "pool") Toy.emptyPool Toy.storage eq_refl).
  reflexivity.
Defined.

(** ** applyBlock: the order of its steps *)

Lemma flat_map_single {A B} (f : A -> B) (l : list A) :
  flat_map (fun x => [f x]) l = map f l.
Proof. induction l as [| x l IH]; simpl; congruence. Qed.

Lemma assignBlockId_idempotent (b : Block) :
  assignBlockId (assignBlockId b) = assignBlockId b.
Proof.
  unfold assignBlockId. simpl. f_equal. rewrite map_map. reflexivity.
Qed.

Section ApplyBlockPipeline.

Context {DB Pool Account : Type}.
Variable E : Env DB Pool Account.
Variable sel : Event -> bool.

Lemma selects_undoUnconfirmedListStep :
  yields (R:=selects (DB:=DB) (Pool:=Pool) sel)
    (filter sel [Call undoUnconfirmedList_]) (undoUnconfirmedListStep E).
Proof.
  unfold undoUnconfirmedListStep. apply yields_catch; [| rejects_tac].
  apply (selects_one sel _ (Call undoUnconfirmedList_)).
  intros s. destruct (transactions_undoUnconfirmedList E (pool s) (db s)) as [r [p d]].
  reflexivity.
Qed.

Lemma selects_applyUnconfirmedStep b :
  yields (R:=selects (DB:=DB) (Pool:=Pool) sel)
    (flat_map (fun t => filter sel (unconfirmedCalls t)) (b_transactions b))
    (applyUnconfirmedStep E b).
Proof.
  unfold applyUnconfirmedStep.
  eapply yields_eq; [repeat yield_step |].
  apply flat_map_ext. intros t. unfold unconfirmedCalls. simpl.
  destruct (sel _); destruct (sel _); reflexivity.
Qed.

Lemma selects_applyConfirmedStep b :
  yields (R:=selects (DB:=DB) (Pool:=Pool) sel)
    (flat_map (fun t => filter sel (confirmedCalls t)) (b_transactions b))
    (applyConfirmedStep E b).
Proof.
  unfold applyConfirmedStep.
  eapply yields_eq; [repeat yield_step |].
  apply flat_map_ext. intros t. unfold confirmedCalls. simpl.
  destruct (sel _); destruct (sel _); reflexivity.
Qed.

Lemma selects_afterSave b :
  yields (R:=selects (DB:=DB) (Pool:=Pool) sel)
    (filter sel [BusMessage "transactionsSaved" (PTransactions (b_transactions b))]
     ++ flat_map (fun t => filter sel [Call (afterSave_ t)]) (b_transactions b))
    (afterSave E b).
Proof.
  unfold afterSave, bus_message.
  eapply yields_eq; [repeat yield_step | reflexivity].
Qed.

Lemma selects_saveBlockPromises b :
  yields (R:=selects (DB:=DB) (Pool:=Pool) sel)
    (filter sel (saveBlockCalls b)) (batch (saveBlockPromises E b)).
Proof.
  unfold saveBlockPromises, saveBlockCalls.
  destruct (0 <? _).
  - eapply yields_eq; [repeat yield_step |].
    simpl. destruct (sel _); destruct (sel _); reflexivity.
  - eapply yields_eq; [repeat yield_step |].
    simpl. destruct (sel _); reflexivity.
Qed.

Lemma selects_saveBlock_tx b :
  yields (R:=selects (DB:=DB) (Pool:=Pool) sel)
    (filter sel (saveBlockCalls (assignBlockId b))
     ++ filter sel
          [BusMessage "transactionsSaved"
             (PTransactions (b_transactions (assignBlockId b)))]
     ++ flat_map (fun t => filter sel [Call (afterSave_ t)])
          (b_transactions (assignBlockId b)))
    (saveBlock E b true).
Proof.
  unfold saveBlock. cbv zeta.
  eapply yields_bind; [| intros _; apply selects_afterSave].
  eapply yields_catch; [apply selects_saveBlockPromises | rejects_tac].
Qed.

End ApplyBlockPipeline.

Section ApplyBlockPipelineOrder.

Context {DB Pool Account : Type}.
Variable E : Env DB Pool Account.

Lemma filter_pipeline_saveBlockCalls b :
  filter pipelineEvent (saveBlockCalls b) = saveBlockCalls b.
Proof. unfold saveBlockCalls. destruct (0 <? _); reflexivity. Qed.

Lemma pipeline_applyBlockTx b (sv : bool) :
  yields (R:=selects (DB:=DB) (Pool:=Pool) pipelineEvent)
    ([IsActiveSet true]
     ++ map (fun t => Call (applyUnconfirmed_ t)) (b_transactions b)
     ++ map (fun t => Call (apply_ t)) (b_transactions b)
     ++ (if sv then saveBlockCalls (assignBlockId b) else @nil Event)
     ++ [Call (tick_ (savedBlock b sv))])
    (applyBlockTx E b sv).
Proof.
  unfold applyBlockTx, saveBlockStep, logger, bus_message.
  destruct sv.
  - eapply yields_eq.
    + eapply yields_bind; [apply selects_isActive_set | intros _].
      eapply yields_bind; [apply selects_applyUnconfirmedStep | intros _].
      eapply yields_bind; [apply selects_applyConfirmedStep | intros _].
      eapply yields_bind; [apply selects_lastBlock_set | intros _].
      eapply yields_bind; [| intros _].
      { instantiate (1 := []). intros s a s' H. inversion H. subst.
        exists []. rewrite app_nil_r. auto. }
      eapply yields_bind; [| intros _].
      { eapply yields_catch; [apply selects_saveBlock_tx | rejects_tac]. }
      repeat yield_step.
    + rewrite assignBlockId_idempotent, filter_pipeline_saveBlockCalls.
      change (fun t => filter pipelineEvent (unconfirmedCalls t))
        with (fun t => [Call (applyUnconfirmed_ t)]).
      change (fun t => filter pipelineEvent (confirmedCalls t))
        with (fun t => [Call (apply_ t)]).
      change (fun t => filter pipelineEvent [Call (afterSave_ t)])
        with (fun _ : Transaction => @nil Event).
      rewrite !flat_map_single, flat_map_nil.
      cbn [filter pipelineEvent app savedBlock]. rewrite app_nil_r.
      reflexivity.
  - eapply yields_eq.
    + eapply yields_bind; [apply selects_isActive_set | intros _].
      eapply yields_bind; [apply selects_applyUnconfirmedStep | intros _].
      eapply yields_bind; [apply selects_applyConfirmedStep | intros _].
      eapply yields_bind; [apply selects_lastBlock_set | intros _].
      repeat yield_step.
    + change (fun t => filter pipelineEvent (unconfirmedCalls t))
        with (fun t => [Call (applyUnconfirmed_ t)]).
      change (fun t => filter pipelineEvent (confirmedCalls t))
        with (fun t => [Call (apply_ t)]).
      rewrite !flat_map_single. reflexivity.
Qed.

Lemma pipeline_applyBlock b sv :
  yields (R:=selects (DB:=DB) (Pool:=Pool) pipelineEvent) (pipeline b sv)
    (applyBlock E b sv).
Proof.
  unfold applyBlock.
  eapply yields_eq.
  - eapply yields_bind; [apply selects_undoUnconfirmedListStep | intros _].
    eapply yields_catch; [| apply rejects_applyBlockRejected].
    eapply yields_bind; [| intros _].
    + eapply (yields_db_tx (filter pipelineEvent [DbTx "Chain:applyBlock"]) _
                (filter pipelineEvent [DbCommit "Chain:applyBlock"])).
      * intros s. apply selects_record.
      * apply pipeline_applyBlockTx.
      * intros s. apply selects_record.
    + unfold applyBlockCommitted. repeat yield_step.
  - unfold pipeline. simpl. rewrite flat_map_single.
    rewrite <- !app_assoc. simpl. reflexivity.
Qed.

End ApplyBlockPipelineOrder.

(** X4. A successful applyBlock takes its steps in this order: the pool's
    unconfirmed list is undone; the persistence transaction opens and the
    flag is set; every transaction of the block is applied unconfirmed, in
    block order; then every one is applied confirmed, in block order; the
    block and its transactions are saved if asked for, in the transaction
    that is open and in no other; the round ticks; the transaction commits;
    only then are the block's transactions taken out of the pool, in block
    order, and the flag cleared. *)
Theorem applyBlock_pipeline {DB Pool Account} (E : Env DB Pool Account)
    (block : Block) (saveBlockFlag : bool) (s s' : State DB Pool) :
  applyBlock E block saveBlockFlag s = (Done tt, s') ->
  exists evs,
    trace s' = trace s ++ evs /\
    filter pipelineEvent evs = pipeline block saveBlockFlag.
Proof. intros H. exact (pipeline_applyBlock E block saveBlockFlag s tt s' H). Qed.

(** X4 on the small ledger. *)
Lemma applyBlock_pipeline_witness :
  exists evs,
    trace Toy.applied = trace (Toy.start Toy.emptyPool) ++ evs /\
    filter pipelineEvent evs = pipeline Toy.next true.
Proof.
  apply (applyBlock_pipeline (Toy.env Toy.noFaults Toy.genesis) Toy.next true).
  vm_compute. reflexivity.
Defined.

(** ** applyBlock: what it leaves alone *)

Section ApplyBlockFootprint.

Context {DB Pool Account : Type}.
Variable E : Env DB Pool Account.
Context {R : State DB Pool -> State DB Pool -> Prop} {okE : Event -> Prop}
  {poolFree : Prop} {FP : Footprint R okE poolFree True True}.
Hypothesis okE_Log : forall l m, okE (Log l m).
Hypothesis okE_IsActiveSet : forall v, okE (IsActiveSet v).
Hypothesis okE_LastBlockSet : forall b, okE (LastBlockSet b).
Hypothesis okE_ProcessEmit : forall sg, okE (ProcessEmit sg).
Hypothesis okE_newBlock : forall p, okE (BusMessage "newBlock" p).
Hypothesis okE_DbTx : okE (DbTx "Chain:applyBlock").
Hypothesis okE_DbCommit : okE (DbCommit "Chain:applyBlock").
Hypothesis okE_DbRollback : okE (DbRollback "Chain:applyBlock").
Hypothesis okE_setAccountAndGet : forall pk, okE (Call (setAccountAndGet_ pk)).
Hypothesis okE_getAccount : forall pk, okE (Call (getAccount_ pk)).
Hypothesis okE_applyUnconfirmed : forall t, okE (Call (applyUnconfirmed_ t)).
Hypothesis okE_apply : forall t, okE (Call (apply_ t)).
Hypothesis okE_tick : forall b, okE (Call (tick_ b)).

Lemma within_applySteps b : within (R:=R) (applySteps E b).
Proof.
  unfold applySteps, applyUnconfirmedStep, applyConfirmedStep, logger.
  repeat within_step; auto.
Qed.

Lemma within_applyBlockRejected reason :
  within (R:=R) (applyBlockRejected reason).
Proof.
  unfold applyBlockRejected, logger, process_emit.
  repeat within_step; auto.
Qed.

(** The body of the persistence transaction when the block is not saved. *)
Lemma within_applyBlockTx_unsaved b : within (R:=R) (applyBlockTx E b false).
Proof.
  intros s. rewrite applyBlockTx_applySteps. revert s.
  apply within_bind; [apply within_applySteps | intros _].
  unfold saveBlockStep, bus_message.
  repeat within_step; auto.
Qed.

Hypothesis okE_blocks_save : forall b, okE (Call (blocks_save_ b)).
Hypothesis okE_transactions_save : forall ts, okE (Call (transactions_save_ ts)).
Hypothesis okE_afterSave : forall t, okE (Call (afterSave_ t)).
Hypothesis okE_transactionsSaved :
  forall p, okE (BusMessage "transactionsSaved" p).

Lemma within_saveBlock_tx b : within (R:=R) (saveBlock E b true).
Proof.
  unfold saveBlock, afterSave, saveBlockPromises, logger, bus_message.
  cbv zeta.
  repeat within_step; auto.
Qed.

Lemma within_applyBlockTx b sv : within (R:=R) (applyBlockTx E b sv).
Proof.
  destruct sv; [| apply within_applyBlockTx_unsaved].
  intros s. rewrite applyBlockTx_applySteps. revert s.
  apply within_bind; [apply within_applySteps | intros _].
  unfold saveBlockStep, logger, bus_message.
  apply within_bind; [apply within_lastBlock_set; auto | intros _].
  apply within_bind; [apply within_alias; exact I | intros _].
  apply within_bind; [| intros _].
  { apply within_catch; [apply within_saveBlock_tx | intros e].
    repeat within_step; auto. }
  repeat within_step; auto.
Qed.

End ApplyBlockFootprint.

(** X5. applyBlock called with the save flag off writes no block row and
    no transaction row, runs no after-save hook and announces no saved
    transactions, however it ends. The block is applied and announced as a
    new block all the same. *)
Theorem applyBlock_without_save {DB Pool Account} (E : Env DB Pool Account)
    (block : Block) (s : State DB Pool) :
  exists evs,
    trace (snd (applyBlock E block false s)) = trace s ++ evs /\
    Forall savesNothing evs.
Proof.
  revert s.
  change (within (R:=extends savesNothing) (applyBlock E block false)).
  unfold applyBlock.
  apply within_bind; [| intros _].
  { apply within_undoUnconfirmedListStep; simpl; auto. }
  apply within_catch.
  - apply within_bind; [| intros _].
    + apply within_db_tx; simpl; auto.
      apply within_applyBlockTx_unsaved; simpl; auto; intros; discriminate.
    + unfold applyBlockCommitted. repeat within_step; simpl; auto.
  - intros e. apply within_applyBlockRejected; simpl; auto.
Qed.

(** X6. What applyBlock does to the Transaction Pool. The pool is touched
    in two places only: by the undo of the unconfirmed list at the start,
    and, after a commit, by the removal of the block's transactions. When
    applyBlock succeeds the pool is the one the undo left with the block's
    transactions removed, in block order; when it fails the pool is the one
    the undo left: nothing applyBlock does puts the undone list back. *)
Theorem applyBlock_pool {DB Pool Account} (E : Env DB Pool Account)
    (block : Block) (saveBlockFlag : bool) (s : State DB Pool) :
  (fst (applyBlock E block saveBlockFlag s) = Done tt ->
   pool (snd (applyBlock E block saveBlockFlag s))
     = removeAll E (b_transactions block)
         (pool (snd (undoUnconfirmedListStep E s)))) /\
  (forall e,
     fst (applyBlock E block saveBlockFlag s) = Failed e ->
     pool (snd (applyBlock E block saveBlockFlag s))
       = pool (snd (undoUnconfirmedListStep E s))).
Proof.
  assert (Hrm : forall l (s0 : State DB Pool),
             pool (snd (applyBlockCommitted E
                          (mkBlock (b_id block) (b_height block)
                             (b_previousBlock block) l) s0))
             = removeAll E l (pool s0)).
  { unfold applyBlockCommitted, removeAll. simpl.
    induction l as [| t l IH]; intros s0; [reflexivity |].
    specialize (IH (snd (removeUnconfirmedTransaction E (t_id t) s0))).
    simpl in *. unfold bind in *. simpl in *.
    destruct (eachSeries _ l _) as [[[] | e | c] s1]; simpl in *; exact IH. }
  assert (Hc : forall s0 : State DB Pool,
             pool (snd (applyBlockCommitted E block s0))
             = removeAll E (b_transactions block) (pool s0)).
  { intros s0. rewrite <- Hrm. destruct block. reflexivity. }
  rewrite applyBlock_unfold.
  destruct (undoUnconfirmedListStep E s) as [[[] | e0 | c] s0];
    [| split; [discriminate | reflexivity] | split; [discriminate | intros ?; discriminate]].
  assert (Htx : within (R:=keepsPool) (applyBlockTx E block saveBlockFlag)).
  { apply within_applyBlockTx; intros; exact I. }
  specialize (Htx (record (DbTx "Chain:applyBlock") s0)).
  unfold keepsPool in Htx. simpl in Htx.
  destruct (applyBlockTx E block saveBlockFlag (record (DbTx "Chain:applyBlock") s0))
    as [[[] | e1 | c] s1]; simpl in Htx.
  - unfold catch.
    pose proof (applyBlockCommitted_done E block
                  (record (DbCommit "Chain:applyBlock") s1)) as Hd.
    specialize (Hc (record (DbCommit "Chain:applyBlock") s1)).
    destruct (applyBlockCommitted E block (record (DbCommit "Chain:applyBlock") s1))
      as [[[] | e1 | c] s2]; simpl in Hd; try discriminate.
    simpl in *. split; [intros _; congruence | intros e H; discriminate H].
  - assert (Hr : within (R:=keepsPool) (applyBlockRejected (DB:=DB) (Pool:=Pool) e1)).
    { apply within_applyBlockRejected; intros; exact I. }
    specialize (Hr (record (DbRollback "Chain:applyBlock") (with_db (db s0) s1))).
    unfold keepsPool in Hr. simpl in Hr.
    destruct (applyBlockRejected_fails e1
                (record (DbRollback "Chain:applyBlock") (with_db (db s0) s1)))
      as [Hf _].
    split.
    + intros H. rewrite Hf in H. discriminate H.
    + intros e _. simpl. congruence.
  - split; [discriminate | intros ?; discriminate].
Qed.

(** X6 on the small ledger: one transfer of alice is pending when a block
    that the sender cannot pay is applied. The pending transfer ends up
    queued, no longer unconfirmed. *)
Lemma applyBlock_pool_witness :
  pool (snd (applyBlock (Toy.env Toy.noFaults Toy.genesis) Toy.overdraft true
               Toy.pending))
  = Toy.mkPool [] (Toy.unconfirmed Toy.pendingPool).
Proof.
  rewrite (proj2 (applyBlock_pool (Toy.env Toy.noFaults Toy.genesis)
                    Toy.overdraft true Toy.pending)
             (ErrString
                "Failed to apply unconfirmed transaction: o1 - Account does not have enough LSK")
             ltac:(vm_compute; reflexivity)).
  vm_compute. reflexivity.
Defined.

(** ** The apply steps: where they stop *)

Section StepFailure.

Context {DB Pool Account : Type}.
Variable E : Env DB Pool Account.

(** A series that fails has run a prefix of the list to the end and has
    failed at the element after it. *)
Lemma eachSeries_Failed_inv {A} (f : A -> M (DB:=DB) (Pool:=Pool) unit) l s e s' :
  eachSeries f l s = (Failed e, s') ->
  exists l1 x l2 s1,
    l = l1 ++ x :: l2 /\
    eachSeries f l1 s = (Done tt, s1) /\
    f x s1 = (Failed e, s').
Proof.
  revert s. induction l as [| x l IH]; intros s H; [discriminate H |].
  rewrite eachSeries_cons_run in H.
  destruct (f x s) as [[[] | e0 | c] s0] eqn:Hx.
  - destruct (IH _ H) as [l1 [y [l2 [s1 [-> [Hd Hf]]]]]].
    exists (x :: l1), y, l2, s1. split; [reflexivity |]. split; [| exact Hf].
    rewrite eachSeries_cons_run, Hx. exact Hd.
  - inversion H. subst. exists [], x, l, s. auto.
  - discriminate H.
Qed.

Lemma applyUnconfirmedStep_at t (s : State DB Pool) e s' :
  (sender <- catch
               (db_call (setAccountAndGet_ (t_senderPublicKey t))
                  (accounts_setAccountAndGet E (t_senderPublicKey t)))
               (fun accountErr =>
                  let err :=
                    "Failed to get account to apply unconfirmed transaction: "
                    ^^ t_id t ^^ " - " ^^ err_toString accountErr in
                  logger error err ;;
                  logger error "Transaction" ;;
                  reject (ErrString err)) ;;
   catch
     (db_call (applyUnconfirmed_ t) (transactions_applyUnconfirmed E t sender))
     (fun err =>
        let err :=
          "Failed to apply unconfirmed transaction: "
          ^^ t_id t ^^ " - " ^^ err_toString err in
        logger error err ;;
        logger error "Transaction" ;;
        reject (ErrString err))) s = (Failed e, s') ->
  exists cause evs,
    trace s' = trace s ++ evs /\
    ((e = ErrString ("Failed to get account to apply unconfirmed transaction: "
                     ^^ t_id t ^^ " - " ^^ err_toString cause) /\
      filter isCall evs = [Call (setAccountAndGet_ (t_senderPublicKey t))])
     \/
     (e = ErrString ("Failed to apply unconfirmed transaction: "
                     ^^ t_id t ^^ " - " ^^ err_toString cause) /\
      filter isCall evs = unconfirmedCalls t)).
Proof.
  unfold bind, catch, db_call, logger, emit, reject. cbv zeta.
  destruct (accounts_setAccountAndGet E (t_senderPublicKey t) (db s))
    as [[sender | e1] d1]; cbn [of_result].
  - cbn [db with_db record].
    destruct (transactions_applyUnconfirmed E t sender d1) as [[[] | e2] d2];
      cbn [of_result]; intros H; inversion H; subst.
    exists e2. eexists. split.
    + cbn [trace record with_db]. rewrite <- !app_assoc. reflexivity.
    + right. split; reflexivity.
  - intros H; inversion H; subst.
    exists e1. eexists. split.
    + cbn [trace record with_db]. rewrite <- !app_assoc. reflexivity.
    + left. split; reflexivity.
Qed.

Lemma applyConfirmedStep_at b t (s : State DB Pool) e s' :
  (sender <- catch
               (db_read (getAccount_ (t_senderPublicKey t))
                  (accounts_getAccount E (t_senderPublicKey t)))
               (fun accountErr =>
                  let err :=
                    "Failed to get account to apply transaction: "
                    ^^ t_id t ^^ " - " ^^ err_toString accountErr in
                  logger error err ;;
                  logger error "Transaction" ;;
                  reject (ErrString err)) ;;
   catch
     (db_call (apply_ t) (transactions_apply E t b sender))
     (fun err =>
        let err :=
          "Failed to apply transaction: "
          ^^ t_id t ^^ " - " ^^ err_toString err in
        logger error err ;;
        logger error "Transaction" ;;
        reject (ErrString err))) s = (Failed e, s') ->
  exists cause evs,
    trace s' = trace s ++ evs /\
    ((e = ErrString ("Failed to get account to apply transaction: "
                     ^^ t_id t ^^ " - " ^^ err_toString cause) /\
      filter isCall evs = [Call (getAccount_ (t_senderPublicKey t))])
     \/
     (e = ErrString ("Failed to apply transaction: "
                     ^^ t_id t ^^ " - " ^^ err_toString cause) /\
      filter isCall evs = confirmedCalls t)).
Proof.
  unfold bind, catch, db_call, db_read, logger, emit, reject. cbv zeta.
  cbn [fst snd].
  destruct (accounts_getAccount E (t_senderPublicKey t) (db s))
    as [sender | e1]; cbn [of_result].
  - cbn [db with_db record].
    destruct (transactions_apply E t b sender (db s)) as [[[] | e2] d2];
      cbn [of_result]; intros H; inversion H; subst.
    exists e2. eexists. split.
    + cbn [trace record with_db]. rewrite <- !app_assoc. reflexivity.
    + right. split; reflexivity.
  - intros H; inversion H; subst.
    exists e1. eexists. split.
    + cbn [trace record with_db]. rewrite <- !app_assoc. reflexivity.
    + left. split; reflexivity.
Qed.

Lemma filter_isCall_unconfirmedCalls l :
  flat_map (fun t => filter isCall (unconfirmedCalls t)) l
  = flat_map unconfirmedCalls l.
Proof. apply flat_map_ext. reflexivity. Qed.

End StepFailure.





(** ** saveBlock and its hooks *)

Lemma assignBlockId_carries (b : Block) :
  Forall (fun t => t_blockId t = Some (b_id b)) (b_transactions (assignBlockId b)).
Proof.
  unfold assignBlockId. simpl. apply Forall_map, Forall_forall.
  intros t _. reflexivity.
Qed.

Section SaveBlockFacts.

Context {DB Pool Account : Type}.
Variable E : Env DB Pool Account.

Lemma within_eachSeries_In
    {R : State DB Pool -> State DB Pool -> Prop} {okE : Event -> Prop}
    {poolFree regFree actFree : Prop}
    {FP : Footprint R okE poolFree regFree actFree}
    {A} (f : A -> M unit) l :
  (forall x, In x l -> within (R:=R) (f x)) -> within (R:=R) (eachSeries f l).
Proof.
  induction l as [| x l IH]; intros Hf; simpl.
  - apply within_ret.
  - apply within_bind; [apply Hf; left; reflexivity | intros _].
    apply IH. intros y Hy. apply Hf. right. exact Hy.
Qed.

Lemma carries_saveBlock b tx :
  within (R:=extends (carriesBlockId (b_id b))) (saveBlock E b tx).
Proof.
  pose proof (assignBlockId_carries b) as Hc.
  unfold saveBlock. cbv zeta.
  apply within_bind; [| intros _].
  - assert (Hb : within (R:=extends (carriesBlockId (b_id b)))
                   (batch (saveBlockPromises E (assignBlockId b)))).
    { apply within_batch. unfold saveBlockPromises.
      constructor; [apply within_db_call; simpl; auto |].
      destruct (0 <? _); constructor; [| constructor].
      apply within_db_call. exact Hc. }
    unfold logger.
    destruct tx; repeat first [exact Hb | within_step]; simpl; auto.
  - unfold afterSave, bus_message.
    apply within_bind; [apply within_emit; exact Hc | intros _].
    apply within_eachSeries_In. intros t Ht.
    apply within_db_read. simpl.
    exact (proj1 (Forall_forall _ _) Hc t Ht).
Qed.

(** A hook that fails makes the series of hooks fail. *)
Lemma afterSave_hooks_fail l t cause (s : State DB Pool) :
  In t l -> logic_afterSave E t = Fail cause ->
  exists e,
    fst (eachSeries
           (fun t => db_read (Pool:=Pool) (afterSave_ t)
                       (fun _ : DB => logic_afterSave E t)) l s) = Failed e.
Proof.
  revert s. induction l as [| x l IH]; intros s Hin Hf; [destruct Hin |].
  rewrite eachSeries_cons_run. unfold db_read at 1. cbn [fst snd].
  destruct (logic_afterSave E x) as [[] | e0] eqn:Hx; cbn [of_result].
  - destruct Hin as [-> | Hin]; [congruence |].
    apply IH; assumption.
  - exists e0. reflexivity.
Qed.

(** A series of hooks that fails has failed with the error of a hook. *)
Lemma afterSave_hooks_Failed l (s s' : State DB Pool) e :
  eachSeries
    (fun t => db_read (Pool:=Pool) (afterSave_ t)
                (fun _ : DB => logic_afterSave E t)) l s = (Failed e, s') ->
  exists t, In t l /\ logic_afterSave E t = Fail e.
Proof.
  intros H. apply eachSeries_Failed_inv in H.
  destruct H as [l1 [t [l2 [s1 [-> [_ Hf]]]]]].
  exists t. split; [apply in_or_app; right; left; reflexivity |].
  unfold db_read in Hf. destruct (logic_afterSave E t) as [[] | e0];
    inversion Hf. reflexivity.
Qed.

Lemma afterSave_trace b (s : State DB Pool) :
  exists evs,
    trace (snd (afterSave E b s)) =
    trace s ++ BusMessage "transactionsSaved" (PTransactions (b_transactions b))
            :: evs.
Proof.
  unfold afterSave, bus_message, bind, emit. cbn [fst snd].
  match goal with |- context [eachSeries ?f ?l ?s0] =>
    pose proof (within_eachSeries (R:=extends anyEvent) f l
                  (fun t => within_db_read (afterSave_ t) _ I) s0) as Hx
  end.
  destruct Hx as [evs [Ht _]]. exists evs.
  match goal with |- context [eachSeries ?f ?l ?s0] =>
    destruct (eachSeries f l s0) as [[[] | e | c] s1] end;
    simpl in *; rewrite Ht, <- app_assoc; reflexivity.
Qed.

Lemma batch_never_exits b (s : State DB Pool) c :
  fst (batch (saveBlockPromises E b) s) <> Exited c.
Proof. apply neverExits_batch, neverExits_saveBlockPromises. Qed.

End SaveBlockFacts.

(** X9. Whatever saveBlock hands on carries the id of the block: the block
    row, the transaction rows, the list announced as saved and every
    transaction given to an after-save hook have [blockId] set to the id of
    the block, whether or not the transactions had one before. *)
Theorem saveBlock_assigns_block_id {DB Pool Account} (E : Env DB Pool Account)
    (block : Block) (tx : bool) (s : State DB Pool) :
  exists evs,
    trace (snd (saveBlock E block tx s)) = trace s ++ evs /\
    Forall (carriesBlockId (b_id block)) evs.
Proof. exact (carries_saveBlock E block tx s). Qed.

(** A failed saveBlock in a persistence transaction of its own, taken
    apart. *)
Lemma saveBlock_Failed_inv {DB Pool Account} (E : Env DB Pool Account)
    (block : Block) (s s' : State DB Pool) (e : Err) :
  saveBlock E block false s = (Failed e, s') ->
  (e = ErrString "Blocks#saveBlock error" /\
   db s' = db s /\
   exists cause,
     trace s' =
     trace s ++ DbTx "Chain:saveBlock" :: saveBlockCalls (assignBlockId block)
             ++ [DbRollback "Chain:saveBlock"; Log error cause])
  \/
  (exists t evs,
     In t (b_transactions (assignBlockId block)) /\
     logic_afterSave E t = Fail e /\
     db s' = db (snd (batch (saveBlockPromises E (assignBlockId block))
                        (record (DbTx "Chain:saveBlock") s))) /\
     trace s' =
     trace s ++ DbTx "Chain:saveBlock" :: saveBlockCalls (assignBlockId block)
             ++ DbCommit "Chain:saveBlock"
             :: BusMessage "transactionsSaved"
                  (PTransactions (b_transactions (assignBlockId block)))
             :: evs).
Proof.
  rewrite saveBlock_own_tx.
  pose proof (batch_saveBlockPromises_trace E (assignBlockId block)
                (record (DbTx "Chain:saveBlock") s)) as Ht.
  pose proof (batch_never_exits E (assignBlockId block)
                (record (DbTx "Chain:saveBlock") s)) as Hx.
  destruct (batch (saveBlockPromises E (assignBlockId block))
              (record (DbTx "Chain:saveBlock") s)) as [[[] | e0 | c] s1];
    simpl in Ht, Hx.
  - intros H. right.
    destruct (afterSave_quiet E (assignBlockId block)
                (record (DbCommit "Chain:saveBlock") s1)) as [Hdb _].
    destruct (afterSave_trace E (assignBlockId block)
                (record (DbCommit "Chain:saveBlock") s1)) as [evs Hev].
    rewrite H in Hdb, Hev. cbn [fst snd record db trace] in Hdb, Hev.
    unfold afterSave, bus_message, bind, emit in H. cbn [fst snd] in H.
    destruct (afterSave_hooks_Failed E _ _ _ _ H) as [t [Hin Hf]].
    exists t, evs. split; [exact Hin |]. split; [exact Hf |].
    split; [exact Hdb |].
    rewrite Hev, Ht. rewrite <- !app_assoc. reflexivity.
  - intros H. inversion H. subst. left.
    split; [reflexivity |]. split; [reflexivity |].
    exists (err_toString e0). simpl. rewrite Ht. simpl.
    rewrite <- !app_assoc. reflexivity.
  - exfalso. apply (Hx c). reflexivity.
Qed.



(** ** saveGenesisBlock: a failing hook and the next call *)

Section SaveGenesisBlockRetry.

Context {DB Pool Account : Type}.
Variable E : Env DB Pool Account.

Lemma batch_both_saved b d1 d2 (s : State DB Pool) :
  b_transactions b <> [] ->
  db_blocks_save E b (db s) = (Ok tt, d1) ->
  db_transactions_save E (b_transactions b) d1 = (Ok tt, d2) ->
  fst (batch (saveBlockPromises E b) s) = Done tt /\
  db (snd (batch (saveBlockPromises E b) s)) = d2.
Proof.
  intros Hne H1 H2. unfold saveBlockPromises.
  destruct (b_transactions b) as [| t ts] eqn:Hts; [congruence |].
  replace (0 <? Z.of_nat (length (t :: ts))) with true
    by (symmetry; apply Z.ltb_lt; simpl; lia).
  simpl. unfold db_call. rewrite H1. simpl. rewrite H2. simpl. auto.
Qed.

End SaveGenesisBlockRetry.



(** X26. The errors saveGenesisBlock calls back with. When the lookup of
    the genesis id fails, the error is the fixed string of
    saveGenesisBlock, and nothing has been written. Otherwise a failure is
    one of saveBlock: its fixed string when a query of the batch failed, or
    the error of an after-save hook of a genesis transaction. What storage
    itself answered never reaches the caller; it goes to the log. *)
Theorem saveGenesisBlock_error_values {DB Pool Account} (E : Env DB Pool Account)
    (s : State DB Pool) (e : Err) :
  fst (saveGenesisBlock E s) = Failed e ->
  (e = ErrString "Blocks#saveGenesisBlock error" /\
   db (snd (saveGenesisBlock E s)) = db s /\
   exists cause,
     db_getGenesisBlockId E (b_id (genesisblock E)) (db s) = Fail cause /\
     trace (snd (saveGenesisBlock E s)) =
     trace s ++ [Call (getGenesisBlockId_ (b_id (genesisblock E)));
                 Log error (err_toString cause)])
  \/
  (e = ErrString "Blocks#saveBlock error" /\
   db (snd (saveGenesisBlock E s)) = db s)
  \/
  (exists t,
     In t (b_transactions (assignBlockId (genesisblock E))) /\
     logic_afterSave E t = Fail e).
Proof.
  rewrite saveGenesisBlock_unfold. cbv zeta.
  destruct (db_getGenesisBlockId E (b_id (genesisblock E)) (db s))
    as [rows | cause].
  - destruct (genesisRowFound rows); [intros H; discriminate H |].
    intros H.
    destruct (saveBlock E (genesisblock E) false
                (record (Call (getGenesisBlockId_ (b_id (genesisblock E)))) s))
      as [o s'] eqn:Hs.
    simpl in H. subst o.
    destruct (saveBlock_Failed_inv E _ _ _ _ Hs)
      as [[-> [Hdb _]] | [t [evs [Hin [Hf _]]]]].
    + right. left. split; [reflexivity | exact Hdb].
    + right. right. exists t. split; assumption.
  - intros H. inversion H. left.
    split; [reflexivity |]. split; [reflexivity |].
    exists cause. split; [reflexivity |].
    simpl. rewrite <- app_assoc. reflexivity.
Qed.

(** X26 on the small ledger, with a storage that cannot look the genesis
    block up. *)
Lemma saveGenesisBlock_error_values_witness :
  fst (saveGenesisBlock
         (Toy.env (Toy.mkFaults None None None None (Some (ErrString "no connection")))
            Toy.genesis)
         Toy.fresh)
  = Failed (ErrString "Blocks#saveGenesisBlock error") /\
  db (snd (saveGenesisBlock
             (Toy.env (Toy.mkFaults None None None None
                         (Some (ErrString "no connection")))
                Toy.genesis)
             Toy.fresh))
  = db Toy.fresh.
Proof.
  assert (H : fst (saveGenesisBlock
                     (Toy.env (Toy.mkFaults None None None None
                                 (Some (ErrString "no connection")))
                        Toy.genesis)
                     Toy.fresh)
              = Failed (ErrString "Blocks#saveGenesisBlock error"))
    by (vm_compute; reflexivity).
  split; [exact H |].
  destruct (saveGenesisBlock_error_values _ _ _ H)
    as [[_ [Hdb _]] | [[He _] | [t [Hin Hf]]]].
  - exact Hdb.
  - discriminate He.
  - exfalso. destruct Hin as [<- | []]. discriminate Hf.
Defined.

(** ** applyGenesisBlock *)

Section ApplyGenesisBlockFacts.

Context {DB Pool Account : Type}.
Variable E : Env DB Pool Account.

(** The loop of applyGenesisBlock over the sorted transactions. *)
Lemma applyGenesisBlock_unfold b (s : State DB Pool) :
  applyGenesisBlock E b s =
  match
    eachSeries
      (fun transaction =>
         sender <- catch
                     (db_call (setAccountAndGet_ (t_senderPublicKey transaction))
                        (accounts_setAccountAndGet E (t_senderPublicKey transaction)))
                     (fun err => reject (ErrApply err transaction (sortedGenesis E b))) ;;
         applyTransaction E (sortedGenesis E b) transaction sender)
      (b_transactions (sortedGenesis E b)) s
  with
  | (Done _, s1) =>
      let (r, d) := rounds_tick E (sortedGenesis E b) (db s1) in
      (of_result r,
       record (Call (tick_ (sortedGenesis E b)))
         (with_db d
            (record (LastBlockSet (sortedGenesis E b))
               (with_lastBlock (sortedGenesis E b) s1))))
  | (Failed _, s1) => (Exited 0, record (ProcessExit 0) s1)
  | (Exited c, s1) => (Exited c, s1)
  end.
Proof.
  unfold applyGenesisBlock. cbv zeta. fold (sortedGenesis E b).
  unfold bind at 1, catch at 1.
  destruct (eachSeries _ (b_transactions (sortedGenesis E b)) s)
    as [[[] | e | c] s1]; reflexivity.
Qed.

Section GenesisLoop.
Context {R : State DB Pool -> State DB Pool -> Prop} {okE : Event -> Prop}
  {poolFree regFree actFree : Prop}
  {FP : Footprint R okE poolFree regFree actFree}.
Hypothesis okE_setAccountAndGet : forall pk, okE (Call (setAccountAndGet_ pk)).
Hypothesis okE_applyUnconfirmed : forall t, okE (Call (applyUnconfirmed_ t)).
Hypothesis okE_apply : forall t, okE (Call (apply_ t)).

Lemma within_genesis_loop (g : Block) l :
  within (R:=R)
    (eachSeries
       (fun transaction =>
          sender <- catch
                      (db_call (setAccountAndGet_ (t_senderPublicKey transaction))
                         (accounts_setAccountAndGet E (t_senderPublicKey transaction)))
                      (fun err => reject (ErrApply err transaction g)) ;;
          applyTransaction E g transaction sender)
       l).
Proof.
  unfold applyTransaction. repeat within_step; auto.
Qed.

End GenesisLoop.

Lemma neverExits_genesis_loop (g : Block) l :
  neverExits (DB:=DB) (Pool:=Pool)
    (eachSeries
       (fun transaction =>
          sender <- catch
                      (db_call (setAccountAndGet_ (t_senderPublicKey transaction))
                         (accounts_setAccountAndGet E (t_senderPublicKey transaction)))
                      (fun err => reject (ErrApply err transaction g)) ;;
          applyTransaction E g transaction sender)
       l).
Proof. unfold applyTransaction. noexit. Qed.

Lemma selects_genesis_loop sel (g : Block) l :
  yields (R:=selects (DB:=DB) (Pool:=Pool) sel)
    (flat_map (fun t => filter sel (genesisCalls t)) l)
    (eachSeries
       (fun transaction =>
          sender <- catch
                      (db_call (setAccountAndGet_ (t_senderPublicKey transaction))
                         (accounts_setAccountAndGet E (t_senderPublicKey transaction)))
                      (fun err => reject (ErrApply err transaction g)) ;;
          applyTransaction E g transaction sender)
       l).
Proof.
  unfold applyTransaction.
  eapply yields_eq; [repeat yield_step |].
  apply flat_map_ext. intros t. unfold genesisCalls. simpl.
  destruct (sel _); destruct (sel _); destruct (sel _); reflexivity.
Qed.

End ApplyGenesisBlockFacts.

(** X12. How applyGenesisBlock ends. A failure while a genesis transaction
    is applied (its sender cannot be set up, or it cannot be applied
    unconfirmed or confirmed) never reaches the caller: the process is
    terminated with exit code 0, and up to then senders have been set up
    and transactions applied and nothing else: the Last-Block Register is
    not written and the round does not tick. An error the caller does get
    can only be the one the round tick returned, and by then the register
    already holds the genesis block, as it does after a success. *)
Theorem applyGenesisBlock_outcomes {DB Pool Account} (E : Env DB Pool Account)
    (block : Block) (s : State DB Pool) :
  (forall c,
     fst (applyGenesisBlock E block s) = Exited c ->
     c = 0 /\
     lastBlock (snd (applyGenesisBlock E block s)) = lastBlock s /\
     exists evs,
       trace (snd (applyGenesisBlock E block s)) = trace s ++ evs ++ [ProcessExit 0] /\
       Forall appliesOnly evs) /\
  (forall e,
     fst (applyGenesisBlock E block s) = Failed e ->
     tickError E (sortedGenesis E block) e /\
     lastBlock (snd (applyGenesisBlock E block s)) = sortedGenesis E block) /\
  (fst (applyGenesisBlock E block s) = Done tt ->
   lastBlock (snd (applyGenesisBlock E block s)) = sortedGenesis E block).
Proof.
  rewrite applyGenesisBlock_unfold.
  pose proof (neverExits_genesis_loop E (sortedGenesis E block)
                (b_transactions (sortedGenesis E block)) s) as Hx.
  pose proof (within_genesis_loop E (R:=keepsRegister)
                (fun _ => I) (fun _ => I) (fun _ => I)
                (sortedGenesis E block)
                (b_transactions (sortedGenesis E block)) s) as Hreg.
  pose proof (within_genesis_loop E (R:=extends appliesOnly)
                (fun _ => I) (fun _ => I) (fun _ => I)
                (sortedGenesis E block)
                (b_transactions (sortedGenesis E block)) s) as Hev.
  destruct (eachSeries _ (b_transactions (sortedGenesis E block)) s)
    as [[[] | e0 | c0] s1]; simpl in Hx, Hreg, Hev.
  - destruct (rounds_tick E (sortedGenesis E block) (db s1)) as [r d] eqn:Ht.
    split; [| split].
    + intros c H. destruct r; discriminate H.
    + intros e H. split; [| reflexivity].
      exists (db s1). rewrite Ht. destruct r; inversion H. reflexivity.
    + intros _. reflexivity.
  - split; [| split]; try (intros; discriminate).
    intros c H. inversion H. split; [reflexivity |].
    split; [exact Hreg |].
    destruct Hev as [evs [Ht Hf]]. exists evs. split.
    + simpl. rewrite Ht, app_assoc. reflexivity.
    + exact Hf.
  - exfalso. apply (Hx c0). reflexivity.
Qed.

(** X12 on the small ledger: the third genesis transaction cannot be
    applied. What the two before it wrote to the account store stays. *)
Lemma applyGenesisBlock_outcomes_witness :
  fst (applyGenesisBlock Faulty.stuckApplyEnv Toy.rawGenesis Toy.fresh) = Exited 0 /\
  lastBlock (snd (applyGenesisBlock Faulty.stuckApplyEnv Toy.rawGenesis Toy.fresh))
  = lastBlock Toy.fresh /\
  db (snd (applyGenesisBlock Faulty.stuckApplyEnv Toy.rawGenesis Toy.fresh))
  <> db Toy.fresh.
Proof.
  assert (H : fst (applyGenesisBlock Faulty.stuckApplyEnv Toy.rawGenesis Toy.fresh)
              = Exited 0) by (vm_compute; reflexivity).
  split; [exact H |].
  split.
  - exact (proj1 (proj2 (proj1 (applyGenesisBlock_outcomes Faulty.stuckApplyEnv
                                  Toy.rawGenesis Toy.fresh) 0 H))).
  - vm_compute. intros Hd. discriminate Hd.
Defined.

(** X13. applyGenesisBlock works outside any persistence transaction,
    however it ends: all it does is call its collaborators, write the
    register and, on a failure, end the process. It opens no transaction,
    so nothing rolls back what a genesis application that failed half way
    has written; it sends nothing on the bus and does not touch the flag. *)
Theorem applyGenesisBlock_unguarded {DB Pool Account} (E : Env DB Pool Account)
    (block : Block) (s : State DB Pool) :
  exists evs,
    trace (snd (applyGenesisBlock E block s)) = trace s ++ evs /\
    Forall unguarded evs.
Proof.
  revert s.
  change (within (R:=extends unguarded) (applyGenesisBlock E block)).
  unfold applyGenesisBlock, applyTransaction. cbv zeta.
  repeat within_step; exact I.
Qed.

(** X14. The order in which applyGenesisBlock applies the genesis
    transactions when the engine sorts with its insertion sort (the one
    used for arrays of at most ten elements). For every block: the
    transactions that are not votes come first, in the order of the block;
    the votes follow, in the reverse of their order in the block. Each
    transaction has its sender set up and is applied unconfirmed and then
    confirmed before the next one is looked at; the round ticks last. The
    register ends up holding the transactions in that order. *)
Theorem applyGenesisBlock_insertion_sort_order {DB Pool Account}
    (E : Env DB Pool Account) (block : Block) (s s' : State DB Pool) :
  Array_sort E genesisComparator (b_transactions block)
    = InsertionSort genesisComparator (b_transactions block) ->
  applyGenesisBlock E block s = (Done tt, s') ->
  b_transactions (lastBlock s') =
    filter (fun t => negb (isVOTE (t_type t))) (b_transactions block)
    ++ rev (filter (fun t => isVOTE (t_type t)) (b_transactions block)) /\
  exists evs,
    trace s' = trace s ++ evs /\
    filter isCall evs =
      flat_map genesisCalls
        (filter (fun t => negb (isVOTE (t_type t))) (b_transactions block)
         ++ rev (filter (fun t => isVOTE (t_type t)) (b_transactions block)))
      ++ [Call (tick_ (sortedGenesis E block))].
Proof.
  intros Hsort H.
  assert (Hts : b_transactions (sortedGenesis E block) =
                filter (fun t => negb (isVOTE (t_type t))) (b_transactions block)
                ++ rev (filter (fun t => isVOTE (t_type t)) (b_transactions block))).
  { unfold sortedGenesis. cbn [b_transactions].
    rewrite Hsort. apply InsertionSort_genesisComparator. }
  rewrite applyGenesisBlock_unfold in H.
  pose proof (selects_genesis_loop E isCall (sortedGenesis E block)
                (b_transactions (sortedGenesis E block)) s) as Hy.
  destruct (eachSeries _ (b_transactions (sortedGenesis E block)) s)
    as [[[] | e0 | c0] s1]; try discriminate H.
  destruct (Hy tt s1 eq_refl) as [evs [Ht Hf]].
  destruct (rounds_tick E (sortedGenesis E block) (db s1)) as [r d].
  destruct r as [[] | e]; inversion H. subst s'. clear H.
  split; [exact Hts |].
  exists (evs ++ [LastBlockSet (sortedGenesis E block);
                  Call (tick_ (sortedGenesis E block))]).
  split.
  - cbn [trace record with_db with_lastBlock]. rewrite Ht, <- !app_assoc.
    reflexivity.
  - rewrite filter_app, Hf, <- Hts. reflexivity.
Qed.

(** X14 on the small ledger: a transfer, a vote, a transfer, a vote. *)
Lemma applyGenesisBlock_insertion_sort_order_witness :
  map t_id
    (b_transactions
       (lastBlock (snd (applyGenesisBlock (Toy.env Toy.noFaults Toy.rawGenesis)
                          Toy.rawGenesis Toy.fresh))))
  = ["a"; "c"; "d"; "b"].
Proof.
  rewrite (proj1 (applyGenesisBlock_insertion_sort_order
                    (Toy.env Toy.noFaults Toy.rawGenesis) Toy.rawGenesis Toy.fresh
                    (snd (applyGenesisBlock (Toy.env Toy.noFaults Toy.rawGenesis)
                            Toy.rawGenesis Toy.fresh))
                    eq_refl ltac:(vm_compute; reflexivity))).
  reflexivity.
Defined.

(** ** deleteLastBlock and recoverChain *)

Section PopLastBlockFootprint.

Context {DB Pool Account : Type}.
Variable E : Env DB Pool Account.
Context {R : State DB Pool -> State DB Pool -> Prop} {okE : Event -> Prop}
  {poolFree regFree actFree : Prop}
  {FP : Footprint R okE poolFree regFree actFree}.
Hypothesis okE_Log : forall l m, okE (Log l m).
Hypothesis okE_Call : forall c, okE (Call c).

Lemma within_loadSecondLastBlockStep id :
  within (R:=R) (loadSecondLastBlockStep E id).
Proof.
  unfold loadSecondLastBlockStep, logger. repeat within_step; auto.
Qed.

Lemma within_undoAll reversed previousBlock :
  within (R:=R) (undoAll E reversed previousBlock).
Proof.
  unfold undoAll, undoStep, undoUnconfirmStep, backwardTickStep, deleteBlockStep,
    deleteBlock, logger.
  repeat within_step; auto.
Qed.

Hypothesis free : regFree.

Lemma within_popLastBlockTx : within (R:=R) (popLastBlockTx E).
Proof.
  change (popLastBlockTx E) with
    (oldLastBlock <- lastBlock_get ;;
     previousBlock <- loadSecondLastBlockStep E (b_previousBlock oldLastBlock) ;;
     reversed <- reverseTransactions ;;
     undoAll E reversed previousBlock).
  apply within_bind; [apply within_lastBlock_get | intros old].
  apply within_bind; [apply within_loadSecondLastBlockStep | intros prev].
  apply within_bind; [apply within_reverseTransactions, free | intros reversed].
  apply within_undoAll.
Qed.

Hypothesis okE_DbTx : forall n, okE (DbTx n).
Hypothesis okE_DbCommit : forall n, okE (DbCommit n).
Hypothesis okE_DbRollback : forall n, okE (DbRollback n).
Hypothesis okE_ProcessExit : forall c, okE (ProcessExit c).

Lemma within_popLastBlock : within (R:=R) (popLastBlock E).
Proof.
  unfold popLastBlock.
  apply within_catch; [| intros e; apply within_process_exit, okE_ProcessExit].
  apply within_db_tx; auto. apply within_popLastBlockTx.
Qed.

Hypothesis okE_LastBlockSet : forall b, okE (LastBlockSet b).
Hypothesis freePool : poolFree.

Lemma within_deleteLastBlock : within (R:=R) (deleteLastBlock E).
Proof.
  unfold deleteLastBlock, logger.
  apply within_bind; [apply within_lastBlock_get | intros old].
  apply within_bind; [apply within_emit, okE_Log | intros _].
  destruct (b_height old =? 1); [apply within_reject |].
  apply within_bind; [| intros p].
  { apply within_catch; [apply within_popLastBlock | intros e].
    repeat within_step; auto. }
  apply within_bind; [apply within_reverseTransactions, free | intros reversed].
  repeat within_step; auto.
Qed.

Lemma within_recoverChain : within (R:=R) (recoverChain E).
Proof.
  unfold recoverChain, logger.
  apply within_bind; [apply within_emit, okE_Log | intros _].
  apply within_catch.
  - apply within_bind; [apply within_deleteLastBlock | intros p].
    apply within_emit, okE_Log.
  - intros e. repeat within_step; auto.
Qed.

End PopLastBlockFootprint.

Section DeleteLastBlockExit.

Context {DB Pool Account : Type}.
Variable E : Env DB Pool Account.

Lemma neverExits_popLastBlockTx : neverExits (popLastBlockTx E).
Proof.
  unfold popLastBlockTx, loadSecondLastBlockStep, undoStep, undoUnconfirmStep,
    backwardTickStep, deleteBlockStep, deleteBlock, logger.
  assert (Hget : neverExits (DB:=DB) (Pool:=Pool) lastBlock_get)
    by (intros s c; discriminate).
  assert (Hrev : neverExits (DB:=DB) (Pool:=Pool) reverseTransactions)
    by (intros s c; discriminate).
  apply neverExits_bind; [exact Hget | intros old].
  apply neverExits_bind; [| intros prev].
  { apply neverExits_bind; [noexit | intros blocks].
    destruct blocks; noexit. }
  apply neverExits_bind; [exact Hrev | intros reversed].
  repeat first [exact Hget | noexit_step].
Qed.

(** The body of popLastBlock's transaction leaves the register's block the
    object it was. *)
Lemma popLastBlockTx_sameObject (s : State DB Pool) :
  sameObject s (snd (popLastBlockTx E s)).
Proof.
  change (popLastBlockTx E s) with
    ((oldLastBlock <- lastBlock_get ;;
      previousBlock <- loadSecondLastBlockStep E (b_previousBlock oldLastBlock) ;;
      reversed <- reverseTransactions ;;
      undoAll E reversed previousBlock) s).
  unfold bind at 1. cbn [lastBlock_get fst snd].
  unfold bind at 1.
  pose proof (within_loadSecondLastBlockStep E (R:=keepsRegister)
                (fun _ _ => I) (fun _ => I)
                (b_previousBlock (lastBlock s)) s) as Hl.
  destruct (loadSecondLastBlockStep E (b_previousBlock (lastBlock s)) s)
    as [[prev | e | c] s1]; unfold keepsRegister in Hl; simpl in Hl;
    try (left; exact Hl).
  unfold bind at 1. cbn [reverseTransactions fst snd].
  match goal with |- sameObject _ (snd (undoAll E ?r ?p ?s2)) =>
    pose proof (respects_undoAll_register E r p s2) as Hu
  end.
  unfold keepsRegister in Hu. simpl in Hu.
  right. rewrite Hu, Hl. reflexivity.
Qed.

(** popLastBlock ends the process when its transaction fails: after the
    rollback, with exit code 0. *)
Lemma popLastBlock_Exited (s : State DB Pool) c :
  fst (popLastBlock E s) = Exited c ->
  c = 0 /\
  db (snd (popLastBlock E s)) = db s /\
  pool (snd (popLastBlock E s)) = pool s /\
  isActive (snd (popLastBlock E s)) = isActive s /\
  sameObject s (snd (popLastBlock E s)) /\
  exists evs,
    trace (snd (popLastBlock E s)) =
    trace s ++ evs ++ [DbRollback "Chain:deleteBlock"; ProcessExit 0].
Proof.
  unfold popLastBlock, catch, db_tx.
  pose proof (neverExits_popLastBlockTx (record (DbTx "Chain:deleteBlock") s)) as Hx.
  pose proof (within_popLastBlockTx E (R:=keepsPool)
                (fun _ _ => I) (fun _ => I) I
                (record (DbTx "Chain:deleteBlock") s)) as Hp.
  pose proof (within_popLastBlockTx E (R:=keepsActive)
                (fun _ _ => I) (fun _ => I) I
                (record (DbTx "Chain:deleteBlock") s)) as Ha.
  pose proof (within_popLastBlockTx E (R:=extends anyEvent)
                (fun _ _ => I) (fun _ => I) I
                (record (DbTx "Chain:deleteBlock") s)) as Ht.
  pose proof (popLastBlockTx_sameObject (record (DbTx "Chain:deleteBlock") s)) as Ho.
  destruct (popLastBlockTx E (record (DbTx "Chain:deleteBlock") s))
    as [[p | e | c0] s1]; simpl in *.
  - intros H. discriminate H.
  - intros H. inversion H.
    unfold keepsPool, keepsActive in *. simpl in *.
    repeat split; auto.
    destruct Ht as [evs [Ht _]].
    exists (DbTx "Chain:deleteBlock" :: evs).
    rewrite Ht. simpl. rewrite <- !app_assoc. reflexivity.
  - exfalso. apply (Hx c0). reflexivity.
Qed.

End DeleteLastBlockExit.

Section DeleteLastBlockOutcomes.

Context {DB Pool Account : Type}.
Variable E : Env DB Pool Account.

Lemma deleteLastBlock_Failed (s : State DB Pool) e :
  fst (deleteLastBlock E s) = Failed e ->
  b_height (lastBlock s) = 1 /\ e = ErrString "Cannot delete genesis block".
Proof.
  destruct (Z.eq_dec (b_height (lastBlock s)) 1) as [Hh | Hh].
  - rewrite (deleteLastBlock_at_genesis E s Hh). intros H. inversion H. auto.
  - rewrite (deleteLastBlock_past_guard E s Hh).
    pose proof (popLastBlock_never_fails E (record (Log warn "Deleting last block") s))
      as Hnf.
    destruct (popLastBlock E (record (Log warn "Deleting last block") s))
      as [[p | e0 | c0] s1]; simpl in Hnf.
    + destruct (transactions_receiveTransactions E _ false (pool s1)) as [r pl].
      intros H. discriminate H.
    + exfalso. apply (Hnf e0). reflexivity.
    + intros H. discriminate H.
Qed.

Lemma deleteLastBlock_Exited (s : State DB Pool) c :
  fst (deleteLastBlock E s) = Exited c ->
  c = 0 /\
  db (snd (deleteLastBlock E s)) = db s /\
  pool (snd (deleteLastBlock E s)) = pool s /\
  isActive (snd (deleteLastBlock E s)) = isActive s /\
  sameObject s (snd (deleteLastBlock E s)) /\
  exists evs,
    trace (snd (deleteLastBlock E s)) =
    trace s ++ evs ++ [DbRollback "Chain:deleteBlock"; ProcessExit 0].
Proof.
  destruct (Z.eq_dec (b_height (lastBlock s)) 1) as [Hh | Hh].
  - rewrite (deleteLastBlock_at_genesis E s Hh). intros H. discriminate H.
  - rewrite (deleteLastBlock_past_guard E s Hh).
    pose proof (popLastBlock_Exited E (record (Log warn "Deleting last block") s))
      as Hex.
    destruct (popLastBlock E (record (Log warn "Deleting last block") s))
      as [[p | e0 | c0] s1]; simpl in Hex.
    + destruct (transactions_receiveTransactions E _ false (pool s1)) as [r pl].
      intros H. discriminate H.
    + intros H. discriminate H.
    + intros H. inversion H. subst c0.
      destruct (Hex c eq_refl) as [Hc [Hd [Hp [Ha [Ho [evs Ht]]]]]].
      repeat split; auto.
      exists (Log warn "Deleting last block" :: evs).
      simpl. rewrite Ht. simpl. rewrite <- !app_assoc. reflexivity.
Qed.

Lemma deleteLastBlock_Done_register (s sf : State DB Pool) p :
  deleteLastBlock E s = (Done p, sf) -> lastBlock sf = p.
Proof.
  intros H. apply deleteLastBlock_Done in H.
  destruct H as [_ [sb [r [pl [_ [_ ->]]]]]]. reflexivity.
Qed.

Lemma recoverChain_unfold (s : State DB Pool) :
  recoverChain E s =
  match
    deleteLastBlock E
      (record (Log warn "Chain comparison failed, starting recovery") s)
  with
  | (Done p, s1) =>
      (Done tt,
       record (Log info ("Recovery complete, new last block " ^^ b_id p)) s1)
  | (Failed e, s1) => (Failed e, record (Log error "Recovery failed") s1)
  | (Exited c, s1) => (Exited c, s1)
  end.
Proof.
  unfold recoverChain, logger.
  unfold bind at 1, emit at 1. unfold catch, bind.
  destruct (deleteLastBlock E _) as [[p | e | c] s1]; reflexivity.
Qed.

End DeleteLastBlockOutcomes.



(** X16. deleteLastBlock on a tip whose parent storage does not return
    (the list of blocks loaded for the tip's previous-block id is empty):
    the process is ended with exit code 0 before anything is undone. The
    persistence transaction is opened and rolled back, one error is
    logged, and register, flag, storage and pool are untouched. *)
Theorem deleteLastBlock_parent_missing {DB Pool Account} (E : Env DB Pool Account)
    (s : State DB Pool) :
  b_height (lastBlock s) <> 1 ->
  utils_loadBlocksPart E (b_previousBlock (lastBlock s)) (db s) = Ok [] ->
  deleteLastBlock E s =
  (Exited 0,
   mkState (lastBlock s) (isActive s) (db s) (pool s)
     (trace s ++
      [Log warn "Deleting last block";
       DbTx "Chain:deleteBlock";
       Call (loadBlocksPart_ (b_previousBlock (lastBlock s)));
       Log error "Failed to get loadBlocksPart";
       DbRollback "Chain:deleteBlock";
       ProcessExit 0])).
Proof.
  intros Hh Hl. rewrite (deleteLastBlock_past_guard E s Hh).
  unfold popLastBlock, catch, db_tx, popLastBlockTx.
  unfold bind at 1. cbn [lastBlock_get fst snd].
  unfold bind at 1.
  unfold loadSecondLastBlockStep, bind at 1, catch, db_read.
  cbn [record db lastBlock]. rewrite Hl. cbn [of_result].
  unfold bind, logger, emit, reject, process_exit. cbn.
  unfold record, with_db. cbn. rewrite <- !app_assoc. reflexivity.
Qed.

(** X16 on the small ledger, with a storage that returns no block. *)
Lemma deleteLastBlock_parent_missing_witness :
  fst (deleteLastBlock Faulty.noParentEnv (Toy.start Toy.emptyPool)) = Exited 0.
Proof.
  rewrite (deleteLastBlock_parent_missing Faulty.noParentEnv
             (Toy.start Toy.emptyPool)
             ltac:(vm_compute; discriminate) eq_refl).
  reflexivity.
Defined.

(** X17. The tip after a successful deleteLastBlock is the first block
    storage returned when asked for the old tip's previous-block id, as
    storage was before anything was undone. deleteLastBlock compares
    neither its id nor its height with anything: it is handed back to the
    caller and written to the register as it came. *)
Theorem deleteLastBlock_new_tip {DB Pool Account} (E : Env DB Pool Account)
    (s sf : State DB Pool) (p : Block) :
  deleteLastBlock E s = (Done p, sf) ->
  (exists rest,
     utils_loadBlocksPart E (b_previousBlock (lastBlock s)) (db s)
     = Ok (p :: rest)) /\
  lastBlock sf = p.
Proof.
  intros H. apply deleteLastBlock_Done in H.
  destruct H as [_ [sb [r [pl [Hb [_ ->]]]]]].
  destruct (popLastBlockTx_Done E _ _ _ Hb) as [Hl _].
  split; [exact Hl | reflexivity].
Qed.

(** X17 on the small ledger: a storage that answers with the genesis
    block, whatever it is asked for, makes the genesis block the tip. *)
Lemma deleteLastBlock_new_tip_witness :
  lastBlock
    (snd (deleteLastBlock
            (Faulty.withLoadBlocksPart (fun _ _ => Ok [Toy.genesis]) Faulty.ledger)
            Toy.applied))
  = Toy.genesis.
Proof.
  exact (proj2 (deleteLastBlock_new_tip
                  (Faulty.withLoadBlocksPart (fun _ _ => Ok [Toy.genesis])
                     Faulty.ledger)
                  Toy.applied
                  (snd (deleteLastBlock
                          (Faulty.withLoadBlocksPart (fun _ _ => Ok [Toy.genesis])
                             Faulty.ledger)
                          Toy.applied))
                  Toy.genesis ltac:(vm_compute; reflexivity))).
Defined.

(** X18. deleteLastBlock and recoverChain neither take nor release the
    Is-Active flag, and tell no one: however they end, the flag is what it
    was, nothing is sent on the bus and no signal is sent to the process. *)
Theorem deleteLastBlock_silent {DB Pool Account} (E : Env DB Pool Account)
    (s : State DB Pool) :
  (isActive (snd (deleteLastBlock E s)) = isActive s /\
   exists evs,
     trace (snd (deleteLastBlock E s)) = trace s ++ evs /\ Forall silent evs) /\
  (isActive (snd (recoverChain E s)) = isActive s /\
   exists evs,
     trace (snd (recoverChain E s)) = trace s ++ evs /\ Forall silent evs).
Proof.
  split; split.
  - apply (within_deleteLastBlock E (R:=keepsActive)); intros; exact I.
  - apply (within_deleteLastBlock E (R:=extends silent)); intros; exact I.
  - apply (within_recoverChain E (R:=keepsActive)); intros; exact I.
  - apply (within_recoverChain E (R:=extends silent)); intros; exact I.
Qed.

(** X19. recoverChain reports what deleteLastBlock reports. It fails only
    when the tip is the genesis block, with the cannot-delete-genesis
    error, having changed nothing but the log; when it succeeds,
    deleteLastBlock has succeeded and the register holds the block it
    returned. A recovery that runs into any other failure ends the
    process, and recoverChain logs and reports nothing about it. *)
Theorem recoverChain_outcomes {DB Pool Account} (E : Env DB Pool Account)
    (s : State DB Pool) :
  (forall e,
     fst (recoverChain E s) = Failed e ->
     b_height (lastBlock s) = 1 /\
     e = ErrString "Cannot delete genesis block" /\
     snd (recoverChain E s) =
     mkState (lastBlock s) (isActive s) (db s) (pool s)
       (trace s ++
        [Log warn "Chain comparison failed, starting recovery";
         Log warn "Deleting last block";
         Log error "Recovery failed"])) /\
  (fst (recoverChain E s) = Done tt ->
   exists p,
     fst (deleteLastBlock E
            (record (Log warn "Chain comparison failed, starting recovery") s))
     = Done p /\
     lastBlock (snd (recoverChain E s)) = p) /\
  (forall c,
     fst (recoverChain E s) = Exited c ->
     snd (recoverChain E s) =
     snd (deleteLastBlock E
            (record (Log warn "Chain comparison failed, starting recovery") s))).
Proof.
  rewrite recoverChain_unfold.
  set (s0 := record (Log warn "Chain comparison failed, starting recovery") s).
  pose proof (deleteLastBlock_Failed E s0) as Hf.
  destruct (deleteLastBlock E s0) as [[p | e0 | c0] s1] eqn:Hd; simpl in Hf.
  - split; [| split].
    + intros e H. discriminate H.
    + intros _. exists p. split; [reflexivity |].
      exact (deleteLastBlock_Done_register E s0 s1 p Hd).
    + intros c H. discriminate H.
  - destruct (Hf e0 eq_refl) as [Hh ->].
    rewrite (deleteLastBlock_at_genesis E s0 Hh) in Hd. inversion Hd. subst s1.
    split; [| split].
    + intros e H. inversion H. subst e.
      split; [exact Hh |]. split; [reflexivity |].
      unfold s0, record. simpl. rewrite <- !app_assoc. reflexivity.
    + intros H. discriminate H.
    + intros c H. discriminate H.
  - split; [| split].
    + intros e H. discriminate H.
    + intros H. discriminate H.
    + intros c _. reflexivity.
Qed.

(** X19 on the small ledger, with the genesis block as the tip. *)
Lemma recoverChain_outcomes_witness :
  fst (recoverChain Faulty.ledger Toy.fresh)
    = Failed (ErrString "Cannot delete genesis block") /\
  db (snd (recoverChain Faulty.ledger Toy.fresh)) = db Toy.fresh.
Proof.
  assert (H : fst (recoverChain Faulty.ledger Toy.fresh)
              = Failed (ErrString "Cannot delete genesis block"))
    by (vm_compute; reflexivity).
  split; [exact H |].
  rewrite (proj2 (proj2 (proj1 (recoverChain_outcomes Faulty.ledger Toy.fresh)
                           _ H))).
  reflexivity.
Defined.

(** * The network module: objects *)

Section NetworkObjects.

Import Network.

Lemma get_set k k' v o :
  get k (set k' v o) = if String.eqb k' k then v else get k o.
Proof.
  induction o as [| [k1 v1] r IH]; simpl.
  - destruct (String.eqb k' k); reflexivity.
  - destruct (String.eqb_spec k1 k') as [-> | Hne]; simpl.
    + destruct (String.eqb k' k); reflexivity.
    + rewrite IH.
      destruct (String.eqb_spec k1 k) as [-> | Hk]; [| reflexivity].
      destruct (String.eqb_spec k' k) as [-> | _]; [congruence | reflexivity].
Qed.

Lemma has_set k k' v o :
  has k (set k' v o) = String.eqb k' k || has k o.
Proof.
  unfold has. induction o as [| [k1 v1] r IH]; simpl.
  - rewrite orb_false_r. reflexivity.
  - destruct (String.eqb_spec k1 k') as [-> | Hne]; simpl.
    + destruct (String.eqb k' k); reflexivity.
    + rewrite IH.
      destruct (String.eqb k1 k), (String.eqb k' k); reflexivity.
Qed.

Lemma get_without k k' o :
  get k (without k' o) = if String.eqb k' k then VUndefined else get k o.
Proof.
  unfold without. induction o as [| [k1 v1] r IH]; simpl.
  - destruct (String.eqb k' k); reflexivity.
  - destruct (String.eqb_spec k1 k') as [-> | Hne]; simpl.
    + rewrite IH. destruct (String.eqb k' k); reflexivity.
    + rewrite IH.
      destruct (String.eqb_spec k1 k) as [-> | Hk]; [| reflexivity].
      destruct (String.eqb_spec k' k) as [-> | _]; [congruence | reflexivity].
Qed.

Lemma has_without k k' o :
  has k (without k' o) = negb (String.eqb k' k) && has k o.
Proof.
  unfold has, without. induction o as [| [k1 v1] r IH]; simpl.
  - rewrite andb_false_r. reflexivity.
  - destruct (String.eqb_spec k1 k') as [-> | Hne]; simpl.
    + rewrite IH. destruct (String.eqb k' k); reflexivity.
    + rewrite IH.
      destruct (String.eqb_spec k1 k) as [-> | Hk]; simpl.
      * destruct (String.eqb_spec k' k) as [-> | _]; [congruence | reflexivity].
      * reflexivity.
Qed.

Lemma get_missing k o : has k o = false -> get k o = VUndefined.
Proof.
  unfold has. induction o as [| [k1 v1] r IH]; simpl; [reflexivity |].
  destruct (String.eqb k1 k); simpl; [discriminate | exact IH].
Qed.

Lemma has_In k o : has k o = true <-> In k (map fst o).
Proof.
  unfold has. induction o as [| [k1 v1] r IH]; simpl.
  - split; [discriminate | tauto].
  - destruct (String.eqb_spec k1 k) as [-> | Hne]; simpl.
    + split; auto.
    + rewrite IH. split; [auto | intros [H | H]; [congruence | exact H]].
Qed.

Lemma has_spread k o acc :
  has k (spread o acc) = has k o || has k acc.
Proof.
  unfold spread. revert acc. induction o as [| [k1 v1] r IH]; intros acc; simpl.
  - reflexivity.
  - rewrite IH, has_set.
    change (has k ((k1, v1) :: r)) with (String.eqb k1 k || has k r).
    destruct (String.eqb k1 k), (has k r), (has k acc); reflexivity.
Qed.

Lemma get_spread k o acc :
  wellFormed o ->
  get k (spread o acc) = if has k o then get k o else get k acc.
Proof.
  unfold spread, wellFormed. revert acc.
  induction o as [| [k1 v1] r IH]; intros acc Hwf; simpl; [reflexivity |].
  inversion Hwf as [| ? ? Hnin Hr]. subst.
  rewrite (IH _ Hr), get_set.
  change (has k ((k1, v1) :: r)) with (String.eqb k1 k || has k r).
  destruct (String.eqb_spec k1 k) as [-> | Hne]; simpl.
  - destruct (has k r) eqn:Hh; [| reflexivity].
    exfalso. apply Hnin. apply has_In. exact Hh.
  - reflexivity.
Qed.

Lemma map_fst_set k v o :
  map fst (set k v o) = if has k o then map fst o else map fst o ++ [k].
Proof.
  unfold has. induction o as [| [k1 v1] r IH]; simpl; [reflexivity |].
  destruct (String.eqb_spec k1 k) as [-> | Hne]; simpl; [reflexivity |].
  rewrite IH. destruct (existsb _ r); reflexivity.
Qed.

Lemma wellFormed_set k v o : wellFormed o -> wellFormed (set k v o).
Proof.
  unfold wellFormed. intros Hwf. rewrite map_fst_set.
  destruct (has k o) eqn:Hh; [exact Hwf |].
  apply NoDup_app; [exact Hwf | constructor; [intros [] | constructor] |].
  intros x Hx [<- | []].
  apply has_In in Hx. congruence.
Qed.

Lemma wellFormed_spread o acc : wellFormed acc -> wellFormed (spread o acc).
Proof.
  unfold spread. revert acc. induction o as [| [k1 v1] r IH]; intros acc Hwf;
    simpl; [exact Hwf |].
  apply IH, wellFormed_set, Hwf.
Qed.

Lemma wellFormed_without k o : wellFormed o -> wellFormed (without k o).
Proof.
  unfold wellFormed, without. induction o as [| [k1 v1] r IH]; intros Hwf;
    simpl; [constructor |].
  inversion Hwf as [| ? ? Hnin Hr]. subst.
  destruct (String.eqb k1 k); simpl; [apply IH, Hr |].
  constructor; [| apply IH, Hr].
  intros Hin. apply Hnin.
  clear -Hin. induction r as [| [k2 v2] r IH]; simpl in *; [exact Hin |].
  destruct (String.eqb k2 k); simpl in *; [right; apply IH, Hin |].
  destruct Hin as [H | H]; [left; exact H | right; apply IH, H].
Qed.

(** Setting a key to the value it has changes nothing. *)
Lemma set_same k v o : has k o = true -> get k o = v -> set k v o = o.
Proof.
  unfold has. induction o as [| [k1 v1] r IH]; simpl; [discriminate |].
  destruct (String.eqb_spec k1 k) as [-> | Hne]; simpl.
  - intros _ ->. reflexivity.
  - intros Hh Hg. rewrite (IH Hh Hg). reflexivity.
Qed.

(** Copying an object gives the object. *)
Lemma spread_copy o : wellFormed o -> spread o [] = o.
Proof.
  unfold spread, wellFormed.
  assert (H : forall acc,
             NoDup (map fst (acc ++ o)) ->
             fold_left (fun acc kv => set (fst kv) (snd kv) acc) o acc = acc ++ o).
  { revert o. induction o as [| [k1 v1] r IH]; intros acc Hwf; simpl.
    - rewrite app_nil_r. reflexivity.
    - assert (Hs : set k1 v1 acc = acc ++ [(k1, v1)]).
      { clear IH. induction acc as [| [k2 v2] acc IHa]; simpl; [reflexivity |].
        simpl in Hwf. inversion Hwf as [| ? ? Hnin Hr]. subst.
        destruct (String.eqb_spec k2 k1) as [-> | Hne].
        - exfalso. apply Hnin. rewrite map_app, in_app_iff. right. left.
          reflexivity.
        - rewrite (IHa Hr). reflexivity. }
      rewrite Hs, IH; rewrite <- app_assoc; [reflexivity | exact Hwf]. }
  intros Hwf. apply (H []). exact Hwf.
Qed.

End NetworkObjects.

(** X20. The node information handed to the P2P library. Whatever the
    application reports, [state] is 2, [nonce] is the nonce the module
    generated and [wsPort] is the module's own port: the application's own
    values for these three never reach the peers. Every other property is
    passed on as reported. Sanitising what has been sanitised changes
    nothing. *)
Theorem sanitizeNodeInfo_overrides (wsPort : Network.Value) (moduleNonce : string)
    (nodeInfo : Network.Obj) :
  Network.wellFormed nodeInfo ->
  Network.get "state" (Network.sanitizeNodeInfo wsPort moduleNonce nodeInfo)
    = Network.VNumber 2 /\
  Network.get "nonce" (Network.sanitizeNodeInfo wsPort moduleNonce nodeInfo)
    = Network.VString moduleNonce /\
  Network.get "wsPort" (Network.sanitizeNodeInfo wsPort moduleNonce nodeInfo)
    = wsPort /\
  (forall k,
     k <> "state" -> k <> "nonce" -> k <> "wsPort" ->
     Network.get k (Network.sanitizeNodeInfo wsPort moduleNonce nodeInfo)
       = Network.get k nodeInfo) /\
  Network.sanitizeNodeInfo wsPort moduleNonce
    (Network.sanitizeNodeInfo wsPort moduleNonce nodeInfo)
  = Network.sanitizeNodeInfo wsPort moduleNonce nodeInfo.
Proof.
  intros Hwf. unfold Network.sanitizeNodeInfo.
  rewrite (spread_copy nodeInfo Hwf).
  repeat split.
  - rewrite !get_set. reflexivity.
  - rewrite !get_set. reflexivity.
  - rewrite !get_set. rewrite String.eqb_refl. reflexivity.
  - intros k H1 H2 H3. rewrite !get_set.
    destruct (String.eqb_spec "wsPort" k) as [<- | _]; [congruence |].
    destruct (String.eqb_spec "nonce" k) as [<- | _]; [congruence |].
    destruct (String.eqb_spec "state" k) as [<- | _]; [congruence |].
    reflexivity.
  - set (o1 := Network.set "state" (Network.VNumber 2) nodeInfo).
    set (o2 := Network.set "nonce" (Network.VString moduleNonce) o1).
    set (o3 := Network.set "wsPort" wsPort o2).
    assert (Hw3 : Network.wellFormed o3)
      by (unfold o3, o2, o1; repeat apply wellFormed_set; exact Hwf).
    rewrite (spread_copy o3 Hw3).
    assert (H1 : Network.set "state" (Network.VNumber 2) o3 = o3).
    { apply set_same.
      - unfold o3, o2, o1. rewrite !has_set. reflexivity.
      - unfold o3, o2, o1. rewrite !get_set. reflexivity. }
    rewrite H1.
    assert (H2 : Network.set "nonce" (Network.VString moduleNonce) o3 = o3).
    { apply set_same.
      - unfold o3, o2. rewrite !has_set. reflexivity.
      - unfold o3, o2. rewrite !get_set. reflexivity. }
    rewrite H2.
    apply set_same.
    + unfold o3. rewrite has_set, String.eqb_refl. reflexivity.
    + unfold o3. rewrite get_set, String.eqb_refl. reflexivity.
Qed.

(** X20 on the state the small node reports. *)
Lemma sanitizeNodeInfo_overrides_witness :
  Network.get "nonce"
    (Network.sanitizeNodeInfo (Network.VNumber 7001) "0123456789abcdef"
       [("height", Network.VNumber 3); ("nonce", Network.VString "app");
        ("state", Network.VNumber 1)])
  = Network.VString "0123456789abcdef".
Proof.
  apply (sanitizeNodeInfo_overrides (Network.VNumber 7001) "0123456789abcdef"
           [("height", Network.VNumber 3); ("nonce", Network.VString "app");
            ("state", Network.VNumber 1)]).
  unfold Network.wellFormed. simpl.
  repeat constructor; simpl; intuition discriminate.
Defined.

(** * The network module: peers *)

(** Decides the comparisons of two property names that are both given. *)
Ltac closed_eqb :=
  repeat match goal with
  | |- context [String.eqb ?a ?b] =>
      let r := eval vm_compute in (String.eqb a b) in
      match r with
      | true => change (String.eqb a b) with true
      | false => change (String.eqb a b) with false
      end
  end;
  cbv iota.

Section NetworkPeers.

Import Network.

Lemma peerToSave_get k peer :
  wellFormed peer ->
  get k (peerToSave peer) =
  if String.eqb "protocolVersion" k
  then (if truthy (get "protocolVersion" peer)
        then get "protocolVersion" peer else VString "")
  else if String.eqb "state" k
  then (if truthy (get "state" peer) then get "state" peer else VNumber 2)
  else if negb (String.eqb "ipAddress" k) && has k peer then get k peer
  else if String.eqb "ip" k then get "ipAddress" peer
  else VUndefined.
Proof.
  intros Hwf. unfold peerToSave. cbv zeta.
  rewrite !get_set, !get_without. closed_eqb.
  rewrite (get_spread k _ _ (wellFormed_without "ipAddress" peer Hwf)).
  rewrite has_without, get_without.
  destruct (String.eqb "protocolVersion" k); [reflexivity |].
  destruct (String.eqb "state" k); [reflexivity |].
  destruct (String.eqb_spec "ipAddress" k) as [<- | Hne]; simpl.
  - reflexivity.
  - destruct (has k peer); [reflexivity |].
    destruct (String.eqb "ip" k); reflexivity.
Qed.

Lemma peerToSave_has k peer :
  has k (peerToSave peer) =
  String.eqb "protocolVersion" k || String.eqb "state" k
  || (negb (String.eqb "ipAddress" k) && has k peer) || String.eqb "ip" k.
Proof.
  unfold peerToSave. cbv zeta.
  rewrite !has_set, has_spread, has_without.
  change (has k [("ip", get "ipAddress" peer)]) with (String.eqb "ip" k || false).
  destruct (String.eqb "protocolVersion" k), (String.eqb "state" k),
    (String.eqb "ipAddress" k), (has k peer), (String.eqb "ip" k); reflexivity.
Qed.

Lemma wellFormed_peerToSave peer : wellFormed (peerToSave peer).
Proof.
  unfold peerToSave. cbv zeta.
  repeat apply wellFormed_set. apply wellFormed_spread.
  unfold wellFormed. simpl. constructor; [intros [] | constructor].
Qed.

Lemma triedPeer_get k peer :
  wellFormed peer ->
  get k (triedPeer peer) =
  if negb (String.eqb "ip" k) && has k peer then get k peer
  else if String.eqb "ipAddress" k then get "ip" peer
  else VUndefined.
Proof.
  intros Hwf. unfold triedPeer. cbv zeta.
  rewrite (get_spread k _ _ (wellFormed_without "ip" peer Hwf)).
  rewrite has_without, get_without.
  destruct (String.eqb_spec "ip" k) as [<- | Hne]; simpl.
  - reflexivity.
  - destruct (has k peer); [reflexivity |].
    destruct (String.eqb "ipAddress" k); reflexivity.
Qed.

Lemma storable_peerToSave peer : storable (peerToSave peer).
Proof.
  unfold storable. rewrite !peerToSave_has. simpl.
  split; [reflexivity |]. split; [rewrite orb_true_r; reflexivity |].
  unfold peerToSave. cbv zeta. rewrite !get_set. simpl.
  split.
  - destruct (truthy (get "state" (without "ipAddress" peer))) eqn:Ht;
      [exact Ht | reflexivity].
  - destruct (truthy (get "protocolVersion" (without "ipAddress" peer))) eqn:Ht;
      [left; exact Ht | right; reflexivity].
Qed.

End NetworkPeers.

(** X21. What cleanup saves, bootstrap loads back. A peer of the P2P
    library that has no [ip] property of its own, converted for storage by
    cleanup and converted back by bootstrap, has the properties it had,
    [ipAddress] among them, but for two: a falsy [state] has become 2 and a
    falsy [protocolVersion] the empty string. *)
Theorem peerToSave_triedPeer_round_trip (peer : Network.Obj) (k : string) :
  Network.wellFormed peer ->
  Network.has "ip" peer = false ->
  Network.get k (Network.triedPeer (Network.peerToSave peer))
    = Network.defaulted k (Network.get k peer).
Proof.
  intros Hwf Hip.
  rewrite (triedPeer_get k _ (wellFormed_peerToSave peer)).
  rewrite peerToSave_has, !(peerToSave_get _ peer Hwf).
  unfold Network.defaulted.
  rewrite (String.eqb_sym k "state"), (String.eqb_sym k "protocolVersion").
  closed_eqb. rewrite Hip. cbn [negb andb orb].
  destruct (String.eqb_spec "ip" k) as [<- | Hk1].
  - closed_eqb. cbn [negb andb orb].
    rewrite (get_missing "ip" peer Hip). reflexivity.
  - cbn [negb andb orb]. rewrite orb_false_r.
    destruct (String.eqb_spec "protocolVersion" k) as [<- | Hk2];
      [reflexivity |].
    destruct (String.eqb_spec "state" k) as [<- | Hk3]; [reflexivity |].
    cbn [negb andb orb].
    destruct (String.eqb_spec "ipAddress" k) as [<- | Hk4].
    + reflexivity.
    + cbn [negb andb orb].
      destruct (Network.has k peer) eqn:Hh; [reflexivity |].
      rewrite (get_missing k peer Hh). reflexivity.
Qed.

(** X21 on a peer of the small node whose [state] is 0. *)
Lemma peerToSave_triedPeer_round_trip_witness :
  Network.get "state" (Network.triedPeer (Network.peerToSave Network.Toy.peerA))
  = Network.VNumber 2 /\
  Network.get "ipAddress"
    (Network.triedPeer (Network.peerToSave Network.Toy.peerA))
  = Network.VString "10.0.0.1".
Proof.
  assert (Hwf : Network.wellFormed Network.Toy.peerA).
  { unfold Network.wellFormed. simpl.
    repeat constructor; simpl; intuition discriminate. }
  split.
  - rewrite (peerToSave_triedPeer_round_trip Network.Toy.peerA "state" Hwf eq_refl).
    reflexivity.
  - rewrite (peerToSave_triedPeer_round_trip Network.Toy.peerA "ipAddress" Hwf
               eq_refl).
    reflexivity.
Defined.

(** * The network module: cleanup, requests, bootstrap *)

Section NetworkCleanup.

Import Network.
Context {Store : Type}.
Variable E : Env Store.

(** cleanup, by the answers of storage. *)
Lemma cleanup_unfold (s : State Store) :
  cleanup E s =
  let saved := map peerToSave (connectedPeers (p2p_getNetworkStatus E)) in
  let s0 := mkState (store s) (events s ++ [Log lInfo "Cleaning network..."]) in
  match saved with
  | [] => (p2p_stop E, mkState (store s) (events s0 ++ [Stop]))
  | _ :: _ =>
      match Peer_delete E (store s) with
      | (Rejected e, st) => (Rejected e, mkState st (events s0 ++ [PeerDelete]))
      | (Resolved _, st) =>
          match Peer_create E saved st with
          | (Rejected e, st') =>
              (Rejected e,
               mkState st' (events s0 ++ [PeerDelete] ++ [PeerCreate saved]))
          | (Resolved _, st') =>
              (p2p_stop E,
               mkState st'
                 (events s0 ++ [PeerDelete] ++ [PeerCreate saved]
                  ++ [Log lInfo "Saved all the peers to DB that have been tried"]
                  ++ [Stop]))
          end
      end
  end.
Proof.
  unfold cleanup. cbv zeta.
  destruct (map peerToSave (connectedPeers (p2p_getNetworkStatus E)))
    as [| q qs] eqn:Hq.
  - reflexivity.
  - unfold bind, logger, emit, onStore, call, ret.
    cbn [length Nat.eqb negb store events].
    destruct (Peer_delete E (store s)) as [[[] | e] st];
      cbn [store events]; [| rewrite <- !app_assoc; reflexivity].
    destruct (Peer_create E (q :: qs) st) as [[[] | e] st'];
      cbn [store events]; rewrite <- !app_assoc; reflexivity.
Qed.

End NetworkCleanup.

(** X22. What cleanup writes to the table of peers. It writes only when
    the P2P library has connected peers, and then deletes the table before
    it creates the new rows, in that order and once each. The rows are the
    connected peers, each converted: addressed by [ip] and no longer by
    [ipAddress], with a truthy [state] and with a [protocolVersion] that is
    truthy or the empty string. With no connected peer the table is not
    touched: the peers saved earlier stay. *)
Theorem cleanup_saves_storable_peers {Store : Type} (E : Network.Env Store)
    (s : Network.State Store) :
  exists evs,
    Network.events (snd (Network.cleanup E s)) = Network.events s ++ evs /\
    (forall peers,
       In (Network.PeerCreate peers) evs ->
       peers = map Network.peerToSave
                 (Network.connectedPeers (Network.p2p_getNetworkStatus E)) /\
       peers <> [] /\
       Forall Network.storable peers) /\
    (Network.connectedPeers (Network.p2p_getNetworkStatus E) = [] ->
     Network.store (snd (Network.cleanup E s)) = Network.store s /\
     filter Network.closing evs = [Network.Stop]) /\
    (Network.connectedPeers (Network.p2p_getNetworkStatus E) <> [] ->
     exists rest,
       filter Network.closing evs = Network.PeerDelete :: rest /\
       (rest = [] \/
        exists rest',
          rest = Network.PeerCreate
                   (map Network.peerToSave
                      (Network.connectedPeers (Network.p2p_getNetworkStatus E)))
                 :: rest' /\
          (rest' = [] \/ rest' = [Network.Stop]))).
Proof.
  rewrite cleanup_unfold. cbv zeta.
  assert (Hst : Forall Network.storable
                  (map Network.peerToSave
                     (Network.connectedPeers (Network.p2p_getNetworkStatus E)))).
  { apply Forall_map, Forall_forall. intros p _. apply storable_peerToSave. }
  destruct (Network.connectedPeers (Network.p2p_getNetworkStatus E))
    as [| p ps] eqn:Hp; cbn [map] in *.
  - eexists. split; [cbn; rewrite <- app_assoc; reflexivity |].
    split; [| split].
    + intros peers [H | [H | []]]; discriminate H.
    + intros _. split; reflexivity.
    + intros H. congruence.
  - destruct (Network.Peer_delete E (Network.store s)) as [[[] | e] st].
    + destruct (Network.Peer_create E _ st) as [[[] | e] st'].
      * eexists. split; [cbn; rewrite <- !app_assoc; reflexivity |].
        split; [| split].
        -- intros peers [H | [H | [H | [H | [H | []]]]]]; try discriminate H.
           inversion H. subst peers.
           split; [reflexivity |]. split; [discriminate | exact Hst].
        -- intros H. discriminate H.
        -- intros _. eexists. split; [reflexivity |].
           right. eexists. split; [reflexivity |]. right. reflexivity.
      * eexists. split; [cbn; rewrite <- !app_assoc; reflexivity |].
        split; [| split].
        -- intros peers [H | [H | [H | []]]]; try discriminate H.
           inversion H. subst peers.
           split; [reflexivity |]. split; [discriminate | exact Hst].
        -- intros H. discriminate H.
        -- intros _. eexists. split; [reflexivity |].
           right. eexists. split; [reflexivity |]. left. reflexivity.
    + eexists. split; [cbn; rewrite <- !app_assoc; reflexivity |].
      split; [| split].
      * intros peers [H | [H | []]]; discriminate H.
      * intros H. discriminate H.
      * intros _. eexists. split; [reflexivity |]. left. reflexivity.
Qed.

(** X23. When cleanup stops the P2P library. If storage rejects the
    deletion or the creation of the peers, cleanup rejects with that error
    and the P2P library is not stopped. The two writes are not one
    transaction: when the creation is rejected, the table is what the
    rejected creation left of the emptied table, so the peers saved earlier
    are gone. Whenever the library is stopped, that is the last thing
    cleanup does, and cleanup ends as the stop does. *)
Theorem cleanup_stop {Store : Type} (E : Network.Env Store)
    (s : Network.State Store) :
  exists evs,
    Network.events (snd (Network.cleanup E s)) = Network.events s ++ evs /\
    (forall e st,
       Network.connectedPeers (Network.p2p_getNetworkStatus E) <> [] ->
       Network.Peer_delete E (Network.store s) = (Network.Rejected e, st) ->
       fst (Network.cleanup E s) = Network.Rejected e /\
       Network.store (snd (Network.cleanup E s)) = st /\
       ~ In Network.Stop evs) /\
    (forall e st st',
       Network.connectedPeers (Network.p2p_getNetworkStatus E) <> [] ->
       Network.Peer_delete E (Network.store s) = (Network.Resolved tt, st) ->
       Network.Peer_create E
         (map Network.peerToSave
            (Network.connectedPeers (Network.p2p_getNetworkStatus E))) st
       = (Network.Rejected e, st') ->
       fst (Network.cleanup E s) = Network.Rejected e /\
       Network.store (snd (Network.cleanup E s)) = st' /\
       ~ In Network.Stop evs) /\
    (In Network.Stop evs ->
     fst (Network.cleanup E s) = Network.p2p_stop E /\
     exists before, evs = before ++ [Network.Stop]).
Proof.
  rewrite cleanup_unfold. cbv zeta.
  destruct (Network.connectedPeers (Network.p2p_getNetworkStatus E))
    as [| p ps] eqn:Hp; cbn [map].
  - eexists. split; [cbn; rewrite <- app_assoc; reflexivity |].
    split; [| split].
    + intros e st H. congruence.
    + intros e st st' H. congruence.
    + intros _. split; [reflexivity |]. eexists [_]. reflexivity.
  - destruct (Network.Peer_delete E (Network.store s)) as [[[] | e0] st0] eqn:Hd.
    + destruct (Network.Peer_create E _ st0) as [[[] | e1] st1] eqn:Hc.
      * eexists. split; [cbn; rewrite <- !app_assoc; reflexivity |].
        split; [| split].
        -- intros e st _ H. discriminate H.
        -- intros e st st' _ H1 H2. exfalso. inversion H1. subst st.
           rewrite Hc in H2. discriminate H2.
        -- intros _. split; [reflexivity |]. eexists [_; _; _; _].
           reflexivity.
      * eexists. split; [cbn; rewrite <- !app_assoc; reflexivity |].
        split; [| split].
        -- intros e st _ H. discriminate H.
        -- intros e st st' _ H1 H2. inversion H1. subst st.
           rewrite Hc in H2. inversion H2. subst.
           split; [reflexivity |]. split; [reflexivity |].
           intros [H | [H | [H | []]]]; discriminate H.
        -- intros [H | [H | [H | []]]]; discriminate H.
    + eexists. split; [cbn; rewrite <- !app_assoc; reflexivity |].
      split; [| split].
      * intros e st _ H. inversion H. subst.
        split; [reflexivity |]. split; [reflexivity |].
        intros [H1 | [H1 | []]]; discriminate H1.
      * intros e st st' _ H. discriminate H.
      * intros [H | [H | []]]; discriminate H.
Qed.

(** X23 on the small node: one peer is saved, one is connected, and
    storage rejects the creation. The table ends up empty. *)
Lemma cleanup_stop_witness :
  Network.store Network.Toy.node = [Network.Toy.saved] /\
  fst (Network.cleanup
         (Network.Toy.env (Network.VBool true) (Network.Resolved tt)
            (Network.Rejected (Network.Error "disk full")) [Network.Toy.peerA])
         Network.Toy.node)
  = Network.Rejected (Network.Error "disk full") /\
  Network.store
    (snd (Network.cleanup
            (Network.Toy.env (Network.VBool true) (Network.Resolved tt)
               (Network.Rejected (Network.Error "disk full")) [Network.Toy.peerA])
            Network.Toy.node))
  = [].
Proof.
  split; [reflexivity |].
  destruct (cleanup_stop
              (Network.Toy.env (Network.VBool true) (Network.Resolved tt)
                 (Network.Rejected (Network.Error "disk full")) [Network.Toy.peerA])
              Network.Toy.node) as [evs [_ [_ [H _]]]].
  destruct (H (Network.Error "disk full") [] []
              ltac:(discriminate) eq_refl eq_refl) as [H1 [H2 _]].
  split; assumption.
Defined.

(** X22 on the small node: two connected peers are saved. *)
Lemma cleanup_saves_storable_peers_witness :
  Forall Network.storable
    (map Network.peerToSave [Network.Toy.peerA; Network.Toy.peerB]).
Proof.
  destruct (cleanup_saves_storable_peers
              (Network.Toy.env (Network.VBool true) (Network.Resolved tt)
                 (Network.Resolved tt) [Network.Toy.peerA; Network.Toy.peerB])
              Network.Toy.node) as [evs [Hev [H _]]].
  apply (H (map Network.peerToSave [Network.Toy.peerA; Network.Toy.peerB])).
  apply (app_inv_head (Network.events Network.Toy.node)) in Hev.
  rewrite <- Hev. vm_compute. right. right. left. reflexivity.
Defined.

Section NetworkRequests.

Import Network.
Context {Store : Type}.
Variable E : Env Store.

Lemma hasNamespace_chain p : hasNamespace ("chain:" ^^ p) = true.
Proof. reflexivity. Qed.

Lemma hasNamespace_sanitizedProcedure p : hasNamespace (sanitizedProcedure p) = true.
Proof.
  unfold sanitizedProcedure. destruct (hasNamespace p) eqn:H;
    [exact H | apply hasNamespace_chain].
Qed.

End NetworkRequests.

(** X24. How an inbound request of a peer is answered. A request the P2P
    library has already answered is not served: nothing is invoked and no
    answer is sent. Any other request is served by exactly one public
    invocation, of a procedure that always carries a module name: a name
    with a colon is invoked as it is, a name without one is invoked in the
    chain module. The peer then gets the result if the invocation resolves.
    If the invocation rejects, or sending the result throws, the peer gets
    what was caught as the error, unless that is [null] or [undefined]:
    then reading [error.message] throws inside the catch block, nothing is
    logged as an error, no error is sent to the peer, and the handler
    rejects with the [TypeError]. *)
Theorem onRequestReceived_answers {Store : Type} (E : Network.Env Store)
    (request : Network.Request) (s : Network.State Store) :
  exists evs,
    Network.events (snd (Network.onRequestReceived E request s))
    = Network.events s ++ evs /\
    if Network.wasResponseSent request
    then filter Network.answering evs = [] /\
         fst (Network.onRequestReceived E request s) = Network.Resolved tt
    else
      exists p,
        Network.hasNamespace p = true /\
        (Network.hasNamespace (Network.procedure request) = true ->
         p = Network.procedure request) /\
        (Network.hasNamespace (Network.procedure request) = false ->
         p = "chain:" ^^ Network.procedure request) /\
        match Network.invokePublic E p (Network.data request) with
        | Network.Resolved result =>
            match Network.request_end E result with
            | Network.Resolved _ =>
                filter Network.answering evs =
                [Network.InvokePublic p (Network.data request);
                 Network.RequestEnd result] /\
                filter Network.errorLog evs = [] /\
                fst (Network.onRequestReceived E request s) = Network.Resolved tt
            | Network.Rejected thrown =>
                if Network.nullish thrown
                then
                  filter Network.answering evs =
                  [Network.InvokePublic p (Network.data request);
                   Network.RequestEnd result] /\
                  filter Network.errorLog evs = [] /\
                  exists typeError,
                    Network.member "message" thrown = Network.Rejected typeError /\
                    fst (Network.onRequestReceived E request s)
                    = Network.Rejected typeError
                else
                  filter Network.answering evs =
                  [Network.InvokePublic p (Network.data request);
                   Network.RequestEnd result; Network.RequestError thrown] /\
                  (exists msg, filter Network.errorLog evs
                               = [Network.Log Network.lError msg]) /\
                  fst (Network.onRequestReceived E request s)
                  = Network.request_error E thrown
            end
        | Network.Rejected err =>
            if Network.nullish err
            then
              filter Network.answering evs =
              [Network.InvokePublic p (Network.data request)] /\
              filter Network.errorLog evs = [] /\
              exists typeError,
                Network.member "message" err = Network.Rejected typeError /\
                fst (Network.onRequestReceived E request s)
                = Network.Rejected typeError
            else
              filter Network.answering evs =
              [Network.InvokePublic p (Network.data request);
               Network.RequestError err] /\
              (exists msg, filter Network.errorLog evs
                           = [Network.Log Network.lError msg]) /\
              fst (Network.onRequestReceived E request s)
              = Network.request_error E err
        end.
Proof.
  unfold Network.onRequestReceived, Network.bind, Network.logger, Network.emit.
  cbn [fst snd].
  destruct (Network.wasResponseSent request).
  - eexists. split; [reflexivity |]. split; reflexivity.
  - unfold Network.tryCatch, Network.bind, Network.call, Network.emit,
      Network.eval, Network.messageOr.
    cbn [Network.store Network.events].
    pose proof (hasNamespace_sanitizedProcedure (Network.procedure request)) as Hn.
    assert (H1 : Network.hasNamespace (Network.procedure request) = true ->
                 Network.sanitizedProcedure (Network.procedure request)
                 = Network.procedure request).
    { intros H. unfold Network.sanitizedProcedure. rewrite H. reflexivity. }
    assert (H2 : Network.hasNamespace (Network.procedure request) = false ->
                 Network.sanitizedProcedure (Network.procedure request)
                 = "chain:" ^^ Network.procedure request).
    { intros H. unfold Network.sanitizedProcedure. rewrite H. reflexivity. }
    set (p := Network.sanitizedProcedure (Network.procedure request)) in *.
    destruct (Network.invokePublic E p (Network.data request)) as [result | err]
      eqn:Hi.
    + cbn [Network.store Network.events].
      destruct (Network.request_end E result) as [[] | thrown] eqn:He.
      * eexists. split; [cbn; rewrite <- !app_assoc; reflexivity |].
        exists p. rewrite Hi, He. repeat split; auto.
      * destruct thrown; cbn [Network.member Network.store Network.events];
          (eexists; split; [cbn; rewrite <- ?app_assoc; reflexivity |]);
          exists p; rewrite Hi, He; cbn [Network.nullish];
          (split; [exact Hn |]); (split; [exact H1 |]); (split; [exact H2 |]);
          (split; [reflexivity |]);
          (split; [first [reflexivity | eexists; reflexivity] |]);
          first [reflexivity | eexists; split; reflexivity].
    + destruct err; cbn [Network.member Network.store Network.events];
        (eexists; split; [cbn; rewrite <- ?app_assoc; reflexivity |]);
        exists p; rewrite Hi; cbn [Network.nullish];
        (split; [exact Hn |]); (split; [exact H1 |]); (split; [exact H2 |]);
        (split; [reflexivity |]);
        (split; [first [reflexivity | eexists; reflexivity] |]);
        first [reflexivity | eexists; split; reflexivity].
Qed.

(** X24 on the small node: the legacy procedure name [blocks] is served in
    the chain module; an invocation that rejects with an error is answered
    with that error; one that rejects with [undefined] is not answered. *)
Lemma onRequestReceived_answers_witness :
  (exists evs,
     Network.events
       (snd (Network.onRequestReceived
               (Network.Toy.env (Network.VBool true) (Network.Resolved tt)
                  (Network.Resolved tt) [])
               (Network.mkRequest "blocks" Network.VNull false)
               Network.Toy.node))
     = Network.events Network.Toy.node ++ evs /\
     filter Network.answering evs =
     [Network.InvokePublic "chain:blocks" Network.VNull;
      Network.RequestEnd (Network.VArray [])]) /\
  (exists evs,
     Network.events
       (snd (Network.onRequestReceived
               (Network.Toy.rejecting (Network.Error "busy"))
               (Network.mkRequest "app:status" Network.VNull false)
               Network.Toy.node))
     = Network.events Network.Toy.node ++ evs /\
     filter Network.answering evs =
     [Network.InvokePublic "app:status" Network.VNull;
      Network.RequestError (Network.Error "busy")]) /\
  (exists evs,
     Network.events
       (snd (Network.onRequestReceived
               (Network.Toy.rejecting Network.VUndefined)
               (Network.mkRequest "app:status" Network.VNull false)
               Network.Toy.node))
     = Network.events Network.Toy.node ++ evs /\
     filter Network.answering evs =
     [Network.InvokePublic "app:status" Network.VNull] /\
     filter Network.errorLog evs = []).
Proof.
  split; [| split].
  - destruct (onRequestReceived_answers
                (Network.Toy.env (Network.VBool true) (Network.Resolved tt)
                   (Network.Resolved tt) [])
                (Network.mkRequest "blocks" Network.VNull false)
                Network.Toy.node) as [evs [Hev H]].
    exists evs. split; [exact Hev |].
    cbn [Network.wasResponseSent] in H.
    destruct H as [p [_ [_ [Hp H]]]].
    rewrite (Hp eq_refl) in H. exact (proj1 H).
  - destruct (onRequestReceived_answers
                (Network.Toy.rejecting (Network.Error "busy"))
                (Network.mkRequest "app:status" Network.VNull false)
                Network.Toy.node) as [evs [Hev H]].
    exists evs. split; [exact Hev |].
    cbn [Network.wasResponseSent] in H.
    destruct H as [p [_ [Hp [_ H]]]].
    rewrite (Hp eq_refl) in H. exact (proj1 H).
  - destruct (onRequestReceived_answers
                (Network.Toy.rejecting Network.VUndefined)
                (Network.mkRequest "app:status" Network.VNull false)
                Network.Toy.node) as [evs [Hev H]].
    exists evs. split; [exact Hev |].
    cbn [Network.wasResponseSent] in H.
    destruct H as [p [_ [Hp [_ H]]]].
    rewrite (Hp eq_refl) in H.
    split; [exact (proj1 H) | exact (proj1 (proj2 H))].
Defined.

(** Settles what is said about the end of bootstrap once the events are
    known. *)
Ltac started_tac :=
  first [ split; reflexivity
        | split; [reflexivity |]; eexists; split; reflexivity
        | split; [reflexivity |]; eexists; eexists;
          split; [reflexivity |]; split; reflexivity ].

(** X25. How bootstrap ends. When the storage component answers its
    bootstrap with a falsy status, bootstrap rejects with the
    cannot-bootstrap-storage error, and that is the last thing it did: no
    peer is loaded, no P2P library is created or started. The P2P library
    is created only after storage has bootstrapped with a truthy status.
    When bootstrap gets as far as starting the P2P library, the
    subscription and all twelve handlers were bound before the start, in
    the order of the source. If the start succeeds bootstrap resolves. If
    it fails with anything but [null] or [undefined], the failure is logged
    as fatal, with the message and the stack read from it, and handed to
    the process with the [cleanup] signal, and bootstrap resolves. If it
    fails with [null] or [undefined], reading [error.message] throws inside
    the catch block: nothing is logged, nothing is handed to the process,
    and bootstrap rejects with the [TypeError]. *)
Theorem bootstrap_outcomes {Store : Type} (E : Network.Env Store)
    (s : Network.State Store) :
  exists evs,
    Network.events (snd (Network.bootstrap E s)) = Network.events s ++ evs /\
    (forall status,
       In Network.StorageBootstrap evs ->
       Network.storage_bootstrap E = Network.Resolved status ->
       Network.truthy status = false ->
       fst (Network.bootstrap E s)
       = Network.Rejected (Network.Error "Cannot bootstrap the storage component") /\
       exists before, evs = before ++ [Network.StorageBootstrap]) /\
    (forall config,
       In (Network.NewP2P config) evs ->
       exists status,
         Network.storage_bootstrap E = Network.Resolved status /\
         Network.truthy status = true) /\
    (In Network.Start evs ->
     exists before config after,
       evs =
       before
       ++ Network.NewP2P config :: Network.Subscribe "app:state:updated"
       :: map Network.On Network.boundEvents
       ++ Network.Start :: after /\
       match Network.p2p_start E with
       | Network.Resolved _ =>
           after = [] /\ fst (Network.bootstrap E s) = Network.Resolved tt
       | Network.Rejected e =>
           if Network.nullish e
           then
             after = [] /\
             exists typeError,
               Network.member "message" e = Network.Rejected typeError /\
               fst (Network.bootstrap E s) = Network.Rejected typeError
           else
             fst (Network.bootstrap E s) = Network.Resolved tt /\
             exists message stack,
               Network.member "message" e = Network.Resolved message /\
               Network.member "stack" e = Network.Resolved stack /\
               after =
               [Network.LogFatal "Network initialization" message stack;
                Network.ProcessEmit "cleanup" e]
       end).
Proof.
  unfold Network.bootstrap.
  unfold Network.bind, Network.call, Network.emit, Network.onStore,
    Network.throw, Network.tryCatch, Network.ret, Network.eval.
  cbn.
  destruct (Network.getComponentConfig E "logger") as [lc | e1]; cbn.
  2: { eexists. split; [reflexivity |]. split; [| split].
       - intros st H. simpl in H. intuition discriminate.
       - intros c H. simpl in H. intuition discriminate.
       - intros H. simpl in H. intuition discriminate. }
  destruct (Network.getComponentConfig E "storage") as [sc | e2]; cbn.
  2: { eexists. split; [rewrite <- ?app_assoc; reflexivity |]. split; [| split].
       - intros st H. simpl in H. intuition discriminate.
       - intros c H. simpl in H. intuition discriminate.
       - intros H. simpl in H. intuition discriminate. }
  destruct (Network.truthy (Network.get "logFileName" sc)
            && Network.strictEq (Network.get "logFileName" sc)
                 (Network.get "logFileName" lc))%bool; cbn.
  all: destruct (Network.storage_bootstrap E) as [status | e3]; cbn.
  all: try (destruct (Network.truthy status) eqn:Hst; cbn).
  all: try (destruct (Network.Peer_get E (Network.store s)) as [tried | e4]; cbn).
  all: try (destruct (Network.getApplicationState E) as [state | e5]; cbn).
  all: try (destruct (Network.lookupPeersIPs E
                        (Network.o_seedPeers (Network.options E)))
              as [seed | e6]; cbn).
  all: try (destruct (Network.p2p_start E) as [[] | e7]; cbn).
  all: try (destruct e7; cbn).
  all: eexists; (split; [rewrite <- ?app_assoc; cbn; reflexivity |]).
  all: split; [| split].
  all: try (intros st H Hs Hf; inversion Hs; subst;
            first [ congruence
                  | split; [reflexivity |];
                    eexists [_; _; _; _; _; _]; reflexivity
                  | split; [reflexivity |];
                    eexists [_; _; _; _; _]; reflexivity ]).
  all: try (intros c H; simpl in H;
            first [ exists status; split; [reflexivity | exact Hst]
                  | intuition discriminate ]).
  all: try (intros H; simpl in H;
            first [ eexists [_; _; _; _; _; _; _; _; _; _], _, _;
                    (split; [reflexivity |]); started_tac
                  | eexists [_; _; _; _; _; _; _; _; _], _, _;
                    (split; [reflexivity |]); started_tac
                  | intuition discriminate ]).
Qed.

(** X25 on the small node: with a storage component that answers its
    bootstrap with 0; with a P2P library whose start fails with an error;
    and with one whose start fails with [undefined]. *)
Lemma bootstrap_outcomes_witness :
  fst (Network.bootstrap
         (Network.Toy.env (Network.VNumber 0) (Network.Resolved tt)
            (Network.Resolved tt) [])
         Network.Toy.node)
  = Network.Rejected (Network.Error "Cannot bootstrap the storage component") /\
  fst (Network.bootstrap
         (Network.Toy.env (Network.VBool true)
            (Network.Rejected (Network.Error "address in use"))
            (Network.Resolved tt) [])
         Network.Toy.node)
  = Network.Resolved tt /\
  (exists typeError,
     fst (Network.bootstrap
            (Network.Toy.env (Network.VBool true)
               (Network.Rejected Network.VUndefined) (Network.Resolved tt) [])
            Network.Toy.node)
     = Network.Rejected typeError).
Proof.
  split; [| split].
  - destruct (bootstrap_outcomes
                (Network.Toy.env (Network.VNumber 0) (Network.Resolved tt)
                   (Network.Resolved tt) [])
                Network.Toy.node) as [evs [Hev [H _]]].
    apply (H (Network.VNumber 0)); [| reflexivity | reflexivity].
    apply (app_inv_head (Network.events Network.Toy.node)) in Hev.
    rewrite <- Hev. vm_compute. tauto.
  - destruct (bootstrap_outcomes
                (Network.Toy.env (Network.VBool true)
                   (Network.Rejected (Network.Error "address in use"))
                   (Network.Resolved tt) [])
                Network.Toy.node) as [evs [Hev [_ [_ H]]]].
    destruct H as [before [config [after [_ H]]]].
    + apply (app_inv_head (Network.events Network.Toy.node)) in Hev.
      rewrite <- Hev. vm_compute. tauto.
    + exact (proj1 H).
  - destruct (bootstrap_outcomes
                (Network.Toy.env (Network.VBool true)
                   (Network.Rejected Network.VUndefined) (Network.Resolved tt) [])
                Network.Toy.node) as [evs [Hev [_ [_ H]]]].
    destruct H as [before [config [after [_ H]]]].
    + apply (app_inv_head (Network.events Network.Toy.node)) in Hev.
      rewrite <- Hev. vm_compute. tauto.
    + destruct H as [_ [typeError [_ H]]]. exists typeError. exact H.
Defined.
